(** * file_manager_version: content-addressed store, version ledger and
      duplicate sweep of [cmd/main.go]

    The development embeds the storage core of the program ([hashFile],
    [logAction], [logVersion], [storeFile], [deduplicateFiles]) over an
    explicit model of what the code touches: a file system (regular files and
    directories addressed by path), the two SQLite tables [actions] and
    [versions], and an oracle saying which system calls fail. *)

From Stdlib Require Import ZArith Strings.Byte Ascii String Lia.
From stdpp Require Import gmap strings list fin_maps sorting.

(** ** SHA-256 (Go's [crypto/sha256], FIPS 180-4)

    32-bit words are integers in [0, 2^32); additions wrap modulo 2^32. *)
Module SHA256.
Local Open Scope Z_scope.

Definition w32 (x : Z) : Z := x mod 2 ^ 32.

Definition rotr (n x : Z) : Z :=
  Z.lor (Z.shiftr x n) (w32 (Z.shiftl x (32 - n))).

Definition Ch (x y z : Z) : Z :=
  Z.lxor (Z.land x y) (Z.land (Z.lxor x (Z.ones 32)) z).

Definition Maj (x y z : Z) : Z :=
  Z.lxor (Z.lxor (Z.land x y) (Z.land x z)) (Z.land y z).

Definition Sigma0 (x : Z) : Z := Z.lxor (Z.lxor (rotr 2 x) (rotr 13 x)) (rotr 22 x).
Definition Sigma1 (x : Z) : Z := Z.lxor (Z.lxor (rotr 6 x) (rotr 11 x)) (rotr 25 x).
Definition sigma0 (x : Z) : Z := Z.lxor (Z.lxor (rotr 7 x) (rotr 18 x)) (Z.shiftr x 3).
Definition sigma1 (x : Z) : Z := Z.lxor (Z.lxor (rotr 17 x) (rotr 19 x)) (Z.shiftr x 10).

(** The constants of FIPS 180-4, from the first sixty-four primes: the round
    constants are the first 32 bits of the fractional parts of their cube
    roots, the initial chaining words those of the square roots of the first
    eight. *)
Definition is_prime (n : Z) : bool :=
  forallb (fun d => negb (n mod d =? 0)) (map Z.of_nat (seq 2 (Z.to_nat n - 2))).

Definition primes : list Z :=
  Eval vm_compute in firstn 64 (filter (fun n => is_prime n = true) (map Z.of_nat (seq 2 400))).

(** Integer cube root, one bit at a time from the top. *)
Fixpoint cbrt_bits (n : nat) (x t : Z) : Z :=
  match n with
  | O => x
  | S m =>
      let y := x + 2 ^ Z.of_nat m in
      cbrt_bits m (if y * y * y <=? t then y else x) t
  end.

Definition frac_cbrt (p : Z) : Z := w32 (cbrt_bits 40 0 (p * 2 ^ 96)).
Definition frac_sqrt (p : Z) : Z := w32 (Z.sqrt (p * 2 ^ 64)).

Definition K : list Z := Eval vm_compute in map frac_cbrt primes.

(** The eight chaining words. *)
Record state := State { sa : Z; sb : Z; sc : Z; sd : Z; se : Z; sf : Z; sg : Z; sh : Z }.

Definition init : state :=
  Eval vm_compute in
    match map frac_sqrt (firstn 8 primes) with
    | [a; b; c; d; e; f; g; h] => State a b c d e f g h
    | _ => State 0 0 0 0 0 0 0 0
    end.

Definition byte_val (b : byte) : Z := Z.of_N (Byte.to_N b).

Definition byte_of (x : Z) : byte :=
  match Byte.of_N (Z.to_N (x mod 256)) with
  | Some b => b
  | None => x00
  end.

(** Big-endian encoding of the low [n] bytes of [x]. *)
Fixpoint be_bytes (n : nat) (x : Z) : list byte :=
  match n with
  | O => []
  | S m => byte_of (Z.shiftr x (8 * Z.of_nat m)) :: be_bytes m x
  end.

Definition be_word (bs : list byte) : Z :=
  fold_left (fun acc b => acc * 256 + byte_val b) bs 0.

(** Padding: a 0x80 byte, zeros up to 56 mod 64, then the bit length on
    eight bytes. *)
Definition pad (msg : list byte) : list byte :=
  let len := Z.of_nat (length msg) in
  let zeros := Z.to_nat ((55 - len) mod 64) in
  msg ++ x80 :: repeat x00 zeros ++ be_bytes 8 (8 * len).

Fixpoint chunks (fuel n : nat) (bs : list byte) : list (list byte) :=
  match fuel with
  | O => []
  | S fuel' =>
      match bs with
      | [] => []
      | _ => firstn n bs :: chunks fuel' n (skipn n bs)
      end
  end.

Definition chunksOf (n : nat) (bs : list byte) : list (list byte) :=
  chunks (length bs) n bs.

(** Message schedule: the sixteen block words extended to sixty-four.  The
    list is kept most recent word first. *)
Fixpoint extend (n : nat) (rw : list Z) : list Z :=
  match n with
  | O => rw
  | S m =>
      let w := w32 (sigma1 (nth 1 rw 0) + nth 6 rw 0 + sigma0 (nth 14 rw 0) + nth 15 rw 0) in
      extend m (w :: rw)
  end.

Definition schedule (block : list byte) : list Z :=
  rev (extend 48 (rev (map be_word (chunksOf 4 block)))).

Definition round (s : state) (kw : Z * Z) : state :=
  let '(k, w) := kw in
  let t1 := sh s + Sigma1 (se s) + Ch (se s) (sf s) (sg s) + k + w in
  let t2 := Sigma0 (sa s) + Maj (sa s) (sb s) (sc s) in
  State (w32 (t1 + t2)) (sa s) (sb s) (sc s) (w32 (sd s + t1)) (se s) (sf s) (sg s).

Definition compress (s : state) (block : list byte) : state :=
  let r := fold_left round (combine K (schedule block)) s in
  State (w32 (sa s + sa r)) (w32 (sb s + sb r)) (w32 (sc s + sc r)) (w32 (sd s + sd r))
        (w32 (se s + se r)) (w32 (sf s + sf r)) (w32 (sg s + sg r)) (w32 (sh s + sh r)).

Definition output (s : state) : list byte :=
  be_bytes 4 (sa s) ++ be_bytes 4 (sb s) ++ be_bytes 4 (sc s) ++ be_bytes 4 (sd s) ++
  be_bytes 4 (se s) ++ be_bytes 4 (sf s) ++ be_bytes 4 (sg s) ++ be_bytes 4 (sh s).

(** [sha256.Sum256]: the 32-byte digest of a byte sequence. *)
Definition sum (msg : list byte) : list byte :=
  output (fold_left compress (chunksOf 64 (pad msg)) init).

End SHA256.

(** ** [fmt.Sprintf("%x", bytes)]: lower-case hexadecimal *)

Definition hexdigit (n : N) : ascii :=
  match n with
  | 0%N => "0" | 1%N => "1" | 2%N => "2" | 3%N => "3" | 4%N => "4"
  | 5%N => "5" | 6%N => "6" | 7%N => "7" | 8%N => "8" | 9%N => "9"
  | 10%N => "a" | 11%N => "b" | 12%N => "c" | 13%N => "d" | 14%N => "e"
  | _ => "f"
  end%char.

Fixpoint hex (bs : list byte) : string :=
  match bs with
  | [] => EmptyString
  | b :: bs' =>
      String (hexdigit (Byte.to_N b / 16)) (String (hexdigit (Byte.to_N b mod 16)) (hex bs'))
  end.

Definition bytes_of_string (s : string) : list byte := list_byte_of_string s.

(** [fmt.Sprintf("%x", hasher.Sum(nil))] once the hasher has taken [data]. *)
Definition digest (data : list byte) : string := hex (SHA256.sum data).


(** ** Paths: Go's [path/filepath] and [strings] helpers on Unix

    Paths are byte strings with ['/'] as the separator. *)

Definition isPathSeparator (c : ascii) : bool := Ascii.eqb c "/"%char.

(** The loop of [filepath.Ext], run over the reversed path: walk back from
    the last byte, stop at a separator, return the tail from the first dot
    met. [acc] holds the bytes already passed, in path order. *)
Fixpoint ext_scan (rs acc : list ascii) : list ascii :=
  match rs with
  | [] => []
  | c :: rs' =>
      if isPathSeparator c then []
      else if Ascii.eqb c "."%char then c :: acc
      else ext_scan rs' (c :: acc)
  end.

Definition filepath_Ext (path : string) : string :=
  string_of_list_ascii (ext_scan (rev (list_ascii_of_string path)) []).

(** [filepath.Base]: strip trailing separators, keep the last element. *)
Fixpoint strip_seps (rs : list ascii) : list ascii :=
  match rs with
  | c :: rs' => if isPathSeparator c then strip_seps rs' else rs
  | [] => []
  end.

Fixpoint last_elem (rs acc : list ascii) : list ascii :=
  match rs with
  | [] => acc
  | c :: rs' => if isPathSeparator c then acc else last_elem rs' (c :: acc)
  end.

Definition filepath_Base (path : string) : string :=
  match path with
  | EmptyString => "."
  | _ =>
      match last_elem (strip_seps (rev (list_ascii_of_string path))) [] with
      | [] => "/"
      | e => string_of_list_ascii e
      end
  end%string.

(** The directory a path lives in (what [filepath.Dir] answers): the path up
    to the last separator, ["."] when there is none. The model of [os.Mkdir]
    and [os.Create] needs it. *)
Fixpoint drop_elem (rs : list ascii) : list ascii :=
  match rs with
  | [] => []
  | c :: rs' => if isPathSeparator c then rs else drop_elem rs'
  end.

Definition parent_dir (path : string) : string :=
  match strip_seps (drop_elem (rev (list_ascii_of_string path))) with
  | [] =>
      match drop_elem (rev (list_ascii_of_string path)) with
      | [] => "."
      | _ => "/"
      end
  | d => string_of_list_ascii (rev d)
  end%string.

(** [filepath.Join dir name] for a non-empty [name] without separator or dot
    element, which is the only way the program calls it: [Clean] leaves
    [dir/name] as it is. *)
Definition filepath_Join (dir name : string) : string :=
  (dir ++ "/" ++ name)%string.

Fixpoint is_prefix (p l : list ascii) : bool :=
  match p, l with
  | [], _ => true
  | a :: p', b :: l' => Ascii.eqb a b && is_prefix p' l'
  | _ :: _, [] => false
  end.

Definition strings_HasSuffix (s suffix : string) : bool :=
  is_prefix (rev (list_ascii_of_string suffix)) (rev (list_ascii_of_string s)).

Definition strings_TrimSuffix (s suffix : string) : string :=
  if strings_HasSuffix s suffix
  then string_of_list_ascii
         (firstn (String.length s - String.length suffix) (list_ascii_of_string s))
  else s.

(** ** The state the program acts on *)

(** A row of table [actions] ([id] is the position, [timestamp] is left
    out). *)
Record ActionRecord := mkAction {
  action_type : string;
  a_filename : string;
  storage_id : string
}.

(** A row of table [versions]. *)
Record VersionRecord := mkVersion {
  v_filename : string;
  v_version : Z;
  v_hash : string
}.

(** What a path holds. The model knows regular files and directories only:
    symbolic links and other special files are outside it, and what is proved
    about the file system is proved of trees without them. *)
Inductive Node :=
| File (data : list byte)
| Directory.

(** The file system is keyed by path as the program names it: the keys are
    clean paths, and a path is looked up as it is written. The two tables are
    kept apart from the files. In the program they live in the file
    [file_manager.db] of the working directory; a call that writes, truncates
    or removes that file is outside the model. *)
Record World := mkWorld {
  fs : gmap string Node;
  actions : list ActionRecord;
  versions : list VersionRecord
}.

Definition set_fs (f : gmap string Node → gmap string Node) (w : World) : World :=
  mkWorld (f (fs w)) (actions w) (versions w).

(** System and database calls the program makes; the oracle of a run says
    which of them fail for reasons outside the model (permissions, a full
    disk, a locked database). *)
Inductive Op :=
| OpMkdir (p : string)
| OpOpen (p : string)
| OpHashOpen (p : string)
| OpHashRead (p : string)
| OpCreate (p : string)
| OpCopy (dst : string)
| OpRemove (p : string)
| OpWalk (p : string)
| OpInsertAction (filename : string)
| OpSelectVersion (filename : string)
| OpInsertVersion (filename : string).

Record Faults := mkFaults {
  fails : Op → bool;
  (** bytes that reach the destination before a failing copy stops *)
  written : string → nat
}.

Definition no_faults : Faults := mkFaults (λ _, false) (λ _, 0).

(** Go [error] values: the error of a failed call, wrapped by
    [fmt.Errorf("...: %w", err)]. *)
Inductive error :=
| SysError (op : Op)
| Errorf (msg : string) (e : error).

Inductive result (A : Type) :=
| Ok (a : A)
| Err (e : error).
Arguments Ok {A} a.
Arguments Err {A} e.

(** Computations over the world that may fail; the world changes made before
    a failure stay. *)
Definition IO (A : Type) : Type := World → World * result A.

Definition ret {A} (a : A) : IO A := λ w, (w, Ok a).
Definition fail {A} (e : error) : IO A := λ w, (w, Err e).
Definition bind {A B} (c : IO A) (k : A → IO B) : IO B :=
  λ w, match c w with
       | (w', Ok a) => k a w'
       | (w', Err e) => (w', Err e)
       end.
Definition get : IO World := λ w, (w, Ok w).
Definition modify (f : World → World) : IO unit := λ w, (f w, Ok tt).

(** [if err != nil { return fmt.Errorf(msg, err) }] *)
Definition wrap {A} (msg : string) (c : IO A) : IO A :=
  λ w, match c w with
       | (w', Ok a) => (w', Ok a)
       | (w', Err e) => (w', Err (Errorf msg e))
       end.

Notation "'let*' x := c 'in' k" := (bind c (λ x, k))
  (at level 10, x name, c at level 100, k at level 200, only parsing).
Notation "'do' c 'in' k" := (bind c (λ _, k))
  (at level 10, c at level 100, k at level 200, only parsing).

Definition storageDir : string := "storage".

(** *** File system calls *)

Definition is_dir (w : World) (p : string) : bool :=
  match fs w !! p with Some Directory => true | _ => false end.

Definition dir_ok (w : World) (d : string) : bool :=
  String.eqb d "." || String.eqb d "/" || is_dir w d.

(** [os.Stat p] answers [err == nil] exactly when the path exists. *)
Definition os_Stat (p : string) : IO bool :=
  let* w := get in ret (bool_decide (is_Some (fs w !! p))).

Definition os_Mkdir (fl : Faults) (p : string) : IO unit :=
  let* w := get in
  if fails fl (OpMkdir p) || bool_decide (is_Some (fs w !! p)) || negb (dir_ok w (parent_dir p))
  then fail (SysError (OpMkdir p))
  else modify (set_fs <[p := Directory]>).

(** [os.Open p]: the handle is the path; the bytes are read at copy time. *)
Definition os_Open (fl : Faults) (op : Op) (p : string) : IO string :=
  let* w := get in
  if fails fl op || negb (bool_decide (is_Some (fs w !! p)))
  then fail (SysError op)
  else ret p.

(** Reading a handle to the end: fails on a directory. *)
Definition read_all (fl : Faults) (op : Op) (h : string) : IO (list byte) :=
  let* w := get in
  match fs w !! h with
  | Some (File data) => if fails fl op then fail (SysError op) else ret data
  | _ => fail (SysError op)
  end.

(** [os.Create p]: creates or truncates a regular file in an existing
    directory. *)
Definition os_Create (fl : Faults) (p : string) : IO string :=
  let* w := get in
  if fails fl (OpCreate p) || is_dir w p || negb (dir_ok w (parent_dir p))
  then fail (SysError (OpCreate p))
  else do modify (set_fs <[p := File []]>) in ret p.

(** [io.Copy dst src] between two files: on failure the bytes copied so far
    stay in [dst]. *)
Definition io_Copy (fl : Faults) (dst src : string) : IO unit :=
  let* w := get in
  match fs w !! src with
  | Some (File data) =>
      if fails fl (OpCopy dst)
      then do modify (set_fs <[dst := File (firstn (written fl dst) data)]>) in
           fail (SysError (OpCopy dst))
      else modify (set_fs <[dst := File data]>)
  | _ => fail (SysError (OpCopy dst))
  end.

(** [os.Remove p] on a regular file. *)
Definition os_Remove (fl : Faults) (p : string) : IO unit :=
  let* w := get in
  match fs w !! p with
  | Some (File _) =>
      if fails fl (OpRemove p) then fail (SysError (OpRemove p))
      else modify (set_fs (delete p))
  | _ => fail (SysError (OpRemove p))
  end.

(** *** Database calls *)

(** Go's [int] on a 64-bit platform and SQLite's INTEGER: two's complement
    on 64 bits. *)
Definition wrap64 (z : Z) : Z := ((z + 2 ^ 63) mod 2 ^ 64 - 2 ^ 63)%Z.

Definition int_add (a b : Z) : Z := wrap64 (a + b).

(** [SELECT version FROM versions WHERE filename = ? ORDER BY version DESC
    LIMIT 1]: the greatest version of the filename, [None] for
    [sql.ErrNoRows]. *)
Definition rows_of (filename : string) (vs : list VersionRecord) : list VersionRecord :=
  filter (λ r, v_filename r = filename) vs.

Definition greatest (zs : list Z) : option Z :=
  match zs with
  | [] => None
  | z :: zs' => Some (fold_left Z.max zs' z)
  end.

Definition select_last_version (filename : string) (vs : list VersionRecord) : option Z :=
  greatest (map v_version (rows_of filename vs)).

Definition insert_action (r : ActionRecord) (w : World) : World :=
  mkWorld (fs w) (actions w ++ [r]) (versions w).

Definition insert_version (r : VersionRecord) (w : World) : World :=
  mkWorld (fs w) (actions w) (versions w ++ [r]).

(** ** The program *)

Definition logAction (fl : Faults) (actionType filename storageID : string) : IO unit :=
  if fails fl (OpInsertAction filename) then fail (SysError (OpInsertAction filename))
  else modify (insert_action (mkAction actionType filename storageID)).

Definition logVersion (fl : Faults) (filename hash : string) : IO unit :=
  let* w := get in
  let* lastVersion :=
    (if fails fl (OpSelectVersion filename) then fail (SysError (OpSelectVersion filename))
     else match select_last_version filename (versions w) with
          | None => ret 0%Z
          | Some v => ret v
          end) in
  if fails fl (OpInsertVersion filename) then fail (SysError (OpInsertVersion filename))
  else modify (insert_version (mkVersion filename (int_add lastVersion 1) hash)).

Definition hashFile (fl : Faults) (filepath : string) : IO string :=
  let* file := wrap "failed to open file" (os_Open fl (OpHashOpen filepath) filepath) in
  let* data := wrap "failed to hash file" (read_all fl (OpHashRead filepath) file) in
  ret (digest data).

Definition storeFile (fl : Faults) (filePath : string) : IO string :=
  let* present := os_Stat storageDir in
  do (if negb present
      then wrap "failed to create storage directory" (os_Mkdir fl storageDir)
      else ret tt) in
  let* srcFile := wrap "failed to open source file" (os_Open fl (OpOpen filePath) filePath) in
  let* hash := wrap "failed to hash file" (hashFile fl filePath) in
  let ext := filepath_Ext filePath in
  let filename := strings_TrimSuffix (filepath_Base filePath) ext in
  let hashedFilename := (hash ++ ext)%string in
  let storagePath := filepath_Join storageDir hashedFilename in
  let* stored := os_Stat storagePath in
  if stored
  then do logAction fl "store_duplicate" (filename ++ ext) hashedFilename in
       ret hashedFilename
  else let* destFile := wrap "failed to create destination file" (os_Create fl storagePath) in
       do wrap "failed to copy file" (io_Copy fl destFile srcFile) in
       do wrap "failed to log action" (logAction fl "store" (filename ++ ext) hashedFilename) in
       do wrap "failed to log version" (logVersion fl (filename ++ ext) hash) in
       ret hashedFilename.

(** *** The walk of [filepath.Walk]

    [filepath.Walk root fn] visits [root], then, when it is a directory, its
    entries in lexical order of their names, each directory before its own
    entries. On full paths this is the lexicographic order of the lists of
    path elements. The names of a directory are read before its entries are
    visited, and the sweep removes nothing but the path it is visiting, so
    the order can be read off the world the walk starts in.

    [filepath.Walk] looks the root up as it is given and names what is below
    it by [Join], that is cleaned. [walk_order] takes the root as a key of the
    world, so it is the walk of the program for a root that is a clean path
    other than ["."] and ["/"], as are the paths of plain names; for a root
    such as ["d/"] or ["."] it is not, and what is stated about the order of
    a walk is stated for plain roots. *)

Fixpoint split_elems (cs cur : list ascii) : list string :=
  match cs with
  | [] => [string_of_list_ascii (rev cur)]
  | c :: cs' =>
      if isPathSeparator c then string_of_list_ascii (rev cur) :: split_elems cs' []
      else split_elems cs' (c :: cur)
  end.

Definition elems (p : string) : list string := split_elems (list_ascii_of_string p) [].

Fixpoint elems_leb (a b : list string) : bool :=
  match a, b with
  | [], _ => true
  | _ :: _, [] => false
  | x :: a', y :: b' =>
      match String.compare x y with
      | Lt => true
      | Gt => false
      | Eq => elems_leb a' b'
      end
  end.

Definition walk_le (p q : string) : Prop := elems_leb (elems p) (elems q) = true.

Global Instance walk_le_dec p q : Decision (walk_le p q).
Proof. unfold walk_le. apply _. Defined.

Definition under (root p : string) : bool :=
  String.eqb p root || String.prefix (root ++ "/") p.

Definition walk_order (root : string) (w : World) : list string :=
  match fs w !! root with
  | Some Directory =>
      merge_sort walk_le (filter (λ p, under root p = true) (elements (dom (fs w))))
  | _ => [root]
  end.

Record FileInfo := mkInfo { IsDir : bool }.

Definition info_of (n : Node) : FileInfo :=
  mkInfo (match n with Directory => true | File _ => false end).

(** One visit of a walk: [lstat] the path (or read the directory) and call
    [fn] with the outcome. [S] is the state the callback closes over. *)
Definition walk_visit {S} (fl : Faults)
    (fn : S → string → FileInfo → option error → IO S) (s : S) (path : string) : IO S :=
  let* w := get in
  match fs w !! path with
  | Some n =>
      if fails fl (OpWalk path) then fn s path (mkInfo false) (Some (SysError (OpWalk path)))
      else fn s path (info_of n) None
  | None => fn s path (mkInfo false) (Some (SysError (OpWalk path)))
  end.

(** The visits in order; the walk stops at the first error [fn] returns. *)
Fixpoint walk_entries {S} (fl : Faults) (entries : list string)
    (fn : S → string → FileInfo → option error → IO S) (s : S) : IO S :=
  match entries with
  | [] => ret s
  | path :: rest =>
      let* s' := walk_visit fl fn s path in
      walk_entries fl rest fn s'
  end.

Definition filepath_Walk {S} (fl : Faults) (root : string)
    (fn : S → string → FileInfo → option error → IO S) (s : S) : IO S :=
  let* w := get in walk_entries fl (walk_order root w) fn s.

(** *** [deduplicateFiles]

    The callback handed to [filepath.Walk]; [hashes] is the map the closure
    shares, threaded through the visits. The mutex is taken and released
    within one visit and the visits run one after the other, so it does not
    show in the model. *)
Definition dedupVisit (fl : Faults) (hashes : gmap string string)
    (path : string) (info : FileInfo) (err : option error) : IO (gmap string string) :=
  match err with
  | Some e => fail e
  | None =>
      if negb (IsDir info)
      then let* fileHash := hashFile fl path in
           match hashes !! fileHash with
           | Some originalPath =>
               do os_Remove fl path in
               do logAction fl "deduplicate" path EmptyString in
               ret hashes
           | None => ret (<[fileHash := path]> hashes)
           end
      else ret hashes
  end.

(** The body of the goroutine up to the two sends: the whole walk. *)
Definition dedupWalk (fl : Faults) (directory : string) : IO (gmap string string) :=
  filepath_Walk fl directory (dedupVisit fl) ∅.

(** The caller and the goroutine it starts, with the two channels. The
    caller goes straight to [select]; the goroutine walks, sends the error
    (if any) on the buffered [errCh], then sends on the unbuffered [done]. *)
Inductive MainPC :=
| MStart                       (* has not reached [select] yet *)
| MParked                      (* waits in [select], no case ready *)
| MReturned (r : option error).

Inductive WorkerPC :=
| WWalk                        (* about to run [filepath.Walk] *)
| WSendErr (e : error)         (* about to run [errCh <- err] *)
| WSendDone                    (* about to run [done <- true] *)
| WBlocked                     (* waits in [done <- true] for a receiver *)
| WExit.

Record Config := mkConfig {
  world : World;
  mainpc : MainPC;
  workerpc : WorkerPC;
  errCh : option error
}.

(** Which case [select] takes when both are ready (the runtime picks at
    random). *)
Inductive Pick := PickErr | PickDone.

Inductive Choice :=
| RunMain (pick : Pick)
| RunWorker.

Definition worker_step (fl : Faults) (directory : string) (c : Config) : Config :=
  match workerpc c with
  | WWalk =>
      match dedupWalk fl directory (world c) with
      | (w', Ok _) => mkConfig w' (mainpc c) WSendDone (errCh c)
      | (w', Err e) => mkConfig w' (mainpc c) (WSendErr e) (errCh c)
      end
  | WSendErr e =>
      match mainpc c with
      | MParked => mkConfig (world c) (MReturned (Some e)) WSendDone (errCh c)
      | _ => mkConfig (world c) (mainpc c) WSendDone (Some e)
      end
  | WSendDone =>
      match mainpc c with
      | MParked => mkConfig (world c) (MReturned None) WExit (errCh c)
      | _ => mkConfig (world c) (mainpc c) WBlocked (errCh c)
      end
  | WBlocked | WExit => c
  end.

Definition main_step (pick : Pick) (c : Config) : Config :=
  match mainpc c with
  | MStart =>
      match errCh c, workerpc c with
      | Some e, WBlocked =>
          match pick with
          | PickErr => mkConfig (world c) (MReturned (Some e)) WBlocked None
          | PickDone => mkConfig (world c) (MReturned None) WExit (Some e)
          end
      | Some e, _ => mkConfig (world c) (MReturned (Some e)) (workerpc c) None
      | None, WBlocked => mkConfig (world c) (MReturned None) WExit None
      | None, _ => mkConfig (world c) MParked (workerpc c) None
      end
  | MParked | MReturned _ => c
  end.

Definition sched_step (fl : Faults) (directory : string) (c : Config) (ch : Choice) : Config :=
  match ch with
  | RunMain pick => main_step pick c
  | RunWorker => worker_step fl directory c
  end.

(** [deduplicateFiles directory db] under a schedule of the two goroutines. *)
Definition deduplicateFiles (sched : list Choice) (fl : Faults) (directory : string)
    (w : World) : Config :=
  fold_left (sched_step fl directory) sched (mkConfig w MStart WWalk None).

(** The schedule one expects: the caller reaches [select] and waits, then the
    goroutine runs to its end. *)
Definition caller_waits : list Choice :=
  [RunMain PickErr; RunWorker; RunWorker; RunWorker].

(** The goroutine runs to its end before the caller reaches [select]. *)
Definition goroutine_first (pick : Pick) : list Choice :=
  [RunWorker; RunWorker; RunWorker; RunMain pick].

(** *** Two [logVersion] calls on one database

    [logVersion] issues two statements, the SELECT and the INSERT; SQLite runs
    each statement atomically, nothing ties the two together. *)
Inductive LVpc :=
| LVSelect
| LVInsert (lastVersion : Z)
| LVDone (r : option error).

Definition logVersion_step (fl : Faults) (filename hash : string) (pc : LVpc) (w : World)
    : LVpc * World :=
  match pc with
  | LVSelect =>
      if fails fl (OpSelectVersion filename)
      then (LVDone (Some (SysError (OpSelectVersion filename))), w)
      else match select_last_version filename (versions w) with
           | None => (LVInsert 0, w)
           | Some v => (LVInsert v, w)
           end
  | LVInsert lastVersion =>
      if fails fl (OpInsertVersion filename)
      then (LVDone (Some (SysError (OpInsertVersion filename))), w)
      else (LVDone None, insert_version (mkVersion filename (int_add lastVersion 1) hash) w)
  | LVDone r => (LVDone r, w)
  end.

(** Two callers, [false] and [true]; the schedule names who runs the next
    statement. *)
Record LVcall := mkLVcall { lv_filename : string; lv_hash : string }.

Definition lv_pair_step (fl : Faults) (a b : LVcall) (st : LVpc * LVpc * World) (who : bool)
    : LVpc * LVpc * World :=
  let '(pa, pb, w) := st in
  if who
  then let '(pb', w') := logVersion_step fl (lv_filename b) (lv_hash b) pb w in (pa, pb', w')
  else let '(pa', w') := logVersion_step fl (lv_filename a) (lv_hash a) pa w in (pa', pb, w').

Definition logVersion_concurrent (sched : list bool) (fl : Faults) (a b : LVcall) (w : World)
    : LVpc * LVpc * World :=
  fold_left (lv_pair_step fl a b) sched (LVSelect, LVSelect, w).

(** *** The version sequence of a filename *)

Definition version_seq (filename : string) (vs : list VersionRecord) : list Z :=
  map v_version (rows_of filename vs).

Definition counting (n : nat) : list Z := map Z.of_nat (seq 1 n).

Definition ledger_ok (vs : list VersionRecord) : Prop :=
  ∀ filename, version_seq filename vs = counting (length (rows_of filename vs)).

(** *** Sequences of calls, one after the other *)
Inductive Call :=
| CallStore (fl : Faults) (filePath : string)
| CallSweep (sched : list Choice) (fl : Faults) (directory : string).

Definition run_call (w : World) (c : Call) : World :=
  match c with
  | CallStore fl filePath => fst (storeFile fl filePath w)
  | CallSweep sched fl directory => world (deduplicateFiles sched fl directory w)
  end.

Definition run_calls (cs : list Call) (w : World) : World := fold_left run_call cs w.

Definition is_file (w : World) (p : string) : bool :=
  match fs w !! p with Some (File _) => true | _ => false end.

(** The regular files a walk of [directory] meets, in walk order. *)
Definition regular_files (directory : string) (w : World) : list string :=
  filter (λ p, is_file w p = true) (walk_order directory w).

(** ** The ways a store can end *)

Definition no_separator (name : string) : Prop :=
  Forall (λ c, isPathSeparator c = false) (list_ascii_of_string name).

Definition is_hex (c : ascii) : bool :=
  match c with
  | "0" | "1" | "2" | "3" | "4" | "5" | "6" | "7" | "8" | "9"
  | "a" | "b" | "c" | "d" | "e" | "f" => true
  | _ => false
  end%char.

(** The version [logVersion] gives the next row of a filename. *)
Definition next_version (filename : string) (vs : list VersionRecord) : Z :=
  int_add (default 0%Z (select_last_version filename vs)) 1.

(** The storage key and the blob path of content [data] stored from
    [filePath]. *)
Definition storage_key (data : list byte) (filePath : string) : string :=
  (digest data ++ filepath_Ext filePath)%string.

Definition blob_path (data : list byte) (filePath : string) : string :=
  filepath_Join storageDir (storage_key data filePath).

(** The storage root is there: it was, or [os.Mkdir] made it. *)
Definition prepared (fl : Faults) (w w1 : World) : Prop :=
  (is_Some (fs w !! storageDir) ∧ w1 = w) ∨
  (fs w !! storageDir = None ∧ fails fl (OpMkdir storageDir) = false ∧
   w1 = set_fs <[storageDir := Directory]> w).

(** The source was opened and hashed: it is a regular file holding [data]. *)
Definition sourced (fl : Faults) (filePath : string) (w w1 : World) (data : list byte) : Prop :=
  prepared fl w w1 ∧
  fails fl (OpOpen filePath) = false ∧
  fs w1 !! filePath = Some (File data) ∧
  fails fl (OpHashOpen filePath) = false ∧
  fails fl (OpHashRead filePath) = false.

(** The two appends after the blob is written. *)
Inductive store_logged (fl : Faults) (filePath : string) (data : list byte) (w : World)
  : World → result string → Prop :=
| SL_action_fails :
    fails fl (OpInsertAction (filepath_Base filePath)) = true →
    store_logged fl filePath data w w
      (Err (Errorf "failed to log action" (SysError (OpInsertAction (filepath_Base filePath)))))
| SL_select_fails :
    fails fl (OpInsertAction (filepath_Base filePath)) = false →
    fails fl (OpSelectVersion (filepath_Base filePath)) = true →
    store_logged fl filePath data w
      (insert_action (mkAction "store" (filepath_Base filePath) (storage_key data filePath)) w)
      (Err (Errorf "failed to log version" (SysError (OpSelectVersion (filepath_Base filePath)))))
| SL_insert_fails :
    fails fl (OpInsertAction (filepath_Base filePath)) = false →
    fails fl (OpSelectVersion (filepath_Base filePath)) = false →
    fails fl (OpInsertVersion (filepath_Base filePath)) = true →
    store_logged fl filePath data w
      (insert_action (mkAction "store" (filepath_Base filePath) (storage_key data filePath)) w)
      (Err (Errorf "failed to log version" (SysError (OpInsertVersion (filepath_Base filePath)))))
| SL_logged :
    fails fl (OpInsertAction (filepath_Base filePath)) = false →
    fails fl (OpSelectVersion (filepath_Base filePath)) = false →
    fails fl (OpInsertVersion (filepath_Base filePath)) = false →
    store_logged fl filePath data w
      (insert_version
         (mkVersion (filepath_Base filePath)
            (next_version (filepath_Base filePath) (versions w)) (digest data))
         (insert_action
            (mkAction "store" (filepath_Base filePath) (storage_key data filePath)) w))
      (Ok (storage_key data filePath)).

(** Every way [storeFile fl filePath] can end from world [w]. *)
Inductive store_outcome (fl : Faults) (filePath : string) (w : World)
  : World → result string → Prop :=
| SO_mkdir :
    fs w !! storageDir = None →
    fails fl (OpMkdir storageDir) = true →
    store_outcome fl filePath w w
      (Err (Errorf "failed to create storage directory" (SysError (OpMkdir storageDir))))
| SO_open w1 :
    prepared fl w w1 →
    fails fl (OpOpen filePath) = true ∨ fs w1 !! filePath = None →
    store_outcome fl filePath w w1
      (Err (Errorf "failed to open source file" (SysError (OpOpen filePath))))
| SO_hash w1 e :
    prepared fl w w1 →
    fails fl (OpOpen filePath) = false →
    is_Some (fs w1 !! filePath) →
    hashFile fl filePath w1 = (w1, Err e) →
    store_outcome fl filePath w w1 (Err (Errorf "failed to hash file" e))
| SO_duplicate_unlogged w1 data :
    sourced fl filePath w w1 data →
    is_Some (fs w1 !! blob_path data filePath) →
    fails fl (OpInsertAction (filepath_Base filePath)) = true →
    store_outcome fl filePath w w1 (Err (SysError (OpInsertAction (filepath_Base filePath))))
| SO_duplicate w1 data :
    sourced fl filePath w w1 data →
    is_Some (fs w1 !! blob_path data filePath) →
    fails fl (OpInsertAction (filepath_Base filePath)) = false →
    store_outcome fl filePath w
      (insert_action
         (mkAction "store_duplicate" (filepath_Base filePath) (storage_key data filePath)) w1)
      (Ok (storage_key data filePath))
| SO_create w1 data :
    sourced fl filePath w w1 data →
    fs w1 !! blob_path data filePath = None →
    fails fl (OpCreate (blob_path data filePath)) = true ∨ is_dir w1 storageDir = false →
    store_outcome fl filePath w w1
      (Err (Errorf "failed to create destination file"
              (SysError (OpCreate (blob_path data filePath)))))
| SO_copy w1 data :
    sourced fl filePath w w1 data →
    fs w1 !! blob_path data filePath = None →
    fails fl (OpCreate (blob_path data filePath)) = false →
    is_dir w1 storageDir = true →
    fails fl (OpCopy (blob_path data filePath)) = true →
    store_outcome fl filePath w
      (set_fs <[blob_path data filePath :=
                  File (firstn (written fl (blob_path data filePath)) data)]> w1)
      (Err (Errorf "failed to copy file" (SysError (OpCopy (blob_path data filePath)))))
| SO_written w1 data w2 r :
    sourced fl filePath w w1 data →
    fs w1 !! blob_path data filePath = None →
    fails fl (OpCreate (blob_path data filePath)) = false →
    is_dir w1 storageDir = true →
    fails fl (OpCopy (blob_path data filePath)) = false →
    store_logged fl filePath data (set_fs <[blob_path data filePath := File data]> w1) w2 r →
    store_outcome fl filePath w w2 r.

(** The source of a store cannot be opened, or cannot be hashed. *)
Definition source_unreadable (fl : Faults) (filePath : string) (w : World) : Prop :=
  fails fl (OpOpen filePath) = true ∨
  fails fl (OpHashOpen filePath) = true ∨
  fails fl (OpHashRead filePath) = true ∨
  ∀ data, fs w !! filePath ≠ Some (File data).

(** The source of a store is a regular file holding [data], and nothing
    fails before the store looks for the blob. *)
Definition source_readable (fl : Faults) (filePath : string) (w : World)
    (data : list byte) : Prop :=
  fs w !! filePath = Some (File data) ∧
  fails fl (OpOpen filePath) = false ∧
  fails fl (OpHashOpen filePath) = false ∧
  fails fl (OpHashRead filePath) = false ∧
  (fs w !! storageDir = None → fails fl (OpMkdir storageDir) = false).

(** ** Worlds and oracles used as examples *)

Definition example_world : World :=
  mkWorld {[ "docs/a.txt"%string := File (bytes_of_string "abc");
             "docs"%string := Directory ]} [] [].

(** The copy into the blob breaks after one byte. *)
Definition copy_breaks : Faults :=
  mkFaults (λ op, match op with OpCopy _ => true | _ => false end) (λ _, 1).

(** A directory with three copies of the same bytes and, before the last
    copy in walk order, a file that cannot be read. *)
Definition sweep_world : World :=
  mkWorld {[ "d"%string := Directory;
             "d/a.txt"%string := File (bytes_of_string "abc");
             "d/b.txt"%string := File (bytes_of_string "abc");
             "d/c.txt"%string := File (bytes_of_string "xyz");
             "d/d.txt"%string := File (bytes_of_string "abc") ]} [] [].

Definition c_unreadable : Faults :=
  mkFaults (λ op, match op with
                  | OpHashRead p => String.eqb p "d/c.txt"
                  | _ => false
                  end) (λ _, 0).

(** A directory with the same bytes under two names. *)
Definition twins_world : World :=
  mkWorld {[ "d"%string := Directory;
             "d/a.txt"%string := File (bytes_of_string "abc");
             "d/b.txt"%string := File (bytes_of_string "abc") ]} [] [].

(** Two sources with one base name and different bytes. *)
Definition namesakes_world : World :=
  mkWorld {[ "x"%string := Directory;
             "x/f.txt"%string := File (bytes_of_string "abc");
             "y"%string := Directory;
             "y/f.txt"%string := File (bytes_of_string "xyz") ]} [] [].

(** ** What the sweep proofs speak about *)

(** No two regular files among [entries] have the same digest. *)
Definition distinct_digests (w : World) (entries : list string) : Prop :=
  ∀ p q dp dq,
    p ∈ entries → q ∈ entries →
    fs w !! p = Some (File dp) → fs w !! q = Some (File dq) →
    digest dp = digest dq → p = q.

(** Every regular file among [seen] is the one the index keeps for its
    digest. *)
Definition indexed (w : World) (hashes : gmap string string) (seen : list string) : Prop :=
  ∀ p data, p ∈ seen → fs w !! p = Some (File data) → hashes !! digest data = Some p.

(** What holds of every configuration the two goroutines can reach from the
    call [deduplicateFiles directory] in world [w]. *)
Definition sweep_inv (fl : Faults) (directory : string) (w : World) (c : Config) : Prop :=
  (workerpc c = WWalk ∧ world c = w ∧ errCh c = None ∧ ∀ r, mainpc c ≠ MReturned r) ∨
  (workerpc c ≠ WWalk ∧ world c = fst (dedupWalk fl directory w) ∧
   (∀ e, workerpc c = WSendErr e → snd (dedupWalk fl directory w) = Err e) ∧
   (∀ e, errCh c = Some e → snd (dedupWalk fl directory w) = Err e) ∧
   (∀ e, mainpc c = MReturned (Some e) → snd (dedupWalk fl directory w) = Err e)).

(** The key a store answered, empty when it failed. *)
Definition snd_key (r : World * result string) : string :=
  match snd r with
  | Ok key => key
  | Err _ => EmptyString
  end.

(** The INSERT into [versions] fails. *)
Definition versions_locked : Faults :=
  mkFaults (λ op, match op with OpInsertVersion _ => true | _ => false end) (λ _, 0).

(** The same bytes under two extensions. *)
Definition renamed_world : World :=
  mkWorld {[ "x"%string := Directory;
             "x/f.txt"%string := File (bytes_of_string "abc");
             "x/f.md"%string := File (bytes_of_string "abc") ]} [] [].

(** A ledger that did not come from [logVersion] alone: versions 7 and 3 of
    one filename, in that order. *)
Definition gapped_ledger : World :=
  mkWorld ∅ []
    [mkVersion "f.txt" 7 "h1"; mkVersion "g.txt" 1 "h0"; mkVersion "f.txt" 3 "h2"].

(** The row a removal is logged with. *)
Definition removal (path : string) : ActionRecord := mkAction "deduplicate" path EmptyString.

(** [p] was a regular file in [w] and is gone in [w']. *)
Definition removed (w w' : World) (p : string) : bool :=
  is_file w p && bool_decide (fs w' !! p = None).

(** Every regular file of [w] has a file with the same digest in [w']. *)
Definition content_kept (w w' : World) : Prop :=
  ∀ p data, fs w !! p = Some (File data) →
    ∃ q data', fs w' !! q = Some (File data') ∧ digest data' = digest data.

(** The index points at files that are there and have the digest they are
    indexed under, and every regular file of [w0] is still in [w] or has its
    digest in the index. *)
Definition index_covers (w0 w : World) (hashes : gmap string string) (seen : list string)
    : Prop :=
  (∀ h q, hashes !! h = Some q →
     q ∈ seen ∧ ∃ d, fs w !! q = Some (File d) ∧ digest d = h) ∧
  (∀ p data, fs w0 !! p = Some (File data) →
     fs w !! p = Some (File data) ∨ ∃ q, hashes !! digest data = Some q).

(** The walk ended with the error of the INSERT that should have logged the
    removal of [q]. *)
Definition log_failed {A} (r : result A) (q : string) : bool :=
  match r with
  | Err (SysError (OpInsertAction q')) => String.eqb q' q
  | _ => false
  end.

(** The log is down for one path. *)
Definition log_down_for (p : string) : Faults :=
  mkFaults (λ op, match op with OpInsertAction q => String.eqb q p | _ => false end) (λ _, 0).

(** How the two goroutines stand to each other in every configuration a
    schedule can reach. *)
Definition handshake (c : Config) : Prop :=
  (∀ e, mainpc c = MReturned (Some e) → workerpc c = WSendDone ∨ workerpc c = WBlocked) ∧
  (∀ e, errCh c = Some e → mainpc c = MStart →
     workerpc c = WSendDone ∨ workerpc c = WBlocked) ∧
  (mainpc c = MParked →
     errCh c = None ∧
     (workerpc c = WWalk ∨ (∃ e, workerpc c = WSendErr e) ∨ workerpc c = WSendDone)) ∧
  (workerpc c = WExit → mainpc c = MReturned None).

(** ** [filepath.Clean], [filepath.Join], [filepath.Dir] and [os.MkdirAll]

    The rest of the program joins paths that come from the command line and
    from archive headers, so it needs [Join] with the [Clean] it ends in.
    [Clean] works on the elements between separators: it drops empty and
    ["."] elements, lets [".."] take back the element before it, drops a
    [".."] that would climb above the root, and answers ["."] for an empty
    result. *)

Definition clean_step (rooted : bool) (stack : list string) (e : string) : list string :=
  if String.eqb e EmptyString || String.eqb e "." then stack
  else if String.eqb e ".." then
    match stack with
    | top :: below => if String.eqb top ".." then e :: stack else below
    | [] => if rooted then [] else [e]
    end
  else e :: stack.

Fixpoint join_elems (es : list string) : string :=
  match es with
  | [] => EmptyString
  | [e] => e
  | e :: es' => (e ++ "/" ++ join_elems es')%string
  end.

Definition is_rooted (path : string) : bool :=
  match path with
  | String c _ => isPathSeparator c
  | EmptyString => false
  end.

Definition filepath_Clean (path : string) : string :=
  let kept := rev (fold_left (clean_step (is_rooted path)) (elems path) []) in
  if is_rooted path then ("/" ++ join_elems kept)%string
  else match kept with
       | [] => "."
       | _ => join_elems kept
       end%string.

(** [filepath.Join a b]: empty elements are skipped, the rest is joined by a
    separator and cleaned. *)
Definition filepath_Join2 (a b : string) : string :=
  if negb (String.eqb a EmptyString) then filepath_Clean (a ++ "/" ++ b)
  else if negb (String.eqb b EmptyString) then filepath_Clean b
  else EmptyString.

(** [filepath.Dir]: the path up to and with its last separator, cleaned. *)
Fixpoint drop_last_elem (rs : list ascii) : list ascii :=
  match rs with
  | [] => []
  | c :: rs' => if isPathSeparator c then rs else drop_last_elem rs'
  end.

Definition filepath_Dir (path : string) : string :=
  filepath_Clean
    (string_of_list_ascii (rev (drop_last_elem (rev (list_ascii_of_string path))))).

(** The parent [os.MkdirAll] creates first: the path without its trailing
    separators and its last element, when that leaves more than the root. *)
Definition mkdirall_parent (path : string) : option string :=
  match drop_last_elem (strip_seps (rev (list_ascii_of_string path))) with
  | _ :: (_ :: _) as above => Some (string_of_list_ascii (rev above))
  | _ => None
  end.

(** What [os.Stat] finds: the working directory and the root are always
    there, the empty path never is. *)
Definition stat (w : World) (p : string) : option Node :=
  if String.eqb p "." || String.eqb p "/" then Some Directory
  else if String.eqb p EmptyString then None
  else fs w !! p.

Definition is_directory (w : World) (p : string) : bool :=
  match stat w p with
  | Some Directory => true
  | _ => false
  end.

(** [os.Create] on any path: the path names something, does not end in a
    separator, is not a directory, and lies in a directory. *)
Definition creatable (w : World) (p : string) : bool :=
  negb (String.eqb p EmptyString) && negb (strings_HasSuffix p "/")
  && negb (is_directory w p) && dir_ok w (parent_dir p).

Definition os_Create_any (fl : Faults) (p : string) : IO string :=
  let* w := get in
  if fails fl (OpCreate p) || negb (creatable w p)
  then fail (SysError (OpCreate p))
  else do modify (set_fs <[p := File []]>) in ret p.

(** [os.Open] on any path. *)
Definition os_Open_any (fl : Faults) (op : Op) (p : string) : IO string :=
  let* w := get in
  if fails fl op || negb (bool_decide (is_Some (stat w p)))
  then fail (SysError op)
  else ret p.

(** [os.Mkdir] on any path. *)
Definition os_Mkdir_any (fl : Faults) (p : string) : IO unit :=
  let* w := get in
  if fails fl (OpMkdir p) || String.eqb p EmptyString || bool_decide (is_Some (stat w p))
     || negb (dir_ok w (parent_dir p))
  then fail (SysError (OpMkdir p))
  else modify (set_fs <[p := Directory]>).

(** [os.MkdirAll path]: nothing to do on a directory, an error on a file,
    otherwise the parent first and then the path itself. [fuel] bounds the
    climb; the length of the path is enough. *)
Fixpoint mkdir_all (fuel : nat) (fl : Faults) (path : string) : IO unit :=
  let* w := get in
  match stat w path with
  | Some Directory => ret tt
  | Some (File _) => fail (SysError (OpMkdir path))
  | None =>
      match fuel with
      | O => fail (SysError (OpMkdir path))
      | S fuel' =>
          do (match mkdirall_parent path with
              | Some parent => mkdir_all fuel' fl parent
              | None => ret tt
              end) in
          os_Mkdir_any fl path
      end
  end.

Definition os_MkdirAll (fl : Faults) (path : string) : IO unit :=
  mkdir_all (String.length path) fl path.

(** [filepath.Rel base targ]: both cleaned, the common leading elements
    dropped, one [".."] for every element left of the base. [None] is the
    error of [Rel]. *)
Fixpoint strip_common (b t : list string) : list string * list string :=
  match b, t with
  | x :: b', y :: t' => if String.eqb x y then strip_common b' t' else (b, t)
  | _, _ => (b, t)
  end.

Definition rel_elems (p : string) : list string :=
  if String.eqb p EmptyString then []
  else if String.eqb p "/" then [EmptyString]
  else elems p.

Definition filepath_Rel (basepath targpath : string) : option string :=
  let base := filepath_Clean basepath in
  let targ := filepath_Clean targpath in
  if String.eqb targ base then Some "."%string
  else
    let base := if String.eqb base "." then EmptyString else base in
    if negb (Bool.eqb (is_rooted base) (is_rooted targ)) then None
    else
      let '(br, tr) := strip_common (rel_elems base) (rel_elems targ) in
      match br with
      | e :: _ =>
          if String.eqb e ".." then None
          else Some (join_elems (repeat ".."%string (length br) ++ tr))
      | [] => Some (join_elems tr)
      end.

(** ** The codecs

    The program hands its bytes to [compress/gzip] and [archive/tar]. What it
    relies on is their interface: a gzip stream carries a name and a body, a
    tar stream inside it a list of entries. The byte formats are those of the
    libraries; the model takes them as the functions of an interface. *)

Class Gzip := {
  (** the header can carry the name (Latin-1, no NUL) *)
  gz_name_ok : string → bool;
  gz_encode : string → list byte → list byte;
  (** [None]: no valid header. Otherwise the name of the header, the bytes
      that come out, and whether the stream ends as it should. *)
  gz_decode : list byte → option (string * list byte * bool)
}.

Definition gzip_sound (G : Gzip) : Prop :=
  ∀ name data, gz_name_ok name = true → gz_decode (gz_encode name data) = Some (name, data, true).

(** The ten bytes [gzip.Writer] has written when it finds that it cannot
    write the name: magic, deflate, the name flag, no time, no extra flags,
    unknown system. *)
Definition gzip_header_stub : list byte :=
  [x1f; x8b; x08; x08; x00; x00; x00; x00; x00; xff].

Inductive TarType :=
| TypeReg
| TypeDir
| TypeOther (flag : byte).

Record TarEntry := mkEntry {
  t_name : string;
  t_type : TarType;
  t_data : list byte
}.

Class TarGz := {
  tgz_encode : list TarEntry → list byte;
  (** [None]: no valid gzip header. Otherwise the entries that can be read
      and whether the archive ends as it should after them. *)
  tgz_decode : list byte → option (list TarEntry * bool)
}.

Definition targz_sound (T : TarGz) : Prop :=
  ∀ entries, tgz_decode (tgz_encode entries) = Some (entries, true).

(** Where the flush of a deferred [Close] breaks off, by output path; the
    program drops the error of these calls. *)
Record Flush := mkFlush { flush_cut : string → option nat }.

Definition flushes : Flush := mkFlush (λ _, None).

Definition close_output (xl : Flush) (path : string) : IO unit :=
  let* w := get in
  match flush_cut xl path, fs w !! path with
  | Some n, Some (File data) => modify (set_fs <[path := File (firstn n data)]>)
  | _, _ => ret tt
  end.

(** ** The rest of the program *)

Definition compressedDir : string := "compressed".

(** [io.Copy(gzipWriter, inFile)] together with the deferred
    [gzipWriter.Close()]. The writer puts out its header with the first
    bytes, or in [Close] when there were none; [Close] ends the stream unless
    a write failed before, and its own error is dropped. So: a name the
    header cannot carry stops the writer after the ten bytes before it (an
    error of [io.Copy] only if there was something to copy); a write that
    fails leaves the bytes written so far; a source that cannot be read
    leaves the stream of an empty body. *)
Definition gzip_copy {G : Gzip} (fl : Faults) (xl : Flush) (name dst src : string) : IO unit :=
  let* w := get in
  if negb (gz_name_ok name)
  then do modify (set_fs <[dst := File gzip_header_stub]>) in
       match fs w !! src with
       | Some (File []) => ret tt
       | _ => fail (SysError (OpCopy dst))
       end
  else
    match fs w !! src with
    | Some (File data) =>
        if fails fl (OpCopy dst)
        then do modify
                  (set_fs <[dst := File (firstn (written fl dst) (gz_encode name data))]>) in
             fail (SysError (OpCopy dst))
        else do modify (set_fs <[dst := File (gz_encode name data)]>) in
             close_output xl dst
    | _ =>
        do modify (set_fs <[dst := File (gz_encode name [])]>) in
        do close_output xl dst in
        fail (SysError (OpCopy dst))
    end.

Definition compressFile {G : Gzip} (fl : Faults) (xl : Flush) (inputFile outputDir : string)
    : IO unit :=
  do wrap "failed to create output directory" (os_MkdirAll fl outputDir) in
  let* inFile := wrap "failed to open input file" (os_Open_any fl (OpOpen inputFile) inputFile) in
  let outputFile := filepath_Join2 outputDir (filepath_Base inputFile ++ ".gz") in
  let* outFile := wrap "failed to create output file" (os_Create_any fl outputFile) in
  do wrap "failed to write compressed data"
       (gzip_copy fl xl (filepath_Base inputFile) outFile inFile) in
  ret tt.

(** [gzip.NewReader]: the header is read when the reader is made. The model
    takes all the bytes at that moment, where the program goes on reading
    while it writes: a call that writes over the archive it reads is outside
    the model. *)
Definition gzip_NewReader {G : Gzip} (fl : Faults) (src : string)
    : IO (string * list byte * bool) :=
  let* w := get in
  match fs w !! src with
  | Some (File bytes) =>
      match gz_decode bytes with
      | Some r => ret r
      | None => fail (SysError (OpHashRead src))
      end
  | _ => fail (SysError (OpHashRead src))
  end.

(** Writing what a reader gives into a file that was just created. *)
Definition write_out (fl : Faults) (dst : string) (data : list byte) (intact : bool) : IO unit :=
  if fails fl (OpCopy dst)
  then do modify (set_fs <[dst := File (firstn (written fl dst) data)]>) in
       fail (SysError (OpCopy dst))
  else do modify (set_fs <[dst := File data]>) in
       if intact then ret tt else fail (SysError (OpCopy dst)).

Definition decompressFile {G : Gzip} (fl : Faults) (inputFile outputDir : string) : IO unit :=
  do wrap "failed to create output directory" (os_MkdirAll fl outputDir) in
  let* inFile := wrap "failed to open input file" (os_Open_any fl (OpOpen inputFile) inputFile) in
  let* gzipReader := wrap "failed to create gzip reader" (gzip_NewReader fl inFile) in
  let '(name, data, intact) := gzipReader in
  let outputFile := filepath_Join2 outputDir name in
  if String.eqb outputFile EmptyString
  then fail (Errorf "gzip header does not contain the original file name"
               (SysError (OpCreate outputFile)))
  else
    let* outFile := wrap "failed to create output file" (os_Create_any fl outputFile) in
    wrap "failed to write decompressed data" (write_out fl outFile data intact).

(** The deferred closes of [backup] end the archive when the function
    returns, also with an error, unless a write failed before. [closing] is a
    step of the callback after whose error the closes still write. *)
Definition closing {A} (xl : Flush) (output : string) (c : IO A) : IO A :=
  λ w, match c w with
       | (w', Ok a) => (w', Ok a)
       | (w', Err e) => (fst (close_output xl output w'), Err e)
       end.

(** The callback of the walk in [backup]. The archive written so far is kept
    in the output file, as the closes would leave it. *)
Definition backupVisit {T : TarGz} (fl : Faults) (xl : Flush) (directory output : string)
    (entries : list TarEntry) (path : string) (info : FileInfo) (err : option error)
    : IO (list TarEntry) :=
  match err with
  | Some e => closing xl output (fail (Errorf "error accessing file" e))
  | None =>
      if IsDir info then ret entries
      else
        let* file := closing xl output
                       (wrap "failed to open file" (os_Open_any fl (OpOpen path) path)) in
        match filepath_Rel directory path with
        | None =>
            closing xl output
              (fail (Errorf "failed to calculate relative path" (SysError (OpWalk path))))
        | Some relativePath =>
            let* w := get in
            match fs w !! file with
            | Some (File data) =>
                let entries' := entries ++ [mkEntry relativePath TypeReg data] in
                if fails fl (OpCopy path)
                then do modify
                          (set_fs <[output :=
                                      File (firstn (written fl output) (tgz_encode entries'))]>) in
                     fail (Errorf "failed to write file to tar archive" (SysError (OpCopy path)))
                else do modify (set_fs <[output := File (tgz_encode entries')]>) in
                     ret entries'
            | _ => fail (Errorf "failed to write file to tar archive" (SysError (OpCopy path)))
            end
        end
  end.

Definition backup {T : TarGz} (fl : Faults) (xl : Flush) (directory output : string) : IO unit :=
  let* outFile := wrap "failed to create output file" (os_Create_any fl output) in
  do modify (set_fs <[outFile := File (tgz_encode [])]>) in
  do wrap "failed to create backup"
       (filepath_Walk fl directory (backupVisit fl xl directory outFile) []) in
  close_output xl outFile.

(** One turn of the loop of [restore]; the mode bits of the header play no
    part in the model. *)
Definition restoreEntry (fl : Faults) (targetDir : string) (header : TarEntry) : IO unit :=
  let targetPath := filepath_Join2 targetDir (t_name header) in
  match t_type header with
  | TypeDir => wrap "failed to create directory" (os_MkdirAll fl targetPath)
  | TypeReg =>
      do wrap "failed to create directory for file"
           (os_MkdirAll fl (filepath_Dir targetPath)) in
      let* outFile := wrap "failed to create file" (os_Create_any fl targetPath) in
      wrap "failed to extract file" (write_out fl outFile (t_data header) true)
  | TypeOther _ => fail (Errorf "unsupported header type" (SysError (OpCreate targetPath)))
  end.

Fixpoint restoreEntries (fl : Faults) (targetDir : string) (headers : list TarEntry)
    : IO unit :=
  match headers with
  | [] => ret tt
  | header :: rest =>
      do restoreEntry fl targetDir header in restoreEntries fl targetDir rest
  end.

(** [gzip.NewReader] and [tar.NewReader] on the archive: the entries that
    the loop of [restore] will get from [Next], and whether the archive ends
    as it should after them. As for [gzip_NewReader], the bytes are taken when
    the reader is made. *)
Definition tar_NewReader {T : TarGz} (fl : Faults) (src : string)
    : IO (list TarEntry * bool) :=
  let* w := get in
  match fs w !! src with
  | Some (File bytes) =>
      match tgz_decode bytes with
      | Some r => ret r
      | None => fail (SysError (OpHashRead src))
      end
  | _ => fail (SysError (OpHashRead src))
  end.

Definition restore {T : TarGz} (fl : Faults) (archive targetDir : string) : IO unit :=
  let* inFile := wrap "failed to open archive file" (os_Open_any fl (OpOpen archive) archive) in
  let* tarReader := wrap "failed to create gzip reader" (tar_NewReader fl inFile) in
  let '(headers, intact) := tarReader in
  do restoreEntries fl targetDir headers in
  if intact then ret tt
  else fail (Errorf "failed to read tar header" (SysError (OpHashRead archive))).

(** The file of the database, as the constant of the program names it. *)
Definition databaseFile : string := "file_manager.db".

(** ** Paths of plain names

    A name is simple when it is not empty, not a dot element and holds no
    separator; a path is plain when it is made of simple names, so it is
    relative and [Clean] has nothing to do on it. *)

Definition simple (e : string) : bool :=
  negb (String.eqb e EmptyString) && negb (String.eqb e ".") && negb (String.eqb e "..")
  && forallb (λ c, negb (isPathSeparator c)) (list_ascii_of_string e).

Definition plain (p : string) : bool := forallb simple (elems p).

(** The bytes of a regular file; nothing for what is not one. *)
Definition file_bytes (w : World) (p : string) : list byte :=
  match fs w !! p with
  | Some (File data) => data
  | _ => []
  end.

(** The path of [p] below the directory [d]: what follows [d] and the
    separator. *)
Definition below (d p : string) : string :=
  string_of_list_ascii (drop (S (String.length d)) (list_ascii_of_string p)).

(** What a deferred [Close] that breaks off leaves of the bytes. *)
Definition cut (xl : Flush) (path : string) (bytes : list byte) : list byte :=
  match flush_cut xl path with
  | Some n => firstn n bytes
  | None => bytes
  end.

(** [w'] is [w] with directories added and nothing else changed. *)
Definition grown (w w' : World) : Prop :=
  actions w' = actions w ∧ versions w' = versions w ∧
  ∀ q, fs w' !! q = fs w !! q ∨ (fs w !! q = None ∧ fs w' !! q = Some Directory).

(** The entry [backup] writes for the regular file [p] of [directory]. *)
Definition backup_entry (w : World) (directory p : string) : TarEntry :=
  mkEntry (below directory p) TypeReg (file_bytes w p).

(** ** A codec to run the examples with

    The byte formats of gzip and tar are the libraries' business. The
    examples use a stand-in with the same interface: the magic number of
    gzip, then the content numbered by stdpp's [encode] and the number
    written in binary, one bit a byte. A name fits its header when it is
    ASCII without NUL. *)

Fixpoint bits (p : positive) : list byte :=
  match p with
  | xH => []
  | xO q => x00 :: bits q
  | xI q => x01 :: bits q
  end.

Fixpoint unbits (bs : list byte) : option positive :=
  match bs with
  | [] => Some xH
  | x00 :: rest => xO <$> unbits rest
  | x01 :: rest => xI <$> unbits rest
  | _ => None
  end.

Definition framed (p : positive) : list byte := x1f :: x8b :: bits p.

Definition unframed (bs : list byte) : option positive :=
  match bs with
  | x1f :: x8b :: rest => unbits rest
  | _ => None
  end.

Definition byte_codes (bs : list byte) : list N := map Byte.to_N bs.

Definition code_bytes (ns : list N) : option (list byte) := mapM Byte.of_N ns.

Definition ascii_name (name : string) : bool :=
  forallb (λ b, (0 <? Byte.to_N b)%N && (Byte.to_N b <? 128)%N) (list_byte_of_string name).

#[export] Instance stored_gzip : Gzip := {
  gz_name_ok := ascii_name;
  gz_encode name data := framed (encode (name, byte_codes data));
  gz_decode bs :=
    p ← unframed bs;
    '(name, codes) ← decode p;
    data ← code_bytes codes;
    Some (name, data, true)
}.

Definition type_code (t : TarType) : N :=
  match t with
  | TypeReg => 0
  | TypeDir => 1
  | TypeOther flag => 2 + Byte.to_N flag
  end.

Definition code_type (n : N) : option TarType :=
  if (n =? 0)%N then Some TypeReg
  else if (n =? 1)%N then Some TypeDir
  else TypeOther <$> Byte.of_N (n - 2).

Definition entry_code (e : TarEntry) : string * N * list N :=
  (t_name e, type_code (t_type e), byte_codes (t_data e)).

Definition code_entry (c : string * N * list N) : option TarEntry :=
  let '(name, t, codes) := c in
  type ← code_type t;
  data ← code_bytes codes;
  Some (mkEntry name type data).

#[export] Instance stored_targz : TarGz := {
  tgz_encode entries := framed (encode (map entry_code entries));
  tgz_decode bs :=
    p ← unframed bs;
    codes ← decode p;
    entries ← mapM code_entry codes;
    Some (entries, true)
}.

(** Where [compressFile] puts the archive of a file. *)
Definition gz_path (outputDir inputFile : string) : string :=
  (outputDir ++ "/" ++ filepath_Base inputFile ++ ".gz")%string.

(** ** Worlds for the examples *)

Definition papers : World :=
  mkWorld {[ "docs"%string := Directory;
             "docs/a.txt"%string := File (bytes_of_string "abc");
             "docs/sub"%string := Directory;
             "docs/sub/b.txt"%string := File (bytes_of_string "xy") ]} [] [].

(** An archive that names a file above the directory it is unpacked in, and
    one that names none. *)
Definition climbing : World :=
  mkWorld {[ "in.gz"%string := File (gz_encode "../up.txt" (bytes_of_string "abc")) ]} [] [].

Definition nameless : World :=
  mkWorld {[ "in.gz"%string := File (gz_encode EmptyString (bytes_of_string "abc")) ]} [] [].

(** An archive of a directory, a file in it and a file beside it; and one
    with a symbolic link between two files. *)
Definition packed_entries : list TarEntry :=
  [mkEntry "sub" TypeDir [];
   mkEntry "a.txt" TypeReg (bytes_of_string "abc");
   mkEntry "sub/b.txt" TypeReg (bytes_of_string "xy")].

Definition packed : World :=
  mkWorld {[ "b.tgz"%string := File (tgz_encode packed_entries) ]} [] [].

Definition linked_entries : list TarEntry :=
  [mkEntry "a.txt" TypeReg (bytes_of_string "abc");
   mkEntry "link" (TypeOther "2") [];
   mkEntry "c.txt" TypeReg (bytes_of_string "xy")].

Definition linked : World :=
  mkWorld {[ "b.tgz"%string := File (tgz_encode linked_entries) ]} [] [].

(** Two files of the same base name, and an archive with an entry that names
    a file above the directory it is restored in. *)
Definition namesakes : World :=
  mkWorld {[ "docs"%string := Directory;
             "docs/a.txt"%string := File (bytes_of_string "abc");
             "old"%string := Directory;
             "old/a.txt"%string := File (bytes_of_string "xy") ]} [] [].

Definition slipping : World :=
  mkWorld {[ "b.tgz"%string :=
               File (tgz_encode [mkEntry "../up.txt" TypeReg (bytes_of_string "abc")]) ]}
    [] [].

(** The first of the twins cannot be read. *)
Definition a_unreadable : Faults :=
  mkFaults (λ op, match op with
                  | OpHashRead p => String.eqb p "d/a.txt"
                  | _ => false
                  end) (λ _, 0).

(** * Properties *)

Arguments digest : simpl never.
Arguments filepath_Ext : simpl never.
Arguments filepath_Base : simpl never.
Arguments filepath_Join : simpl never.
Arguments strings_TrimSuffix : simpl never.
Arguments parent_dir : simpl never.
Arguments walk_order : simpl never.

(** ** Strings and paths *)

Lemma list_ascii_app (s t : string) :
  list_ascii_of_string (s ++ t) = list_ascii_of_string s ++ list_ascii_of_string t.
Proof. induction s as [|c s IH]; simpl; [done | by rewrite IH]. Qed.

Lemma string_of_list_app (l k : list ascii) :
  string_of_list_ascii (l ++ k) = (string_of_list_ascii l ++ string_of_list_ascii k)%string.
Proof. induction l as [|c l IH]; simpl; [done | by rewrite IH]. Qed.

Lemma string_length_list (s : string) :
  String.length s = length (list_ascii_of_string s).
Proof. induction s as [|c s IH]; simpl; [done | by rewrite IH]. Qed.

Lemma string_app_length (s t : string) :
  String.length (s ++ t) = String.length s + String.length t.
Proof. induction s as [|c s IH]; simpl; [done | by rewrite IH]. Qed.

Lemma string_app_nil_r (s : string) : (s ++ EmptyString)%string = s.
Proof.
  induction s as [|c s IH]; [done |].
  change (String c (s ++ EmptyString)%string = String c s). by rewrite IH.
Qed.

Lemma is_prefix_app (l k : list ascii) : is_prefix l (l ++ k) = true.
Proof.
  induction l as [|c l IH]; simpl; [done |].
  by rewrite Ascii.eqb_refl, IH.
Qed.

Lemma last_elem_keeps_acc rs acc : ∃ pre, last_elem rs acc = pre ++ acc.
Proof.
  revert acc. induction rs as [|c rs IH]; intros acc; simpl.
  - by exists [].
  - destruct (isPathSeparator c); [by exists [] |].
    destruct (IH (c :: acc)) as [pre ->]. exists (pre ++ [c]). by rewrite <- app_assoc.
Qed.

Lemma ext_scan_suffix rs acc : ∃ pre, last_elem rs acc = pre ++ ext_scan rs acc.
Proof.
  revert acc. induction rs as [|c rs IH]; intros acc; simpl.
  - exists acc. by rewrite app_nil_r.
  - destruct (isPathSeparator c).
    + exists acc. by rewrite app_nil_r.
    + destruct (Ascii.eqb c "."); [apply last_elem_keeps_acc | apply IH].
Qed.

Lemma strip_seps_no_sep c rs : isPathSeparator c = false → strip_seps (c :: rs) = c :: rs.
Proof. intros H. simpl. by rewrite H. Qed.

(** The extension is a suffix of the base name. *)
Lemma base_ends_with_ext (path : string) :
  ∃ pre, filepath_Base path = (pre ++ filepath_Ext path)%string.
Proof.
  unfold filepath_Base, filepath_Ext.
  destruct path as [|c0 path0] eqn:Ep; [by exists "."%string |].
  rewrite <- Ep. clear Ep.
  destruct (rev (list_ascii_of_string path)) as [|c rs] eqn:Er.
  { simpl. by exists "/"%string. }
  destruct (isPathSeparator c) eqn:Hc.
  - assert (ext_scan (c :: rs) [] = []) as -> by (simpl; by rewrite Hc).
    simpl string_of_list_ascii. eexists. by rewrite string_app_nil_r.
  - rewrite strip_seps_no_sep by done.
    destruct (ext_scan_suffix (c :: rs) []) as [pre Hpre].
    destruct (last_elem (c :: rs) []) as [|e es] eqn:Hl.
    + symmetry in Hpre. apply app_eq_nil in Hpre as [_ ->]. by exists "/"%string.
    + rewrite Hpre, string_of_list_app. by eexists.
Qed.

Lemma trim_suffix_app (pre suf : string) :
  (strings_TrimSuffix (pre ++ suf) suf ++ suf)%string = (pre ++ suf)%string.
Proof.
  unfold strings_TrimSuffix, strings_HasSuffix.
  rewrite list_ascii_app, rev_app_distr, is_prefix_app.
  rewrite string_app_length, Nat.add_sub, string_length_list.
  by rewrite take_app_length, string_of_list_ascii_of_string.
Qed.

(** [filename+ext] in [storeFile] is the base name of the path. *)
Lemma filename_ext_is_base (filePath : string) :
  (strings_TrimSuffix (filepath_Base filePath) (filepath_Ext filePath)
     ++ filepath_Ext filePath)%string = filepath_Base filePath.
Proof.
  destruct (base_ends_with_ext filePath) as [pre Hpre].
  rewrite Hpre at 1 2. by rewrite trim_suffix_app.
Qed.

Lemma last_elem_all rs acc tail :
  Forall (λ c, isPathSeparator c = false) rs →
  last_elem (rs ++ "/"%char :: tail) acc = rev rs ++ acc.
Proof.
  revert acc. induction rs as [|c rs IH]; intros acc Hrs; simpl; [done |].
  inversion Hrs as [|? ? Hc Hrs']; subst. rewrite Hc, IH by done.
  by rewrite <- app_assoc.
Qed.

(** The base name forgets the directory. *)
Lemma base_of_join (dir name : string) :
  name ≠ EmptyString → no_separator name →
  filepath_Base (dir ++ "/" ++ name) = name.
Proof.
  intros Hne Hns. unfold filepath_Base.
  destruct (dir ++ "/" ++ name)%string as [|c0 s0] eqn:E.
  { apply (f_equal String.length) in E. rewrite !string_app_length in E. simpl in E. lia. }
  rewrite <- E. clear E.
  rewrite !list_ascii_app, !rev_app_distr. simpl list_ascii_of_string. simpl rev at 2.
  rewrite <- app_assoc. simpl app at 2.
  unfold no_separator in Hns.
  assert (Forall (λ c, isPathSeparator c = false) (rev (list_ascii_of_string name))) as Hrev.
  { by apply Forall_rev. }
  destruct (rev (list_ascii_of_string name)) as [|c rs] eqn:Er.
  { apply (f_equal (@rev _)) in Er. rewrite rev_involutive in Er. simpl in Er.
    apply (f_equal string_of_list_ascii) in Er.
    rewrite string_of_list_ascii_of_string in Er. done. }
  inversion Hrev as [|? ? Hc Hrs]; subst.
  simpl app. rewrite strip_seps_no_sep by done.
  change (c :: rs ++ "/"%char :: rev (list_ascii_of_string dir))
    with ((c :: rs) ++ "/"%char :: rev (list_ascii_of_string dir)).
  rewrite last_elem_all by done. rewrite app_nil_r.
  assert (list_ascii_of_string name = rev (c :: rs)) as Hn.
  { by rewrite <- Er, rev_involutive. }
  rewrite <- Hn.
  destruct (list_ascii_of_string name) eqn:En.
  - symmetry in Hn. apply (f_equal (@length _)) in Hn.
    rewrite length_rev in Hn. simpl in Hn. lia.
  - by rewrite <- En, string_of_list_ascii_of_string.
Qed.

(** ** The digest *)

Lemma be_bytes_length n x : length (SHA256.be_bytes n x) = n.
Proof. induction n as [|n IH]; simpl; [done | by rewrite IH]. Qed.

Lemma sha256_sum_length (msg : list byte) : length (SHA256.sum msg) = 32.
Proof.
  unfold SHA256.sum, SHA256.output. rewrite !length_app, !be_bytes_length. done.
Qed.

Lemma hexdigit_is_hex n : is_hex (hexdigit n) = true.
Proof.
  unfold hexdigit. destruct n as [|p]; [done |].
  do 4 (destruct p as [p|p|]; try done).
Qed.

Lemma hex_length bs : String.length (hex bs) = 2 * length bs.
Proof. induction bs as [|b bs IH]; simpl; [done | rewrite IH; lia]. Qed.

Lemma hex_is_hex bs : Forall (λ c, is_hex c = true) (list_ascii_of_string (hex bs)).
Proof.
  induction bs as [|b bs IH]; simpl; [constructor |].
  repeat constructor; auto using hexdigit_is_hex.
Qed.

Example sha256_constants :
  nth 0 SHA256.K 0%Z = 0x428a2f98%Z ∧ nth 63 SHA256.K 0%Z = 0xc67178f2%Z ∧
  SHA256.sa SHA256.init = 0x6a09e667%Z ∧ SHA256.sh SHA256.init = 0x5be0cd19%Z.
Proof. vm_compute. repeat split. Qed.

Example sha256_empty :
  digest [] = "e3b0c44298fc1c149afbf4c8996fb92427ae41e4649b934ca495991b7852b855"%string.
Proof. vm_compute. reflexivity. Qed.

Example sha256_abc :
  digest (bytes_of_string "abc") =
  "ba7816bf8f01cfea414140de5dae2223b00361a396177a9cb410ff61f20015ad"%string.
Proof. vm_compute. reflexivity. Qed.

Lemma digest_length data : String.length (digest data) = 64.
Proof. unfold digest. by rewrite hex_length, sha256_sum_length. Qed.

Lemma digest_is_hex data : Forall (λ c, is_hex c = true) (list_ascii_of_string (digest data)).
Proof. apply hex_is_hex. Qed.

(** ** The calls, one by one *)

Lemma bind_eq {A B} (c : IO A) (k : A → IO B) (w : World) :
  bind c k w =
  match c w with
  | (w', Ok a) => k a w'
  | (w', Err e) => (w', Err e)
  end.
Proof. reflexivity. Qed.

Lemma wrap_eq {A} msg (c : IO A) (w : World) :
  wrap msg c w =
  match c w with
  | (w', Ok a) => (w', Ok a)
  | (w', Err e) => (w', Err (Errorf msg e))
  end.
Proof. reflexivity. Qed.

Lemma os_Stat_eq p w : os_Stat p w = (w, Ok (bool_decide (is_Some (fs w !! p)))).
Proof. reflexivity. Qed.

Lemma parent_of_storageDir : parent_dir storageDir = "."%string.
Proof. reflexivity. Qed.

Lemma os_Mkdir_storageDir fl w :
  fs w !! storageDir = None →
  os_Mkdir fl storageDir w =
  if fails fl (OpMkdir storageDir) then (w, Err (SysError (OpMkdir storageDir)))
  else (set_fs <[storageDir := Directory]> w, Ok tt).
Proof.
  intros Hn. unfold os_Mkdir. rewrite bind_eq. unfold get at 1.
  rewrite parent_of_storageDir.
  rewrite bool_decide_eq_false_2 by (rewrite Hn; by intros [? ?]).
  unfold dir_ok. change (String.eqb "." ".") with true.
  rewrite orb_false_r. simpl negb. rewrite orb_false_r.
  by destruct (fails fl (OpMkdir storageDir)).
Qed.

Lemma os_Open_eq fl op p w :
  os_Open fl op p w =
  if fails fl op || negb (bool_decide (is_Some (fs w !! p)))
  then (w, Err (SysError op)) else (w, Ok p).
Proof.
  unfold os_Open. rewrite bind_eq. unfold get at 1.
  by destruct (fails fl op || negb (bool_decide (is_Some (fs w !! p)))).
Qed.

Lemma read_all_eq fl op h w :
  read_all fl op h w =
  match fs w !! h with
  | Some (File data) => if fails fl op then (w, Err (SysError op)) else (w, Ok data)
  | _ => (w, Err (SysError op))
  end.
Proof.
  unfold read_all. rewrite bind_eq. unfold get at 1.
  destruct (fs w !! h) as [[data|]|]; try done. by destruct (fails fl op).
Qed.

(** [hashFile] reads and never writes; its answer is the digest of the bytes
    at the path. *)
Lemma hashFile_eq fl p w :
  hashFile fl p w =
  if fails fl (OpHashOpen p) then
    (w, Err (Errorf "failed to open file" (SysError (OpHashOpen p))))
  else match fs w !! p with
       | None => (w, Err (Errorf "failed to open file" (SysError (OpHashOpen p))))
       | Some Directory => (w, Err (Errorf "failed to hash file" (SysError (OpHashRead p))))
       | Some (File data) =>
           if fails fl (OpHashRead p)
           then (w, Err (Errorf "failed to hash file" (SysError (OpHashRead p))))
           else (w, Ok (digest data))
       end.
Proof.
  unfold hashFile. rewrite bind_eq, wrap_eq, os_Open_eq.
  destruct (fails fl (OpHashOpen p)); [done |]. rewrite orb_false_l.
  destruct (fs w !! p) as [n|] eqn:Hp.
  - rewrite bool_decide_eq_true_2 by eauto. cbn [negb]. cbv iota.
    rewrite bind_eq, wrap_eq, read_all_eq, Hp.
    destruct n as [data|]; [| done]. by destruct (fails fl (OpHashRead p)).
  - rewrite bool_decide_eq_false_2 by (by intros [? ?]). done.
Qed.

Lemma hashFile_world fl p w : fst (hashFile fl p w) = w.
Proof.
  rewrite hashFile_eq. destruct (fails fl (OpHashOpen p)); [done |].
  destruct (fs w !! p) as [[data|]|]; try done. by destruct (fails fl (OpHashRead p)).
Qed.

Lemma hashFile_ok_inv fl p w w' h :
  hashFile fl p w = (w', Ok h) →
  w' = w ∧ fails fl (OpHashOpen p) = false ∧ fails fl (OpHashRead p) = false ∧
  ∃ data, fs w !! p = Some (File data) ∧ h = digest data.
Proof.
  rewrite hashFile_eq. destruct (fails fl (OpHashOpen p)); [done |].
  destruct (fs w !! p) as [[data|]|]; try done.
  destruct (fails fl (OpHashRead p)); [done |].
  intros [= <- <-]. eauto 10.
Qed.

Lemma hashFile_err_inv fl p w w' e :
  hashFile fl p w = (w', Err e) →
  w' = w ∧
  (fails fl (OpHashOpen p) = true ∨ fails fl (OpHashRead p) = true ∨
   ∀ data, fs w !! p ≠ Some (File data)).
Proof.
  rewrite hashFile_eq. destruct (fails fl (OpHashOpen p)); [intros [= <- <-]; auto |].
  destruct (fs w !! p) as [[data|]|]; try (intros [= <- <-]; split; [done | by right; right]).
  destruct (fails fl (OpHashRead p)); [intros [= <- <-]; auto | done].
Qed.

Lemma logAction_eq fl t f s w :
  logAction fl t f s w =
  if fails fl (OpInsertAction f) then (w, Err (SysError (OpInsertAction f)))
  else (insert_action (mkAction t f s) w, Ok tt).
Proof. unfold logAction. by destruct (fails fl (OpInsertAction f)). Qed.

Lemma logVersion_eq fl f h w :
  logVersion fl f h w =
  if fails fl (OpSelectVersion f) then (w, Err (SysError (OpSelectVersion f)))
  else if fails fl (OpInsertVersion f) then (w, Err (SysError (OpInsertVersion f)))
  else (insert_version (mkVersion f (next_version f (versions w)) h) w, Ok tt).
Proof.
  unfold logVersion, next_version. rewrite bind_eq. unfold get at 1. cbv iota.
  rewrite bind_eq.
  destruct (fails fl (OpSelectVersion f)); [done |].
  destruct (select_last_version f (versions w)); unfold ret at 1; cbv iota beta;
    by destruct (fails fl (OpInsertVersion f)).
Qed.

Lemma os_Remove_eq fl p w :
  os_Remove fl p w =
  match fs w !! p with
  | Some (File _) =>
      if fails fl (OpRemove p) then (w, Err (SysError (OpRemove p)))
      else (set_fs (delete p) w, Ok tt)
  | _ => (w, Err (SysError (OpRemove p)))
  end.
Proof.
  unfold os_Remove. rewrite bind_eq. unfold get at 1.
  destruct (fs w !! p) as [[data|]|]; try done. by destruct (fails fl (OpRemove p)).
Qed.

Lemma ext_scan_no_separator rs acc :
  Forall (λ c, isPathSeparator c = false) acc →
  Forall (λ c, isPathSeparator c = false) (ext_scan rs acc).
Proof.
  revert acc. induction rs as [|c rs IH]; intros acc Hacc; simpl; [constructor |].
  destruct (isPathSeparator c) eqn:Hc; [constructor |].
  destruct (Ascii.eqb c "."); [by constructor |].
  apply IH. by constructor.
Qed.

Lemma ext_no_separator p : no_separator (filepath_Ext p).
Proof.
  unfold no_separator, filepath_Ext. rewrite list_ascii_of_string_of_list_ascii.
  apply ext_scan_no_separator. constructor.
Qed.

Lemma is_hex_no_separator c : is_hex c = true → isPathSeparator c = false.
Proof.
  intros H. unfold isPathSeparator. destruct (Ascii.eqb_spec c "/"); [by subst |done].
Qed.

Lemma storage_key_no_separator data p : no_separator (storage_key data p).
Proof.
  unfold no_separator, storage_key. rewrite list_ascii_app. apply Forall_app. split.
  - eapply Forall_impl; [apply digest_is_hex |]. apply is_hex_no_separator.
  - apply ext_no_separator.
Qed.

Lemma drop_elem_all rs tail :
  Forall (λ c, isPathSeparator c = false) rs →
  drop_elem (rs ++ "/"%char :: tail) = "/"%char :: tail.
Proof.
  induction rs as [|c rs IH]; intros Hrs; simpl; [done |].
  inversion Hrs as [|? ? Hc Hrs']; subst. by rewrite Hc, IH.
Qed.

Lemma parent_of_blob name :
  no_separator name → parent_dir (filepath_Join storageDir name) = storageDir.
Proof.
  intros Hn. unfold parent_dir, filepath_Join.
  rewrite !list_ascii_app, !rev_app_distr. simpl list_ascii_of_string.
  simpl rev at 2. rewrite <- app_assoc. simpl app at 2.
  rewrite drop_elem_all by (by apply Forall_rev). reflexivity.
Qed.

Lemma blob_not_root name : filepath_Join storageDir name ≠ storageDir.
Proof.
  intros H. apply (f_equal String.length) in H. unfold filepath_Join in H.
  rewrite !string_app_length in H. simpl in H. lia.
Qed.

Lemma dir_ok_storageDir w : dir_ok w storageDir = is_dir w storageDir.
Proof. reflexivity. Qed.

Lemma os_Create_blob fl name w :
  no_separator name →
  fs w !! filepath_Join storageDir name = None →
  os_Create fl (filepath_Join storageDir name) w =
  if fails fl (OpCreate (filepath_Join storageDir name)) || negb (is_dir w storageDir)
  then (w, Err (SysError (OpCreate (filepath_Join storageDir name))))
  else (set_fs <[filepath_Join storageDir name := File []]> w,
        Ok (filepath_Join storageDir name)).
Proof.
  intros Hn Hnone. unfold os_Create. rewrite bind_eq. unfold get at 1. cbv iota.
  rewrite parent_of_blob by done. rewrite dir_ok_storageDir.
  assert (is_dir w (filepath_Join storageDir name) = false) as ->.
  { unfold is_dir. by rewrite Hnone. }
  rewrite orb_false_r.
  by destruct (fails fl (OpCreate (filepath_Join storageDir name)) || negb (is_dir w storageDir)).
Qed.

Lemma io_Copy_eq fl dst src w :
  io_Copy fl dst src w =
  match fs w !! src with
  | Some (File data) =>
      if fails fl (OpCopy dst)
      then (set_fs <[dst := File (firstn (written fl dst) data)]> w, Err (SysError (OpCopy dst)))
      else (set_fs <[dst := File data]> w, Ok tt)
  | _ => (w, Err (SysError (OpCopy dst)))
  end.
Proof.
  unfold io_Copy. rewrite bind_eq. unfold get at 1. cbv iota.
  destruct (fs w !! src) as [[data|]|]; try done. by destruct (fails fl (OpCopy dst)).
Qed.

Lemma set_fs_set_fs f g w : set_fs f (set_fs g w) = set_fs (f ∘ g) w.
Proof. done. Qed.

(** ** [storeFile], path by path *)

Lemma store_logged_run fl filePath data w :
  store_logged fl filePath data w
    (fst ((do wrap "failed to log action"
              (logAction fl "store" (filepath_Base filePath) (storage_key data filePath)) in
           do wrap "failed to log version"
              (logVersion fl (filepath_Base filePath) (digest data)) in
           ret (storage_key data filePath)) w))
    (snd ((do wrap "failed to log action"
              (logAction fl "store" (filepath_Base filePath) (storage_key data filePath)) in
           do wrap "failed to log version"
              (logVersion fl (filepath_Base filePath) (digest data)) in
           ret (storage_key data filePath)) w)).
Proof.
  rewrite bind_eq, wrap_eq, logAction_eq.
  destruct (fails fl (OpInsertAction (filepath_Base filePath))) eqn:Ha.
  { by constructor. }
  rewrite bind_eq, wrap_eq, logVersion_eq.
  destruct (fails fl (OpSelectVersion (filepath_Base filePath))) eqn:Hs.
  { by constructor. }
  destruct (fails fl (OpInsertVersion (filepath_Base filePath))) eqn:Hi.
  { by constructor. }
  by constructor.
Qed.

Lemma storeFile_outcome fl filePath w :
  store_outcome fl filePath w (fst (storeFile fl filePath w)) (snd (storeFile fl filePath w)).
Proof.
  unfold storeFile. rewrite !filename_ext_is_base.
  rewrite bind_eq, os_Stat_eq. rewrite bind_eq.
  assert (∃ w1 r1,
    (if negb (bool_decide (is_Some (fs w !! storageDir)))
     then wrap "failed to create storage directory" (os_Mkdir fl storageDir)
     else ret ()) w = (w1, r1) ∧
    ((r1 = Ok () ∧ prepared fl w w1) ∨
     (r1 = Err (Errorf "failed to create storage directory" (SysError (OpMkdir storageDir))) ∧
      w1 = w ∧ fs w !! storageDir = None ∧ fails fl (OpMkdir storageDir) = true)))
    as (w1 & r1 & -> & Hprep).
  { destruct (fs w !! storageDir) as [n|] eqn:Hs.
    - rewrite bool_decide_eq_true_2 by eauto. eexists _, _. split; [done |].
      left. split; [done |]. left. eauto.
    - rewrite bool_decide_eq_false_2 by (by intros [? ?]).
      cbn [negb]. cbv iota. rewrite wrap_eq, os_Mkdir_storageDir by done.
      destruct (fails fl (OpMkdir storageDir)) eqn:Hm; eexists _, _; (split; [done |]).
      + right. done.
      + left. split; [done |]. right. done. }
  destruct Hprep as [[-> Hprep] | (-> & -> & Hnone & Hm)]; [| by constructor].
  rewrite bind_eq, wrap_eq, os_Open_eq.
  destruct (fails fl (OpOpen filePath)) eqn:Hopen.
  { simpl. apply SO_open; auto. }
  rewrite orb_false_l.
  destruct (fs w1 !! filePath) as [n|] eqn:Hsrc.
  2:{ rewrite bool_decide_eq_false_2 by (by intros [? ?]). simpl. apply SO_open; auto. }
  rewrite bool_decide_eq_true_2 by eauto. cbn [negb]. cbv iota.
  rewrite bind_eq, wrap_eq.
  destruct (hashFile fl filePath w1) as [wh [h|e]] eqn:Hhash.
  2:{ apply hashFile_err_inv in Hhash as Hinv. destruct Hinv as [-> _].
      simpl. apply SO_hash; eauto. }
  apply hashFile_ok_inv in Hhash as (-> & Hho & Hhr & data & Hdata & ->).
  assert (sourced fl filePath w w1 data) as Hsrcd.
  { unfold sourced. rewrite Hsrc in Hdata. by simplify_eq. }
  fold (storage_key data filePath). fold (blob_path data filePath).
  rewrite bind_eq, os_Stat_eq.
  destruct (fs w1 !! blob_path data filePath) as [nb|] eqn:Hblob.
  - rewrite bool_decide_eq_true_2 by eauto.
    rewrite bind_eq, logAction_eq.
    destruct (fails fl (OpInsertAction (filepath_Base filePath))) eqn:Ha; simpl.
    + eapply SO_duplicate_unlogged; eauto.
    + eapply SO_duplicate; eauto.
  - rewrite bool_decide_eq_false_2 by (by intros [? ?]).
    rewrite bind_eq, wrap_eq. unfold blob_path.
    rewrite os_Create_blob by (done || apply storage_key_no_separator).
    fold (blob_path data filePath).
    destruct (fails fl (OpCreate (blob_path data filePath))) eqn:Hc.
    { simpl. eapply SO_create; eauto. }
    rewrite orb_false_l.
    destruct (is_dir w1 storageDir) eqn:Hd.
    2:{ simpl. eapply SO_create; eauto. }
    cbn [negb]. cbv iota.
    rewrite bind_eq, wrap_eq, io_Copy_eq.
    assert (filePath ≠ blob_path data filePath) as Hne.
    { intros Heq. rewrite <- Heq in Hblob. congruence. }
    assert (fs (set_fs <[blob_path data filePath := File []]> w1) !! filePath
            = Some (File data)) as ->.
    { simpl. rewrite lookup_insert_ne by done. by rewrite Hsrc in Hdata |- *. }
    destruct (fails fl (OpCopy (blob_path data filePath))) eqn:Hcp.
    + cbv iota. rewrite set_fs_set_fs. unfold compose.
      assert (∀ v, set_fs (λ m, <[blob_path data filePath := v]>
                 (<[blob_path data filePath := File []]> m)) w1
               = set_fs <[blob_path data filePath := v]> w1) as Hset.
      { intros v. unfold set_fs. by rewrite insert_insert_eq. }
      rewrite Hset. simpl. by eapply SO_copy.
    + cbv iota. rewrite set_fs_set_fs. unfold compose.
      assert (set_fs (λ m, <[blob_path data filePath := File data]>
                 (<[blob_path data filePath := File []]> m)) w1
               = set_fs <[blob_path data filePath := File data]> w1) as ->.
      { unfold set_fs. by rewrite insert_insert_eq. }
      eapply SO_written; eauto. apply store_logged_run.
Qed.

Lemma prepared_lookup fl w w1 p n :
  prepared fl w w1 → fs w !! p = Some n → fs w1 !! p = Some n.
Proof.
  intros [[_ ->] | (Hn & _ & ->)] Hp; [done |].
  simpl. rewrite lookup_insert_ne; [done | congruence].
Qed.

Lemma prepared_file fl w w1 p data :
  prepared fl w w1 → fs w1 !! p = Some (File data) → fs w !! p = Some (File data).
Proof.
  intros [[_ ->] | (Hn & _ & ->)] Hp; [done |].
  simpl in Hp. destruct (decide (storageDir = p)) as [<- | Hne].
  - by rewrite lookup_insert_eq in Hp.
  - by rewrite lookup_insert_ne in Hp.
Qed.

Lemma prepared_records fl w w1 :
  prepared fl w w1 → actions w1 = actions w ∧ versions w1 = versions w.
Proof. by intros [[_ ->] | (_ & _ & ->)]. Qed.

Lemma prepared_root fl w w1 : prepared fl w w1 → is_Some (fs w1 !! storageDir).
Proof.
  intros [[H ->] | (_ & _ & ->)]; [done |]. simpl. rewrite lookup_insert_eq. eauto.
Qed.

Lemma prepared_fs fl w w1 :
  prepared fl w w1 →
  fs w1 = fs w ∨ (fs w !! storageDir = None ∧ fs w1 = <[storageDir := Directory]> (fs w)).
Proof. intros [[_ ->] | (Hn & _ & ->)]; auto. Qed.

Lemma sourced_file fl p w w1 data :
  sourced fl p w w1 data → fs w !! p = Some (File data).
Proof. intros (Hp & _ & Hd & _). eauto using prepared_file. Qed.

(** Turning a run of [storeFile] into its case. *)
Lemma storeFile_run fl filePath w w' r :
  storeFile fl filePath w = (w', r) → store_outcome fl filePath w w' r.
Proof.
  intros H. pose proof (storeFile_outcome fl filePath w) as Ho. by rewrite H in Ho.
Qed.

(** C8. A successful store answers the hex digest of the source bytes
    followed by the extension of the source path, and the storage root has an
    entry of exactly that name. *)
Theorem storeFile_storage_key fl filePath w w' key :
  storeFile fl filePath w = (w', Ok key) →
  ∃ data,
    fs w !! filePath = Some (File data) ∧
    key = (digest data ++ filepath_Ext filePath)%string ∧
    String.length (digest data) = 64 ∧
    is_Some (fs w' !! filepath_Join storageDir key).
Proof.
  intros H. apply storeFile_run in H.
  inversion H as [| | | | w1 data Hs Hb Ha | | | w1 data w2 r Hs Hb Hc Hd Hcp Hl]; subst.
  - exists data. split; [eauto using sourced_file |]. split; [done |].
    split; [apply digest_length | done].
  - exists data. inversion Hl; subst.
    split; [eauto using sourced_file |]. split; [done |].
    split; [apply digest_length |].
    simpl. fold (blob_path data filePath). rewrite lookup_insert_eq. eauto.
Qed.

Lemma storeFile_storage_key_witness :
  ∃ data,
    fs example_world !! "docs/a.txt"%string = Some (File data) ∧
    "ba7816bf8f01cfea414140de5dae2223b00361a396177a9cb410ff61f20015ad.txt"%string
      = (digest data ++ filepath_Ext "docs/a.txt")%string ∧
    String.length (digest data) = 64 ∧
    is_Some (fs (fst (storeFile no_faults "docs/a.txt" example_world)) !!
             filepath_Join storageDir
               "ba7816bf8f01cfea414140de5dae2223b00361a396177a9cb410ff61f20015ad.txt").
Proof.
  apply (storeFile_storage_key no_faults "docs/a.txt" example_world).
  vm_compute. reflexivity.
Defined.

Lemma store_logged_records fl p data w w' r :
  store_logged fl p data w w' r →
  fs w' = fs w ∧
  ∃ acts vers,
    actions w' = actions w ++ acts ∧ versions w' = versions w ++ vers ∧
    Forall (λ a, a_filename a = filepath_Base p) acts ∧
    Forall (λ v, v_filename v = filepath_Base p ∧
                 v_version v = next_version (filepath_Base p) (versions w)) vers.
Proof.
  intros H. inversion H; subst; (split; [done |]).
  - exists [], []. rewrite !app_nil_r. by repeat split.
  - eexists [_], []. rewrite !app_nil_r. repeat split; by repeat constructor.
  - eexists [_], []. rewrite !app_nil_r. repeat split; by repeat constructor.
  - eexists [_], [_]. repeat split; by repeat constructor.
Qed.

Lemma store_outcome_records fl p w w' r :
  store_outcome fl p w w' r →
  ∃ acts vers,
    actions w' = actions w ++ acts ∧ versions w' = versions w ++ vers ∧
    Forall (λ a, a_filename a = filepath_Base p) acts ∧
    Forall (λ v, v_filename v = filepath_Base p ∧
                 v_version v = next_version (filepath_Base p) (versions w)) vers.
Proof.
  assert (∀ w1 : World, actions w1 = actions w → versions w1 = versions w →
    ∃ acts vers,
      actions w1 = actions w ++ acts ∧ versions w1 = versions w ++ vers ∧
      Forall (λ a, a_filename a = filepath_Base p) acts ∧
      Forall (λ v, v_filename v = filepath_Base p ∧
                   v_version v = next_version (filepath_Base p) (versions w)) vers) as Hsame.
  { intros w1 Ha Hv. exists [], []. rewrite !app_nil_r. by repeat split. }
  intros H.
  inversion H as [| w1 Hp | w1 e Hp | w1 data [Hp _] | w1 data [Hp _] | w1 data [Hp _]
                  | w1 data [Hp _] | w1 data w2 r2 [Hp _] Hb Hc Hd Hcp Hl]; subst;
    try (destruct (prepared_records _ _ _ Hp) as [Ha Hv]).
  - by apply Hsame.
  - by apply Hsame.
  - by apply Hsame.
  - by apply Hsame.
  - eexists [_], []. simpl. rewrite Ha, Hv, !app_nil_r. repeat split; by repeat constructor.
  - by apply Hsame.
  - by apply Hsame.
  - apply store_logged_records in Hl as (_ & acts & vers & Ha' & Hv' & Hfa & Hfv).
    simpl in Ha', Hv', Hfv. rewrite Ha in Ha'. rewrite Hv in Hv', Hfv. eauto 10.
Qed.

(** C10. When the source cannot be opened or hashed, the store fails, no
    file is written and no row is appended; the only trace it can leave is
    the storage root, which it creates first when it is missing. *)
Theorem storeFile_unreadable_source fl filePath w :
  source_unreadable fl filePath w →
  (∃ e, snd (storeFile fl filePath w) = Err e) ∧
  actions (fst (storeFile fl filePath w)) = actions w ∧
  versions (fst (storeFile fl filePath w)) = versions w ∧
  (fs (fst (storeFile fl filePath w)) = fs w ∨
   fs w !! storageDir = None ∧
   fs (fst (storeFile fl filePath w)) = <[storageDir := Directory]> (fs w)) ∧
  (fs w !! storageDir = None → fails fl (OpMkdir storageDir) = false →
   fs (fst (storeFile fl filePath w)) !! storageDir = Some Directory).
Proof.
  intros Hbad.
  assert (∀ w1 data, sourced fl filePath w w1 data → False) as Hno.
  { intros w1 data Hs. pose proof (sourced_file _ _ _ _ _ Hs) as Hf.
    destruct Hs as (_ & Ho & _ & Hho & Hhr).
    destruct Hbad as [H | [H | [H | H]]]; first [congruence | by apply (H data)]. }
  pose proof (storeFile_outcome fl filePath w) as H.
  destruct (storeFile fl filePath w) as [w' r]. simpl in *.
  assert (∀ w1, prepared fl w w1 →
    actions w1 = actions w ∧ versions w1 = versions w ∧
    (fs w1 = fs w ∨ fs w !! storageDir = None ∧ fs w1 = <[storageDir := Directory]> (fs w)) ∧
    (fs w !! storageDir = None → fails fl (OpMkdir storageDir) = false →
     fs w1 !! storageDir = Some Directory)) as Hprep.
  { intros w1 Hp. destruct (prepared_records _ _ _ Hp) as [Ha Hv].
    split; [done |]. split; [done |]. split; [by eapply prepared_fs |].
    intros Hn _. destruct Hp as [[[n Hs] _] | (_ & _ & ->)]; [congruence |].
    simpl. by rewrite lookup_insert_eq. }
  inversion H as [Hn Hm | w1 Hp | w1 e Hp | w1 data Hs | w1 data Hs | w1 data Hs
                  | w1 data Hs | w1 data w2 r2 Hs]; subst;
    try (exfalso; by eapply Hno).
  - split; [eauto |]. split; [done |]. split; [done |]. split; [by left |]. congruence.
  - split; [eauto |]. by apply Hprep.
  - split; [eauto |]. by apply Hprep.
Qed.

Lemma storeFile_unreadable_source_witness :
  (∃ e, snd (storeFile no_faults "docs/missing.txt" example_world) = Err e) ∧
  actions (fst (storeFile no_faults "docs/missing.txt" example_world)) = actions example_world ∧
  versions (fst (storeFile no_faults "docs/missing.txt" example_world)) = versions example_world ∧
  (fs (fst (storeFile no_faults "docs/missing.txt" example_world)) = fs example_world ∨
   fs example_world !! storageDir = None ∧
   fs (fst (storeFile no_faults "docs/missing.txt" example_world))
     = <[storageDir := Directory]> (fs example_world)) ∧
  (fs example_world !! storageDir = None → fails no_faults (OpMkdir storageDir) = false →
   fs (fst (storeFile no_faults "docs/missing.txt" example_world)) !! storageDir
     = Some Directory).
Proof.
  apply (storeFile_unreadable_source no_faults "docs/missing.txt" example_world).
  right; right; right. intros data. vm_compute. discriminate.
Defined.

(** Where a store stands once the source is read. *)
Lemma sourced_readable fl p w w1 data data' :
  source_readable fl p w data → sourced fl p w w1 data' → data' = data.
Proof.
  intros (Hf & _) Hs. apply sourced_file in Hs. congruence.
Qed.

Lemma prepared_blob fl w w1 name :
  prepared fl w w1 →
  fs w1 !! filepath_Join storageDir name = fs w !! filepath_Join storageDir name.
Proof.
  intros [[_ ->] | (_ & _ & ->)]; [done |].
  simpl. rewrite lookup_insert_ne; [done |]. intros H. symmetry in H. by apply blob_not_root in H.
Qed.

Lemma prepared_is_dir fl w w1 :
  prepared fl w w1 →
  is_dir w1 storageDir = false ↔ ∃ d, fs w !! storageDir = Some (File d).
Proof.
  unfold is_dir. intros [[[n Hs] ->] | (Hn & _ & ->)].
  - rewrite Hs. destruct n; split; eauto; try done. intros [d Hd]. done.
  - simpl. rewrite lookup_insert_eq, Hn. split; [done |]. intros [d Hd]; done.
Qed.

Lemma readable_outcome fl p w data w' r :
  source_readable fl p w data →
  store_outcome fl p w w' r →
  ∃ w1, prepared fl w w1 ∧ sourced fl p w w1 data ∧
    match fs w !! blob_path data p with
    | Some _ =>
        if fails fl (OpInsertAction (filepath_Base p))
        then w' = w1 ∧ r = Err (SysError (OpInsertAction (filepath_Base p)))
        else w' = insert_action
                    (mkAction "store_duplicate" (filepath_Base p) (storage_key data p)) w1 ∧
             r = Ok (storage_key data p)
    | None =>
        if fails fl (OpCreate (blob_path data p)) || negb (is_dir w1 storageDir)
        then w' = w1 ∧
             r = Err (Errorf "failed to create destination file"
                        (SysError (OpCreate (blob_path data p))))
        else if fails fl (OpCopy (blob_path data p))
        then w' = set_fs <[blob_path data p :=
                             File (firstn (written fl (blob_path data p)) data)]> w1 ∧
             r = Err (Errorf "failed to copy file" (SysError (OpCopy (blob_path data p))))
        else store_logged fl p data (set_fs <[blob_path data p := File data]> w1) w' r
    end.
Proof.
  intros Hr Ho.
  pose proof Hr as (Hf & Hopen & Hho & Hhr & Hmk).
  inversion Ho as [Hn Hm | w1 Hp Hbad | w1 e Hp Hop Hsome Hh | w1 d Hs Hb Ha | w1 d Hs Hb Ha
                   | w1 d Hs Hb Hc | w1 d Hs Hb Hc Hd Hcp | w1 d w2 r2 Hs Hb Hc Hd Hcp Hl]; subst.
  - rewrite Hmk in Hm; done.
  - destruct Hbad as [Hbad | Hbad]; [congruence |].
    by rewrite (prepared_lookup _ _ _ _ _ Hp Hf) in Hbad.
  - apply hashFile_err_inv in Hh as (_ & [H | [H | H]]); try congruence.
    exfalso. apply (H data). eauto using prepared_lookup.
  - pose proof (sourced_readable _ _ _ _ _ _ Hr Hs) as ->.
    exists w'. pose proof Hs as [Hp _]. split; [done |]. split; [done |].
    unfold blob_path in *. rewrite (prepared_blob _ _ _ _ Hp) in Hb.
    destruct Hb as [n ->]. by rewrite Ha.
  - pose proof (sourced_readable _ _ _ _ _ _ Hr Hs) as ->.
    exists w1. pose proof Hs as [Hp _]. split; [done |]. split; [done |].
    unfold blob_path in *. rewrite (prepared_blob _ _ _ _ Hp) in Hb.
    destruct Hb as [n ->]. by rewrite Ha.
  - pose proof (sourced_readable _ _ _ _ _ _ Hr Hs) as ->.
    exists w'. pose proof Hs as [Hp _]. split; [done |]. split; [done |].
    unfold blob_path in *. rewrite (prepared_blob _ _ _ _ Hp) in Hb. rewrite Hb.
    destruct Hc as [-> | ->]; [done |]. by rewrite orb_true_r.
  - pose proof (sourced_readable _ _ _ _ _ _ Hr Hs) as ->.
    exists w1. pose proof Hs as [Hp _]. split; [done |]. split; [done |].
    unfold blob_path in *. rewrite (prepared_blob _ _ _ _ Hp) in Hb. rewrite Hb.
    by rewrite Hc, Hd, Hcp.
  - pose proof (sourced_readable _ _ _ _ _ _ Hr Hs) as ->.
    exists w1. pose proof Hs as [Hp _]. split; [done |]. split; [done |].
    unfold blob_path in *. rewrite (prepared_blob _ _ _ _ Hp) in Hb. rewrite Hb.
    by rewrite Hc, Hd, Hcp.
Qed.

(** C4, as the code has it. When the store gets as far as writing the blob
    and the creation fails, it answers the creation error and no blob is
    there; when the copy fails, it answers the copy error and the bytes
    copied so far stay under the storage key. Neither appends a row. *)
Theorem storeFile_write_failure fl filePath w data :
  source_readable fl filePath w data →
  fs w !! blob_path data filePath = None →
  (fails fl (OpCreate (blob_path data filePath)) = true ∨
   (∃ d, fs w !! storageDir = Some (File d)) →
     snd (storeFile fl filePath w)
       = Err (Errorf "failed to create destination file"
                (SysError (OpCreate (blob_path data filePath)))) ∧
     fs (fst (storeFile fl filePath w)) !! blob_path data filePath = None ∧
     actions (fst (storeFile fl filePath w)) = actions w ∧
     versions (fst (storeFile fl filePath w)) = versions w) ∧
  (fails fl (OpCreate (blob_path data filePath)) = false →
   (∀ d, fs w !! storageDir ≠ Some (File d)) →
   fails fl (OpCopy (blob_path data filePath)) = true →
     snd (storeFile fl filePath w)
       = Err (Errorf "failed to copy file" (SysError (OpCopy (blob_path data filePath)))) ∧
     fs (fst (storeFile fl filePath w)) !! blob_path data filePath
       = Some (File (firstn (written fl (blob_path data filePath)) data)) ∧
     actions (fst (storeFile fl filePath w)) = actions w ∧
     versions (fst (storeFile fl filePath w)) = versions w).
Proof.
  intros Hr Hnone.
  pose proof (storeFile_outcome fl filePath w) as Ho.
  destruct (storeFile fl filePath w) as [w' r]. simpl in *.
  destruct (readable_outcome _ _ _ _ _ _ Hr Ho) as (w1 & Hp & Hs & Hcase).
  rewrite Hnone in Hcase.
  destruct (prepared_records _ _ _ Hp) as [Ha Hv].
  pose proof (prepared_is_dir _ _ _ Hp) as Hdir.
  assert (fs w1 !! blob_path data filePath = None) as Hnone1.
  { unfold blob_path. by rewrite (prepared_blob _ _ _ _ Hp). }
  split.
  - intros Hfail.
    assert (fails fl (OpCreate (blob_path data filePath)) || negb (is_dir w1 storageDir) = true)
      as Hc.
    { destruct Hfail as [-> | Hd]; [done |]. apply Hdir in Hd. rewrite Hd. apply orb_true_r. }
    rewrite Hc in Hcase. by destruct Hcase as [-> ->].
  - intros Hc Hd Hcp.
    assert (is_dir w1 storageDir = true) as Hd1.
    { apply not_false_iff_true. intros E. apply Hdir in E as [d E]. by apply Hd in E. }
    rewrite Hc, Hd1, Hcp in Hcase. simpl in Hcase. destruct Hcase as [-> ->].
    simpl. by rewrite lookup_insert_eq.
Qed.

Lemma storeFile_write_failure_witness :
  snd (storeFile copy_breaks "docs/a.txt" example_world)
    = Err (Errorf "failed to copy file"
             (SysError (OpCopy (blob_path (bytes_of_string "abc") "docs/a.txt")))) ∧
  fs (fst (storeFile copy_breaks "docs/a.txt" example_world))
     !! blob_path (bytes_of_string "abc") "docs/a.txt"
    = Some (File (firstn (written copy_breaks (blob_path (bytes_of_string "abc") "docs/a.txt"))
                    (bytes_of_string "abc"))) ∧
  actions (fst (storeFile copy_breaks "docs/a.txt" example_world)) = actions example_world ∧
  versions (fst (storeFile copy_breaks "docs/a.txt" example_world)) = versions example_world.
Proof.
  refine (proj2 (storeFile_write_failure copy_breaks "docs/a.txt" example_world
                   (bytes_of_string "abc") _ _) _ _ _).
  - repeat split; reflexivity.
  - vm_compute. reflexivity.
  - reflexivity.
  - intros d. vm_compute. discriminate.
  - reflexivity.
Defined.

(** C4, as the claim states it, fails: after a failing copy the store has
    answered an error and a one-byte blob sits under the storage key of the
    three-byte source. *)
Lemma storeFile_leaves_truncated_blob :
  snd (storeFile copy_breaks "docs/a.txt" example_world)
    = Err (Errorf "failed to copy file"
             (SysError (OpCopy
                "storage/ba7816bf8f01cfea414140de5dae2223b00361a396177a9cb410ff61f20015ad.txt"))) ∧
  fs example_world !! "docs/a.txt"%string = Some (File (bytes_of_string "abc")) ∧
  fs (fst (storeFile copy_breaks "docs/a.txt" example_world))
     !! "storage/ba7816bf8f01cfea414140de5dae2223b00361a396177a9cb410ff61f20015ad.txt"%string
    = Some (File (bytes_of_string "a")) ∧
  fs (fst (storeFile copy_breaks "docs/a.txt" example_world))
     !! "storage/ba7816bf8f01cfea414140de5dae2223b00361a396177a9cb410ff61f20015ad.txt"%string
    ≠ None.
Proof. vm_compute. repeat split. discriminate. Qed.

(** What a successful store leaves behind. *)
Lemma storeFile_ok_post fl p w w' key :
  storeFile fl p w = (w', Ok key) →
  ∃ data,
    fs w !! p = Some (File data) ∧
    key = storage_key data p ∧
    is_Some (fs w' !! storageDir) ∧
    is_Some (fs w' !! blob_path data p) ∧
    (∀ q n, fs w !! q = Some n → fs w' !! q = Some n).
Proof.
  intros H. apply storeFile_run in H.
  inversion H as [| | | | w1 data Hs Hb Ha | | | w1 data w2 r Hs Hb Hc Hd Hcp Hl]; subst.
  - exists data. pose proof Hs as [Hp _]. simpl.
    split; [eauto using sourced_file |]. split; [done |].
    split; [eauto using prepared_root |]. split; [done |].
    intros q n Hq. eauto using prepared_lookup.
  - exists data. pose proof Hs as [Hp _]. inversion Hl; subst.
    split; [eauto using sourced_file |]. split; [done |]. simpl.
    assert (blob_path data p ≠ storageDir) as Hne by apply blob_not_root.
    split; [rewrite lookup_insert_ne by done; eauto using prepared_root |].
    split; [rewrite lookup_insert_eq; eauto |].
    intros q n Hq. apply (prepared_lookup _ _ _ _ _ Hp) in Hq.
    rewrite lookup_insert_ne; [done |]. intros <-. congruence.
Qed.

(** C1, as the code has it. Once a source has been stored, storing a source
    with the same bytes and the same extension answers the same storage key,
    leaves the file system as it is, appends one [store_duplicate] action
    under the base name of the new source, and appends no version row. *)
Theorem store_same_content_again fl1 fl2 p1 p2 w w1 key :
  storeFile fl1 p1 w = (w1, Ok key) →
  fs w !! p2 = fs w !! p1 →
  filepath_Ext p2 = filepath_Ext p1 →
  fails fl2 (OpOpen p2) = false →
  fails fl2 (OpHashOpen p2) = false →
  fails fl2 (OpHashRead p2) = false →
  fails fl2 (OpInsertAction (filepath_Base p2)) = false →
  snd (storeFile fl2 p2 w1) = Ok key ∧
  fs (fst (storeFile fl2 p2 w1)) = fs w1 ∧
  actions (fst (storeFile fl2 p2 w1))
    = actions w1 ++ [mkAction "store_duplicate" (filepath_Base p2) key] ∧
  versions (fst (storeFile fl2 p2 w1)) = versions w1.
Proof.
  intros H1 Hsame Hext Hopen Hho Hhr Hact.
  apply storeFile_ok_post in H1 as (data & Hp1 & -> & Hroot & Hblob & Hkeep).
  assert (source_readable fl2 p2 w1 data) as Hr.
  { unfold source_readable. split; [apply Hkeep; by rewrite Hsame |].
    repeat split; try done. intros Hn. rewrite Hn in Hroot. by destruct Hroot. }
  assert (storage_key data p2 = storage_key data p1) as Hkey.
  { unfold storage_key. by rewrite Hext. }
  assert (blob_path data p2 = blob_path data p1) as Hbp.
  { unfold blob_path. by rewrite Hkey. }
  pose proof (storeFile_outcome fl2 p2 w1) as Ho.
  destruct (storeFile fl2 p2 w1) as [w2 r2]. simpl in *.
  destruct (readable_outcome _ _ _ _ _ _ Hr Ho) as (w1' & Hp & Hs & Hcase).
  rewrite Hbp in Hcase. destruct Hblob as [nb Hblob]. rewrite Hblob, Hact in Hcase.
  destruct Hcase as [-> ->].
  assert (w1' = w1) as ->.
  { destruct Hp as [[_ ->] | (Hn & _)]; [done |]. rewrite Hn in Hroot. by destruct Hroot. }
  rewrite Hkey. done.
Qed.

Lemma store_same_content_again_witness :
  snd (storeFile no_faults "docs/a.txt" (fst (storeFile no_faults "docs/a.txt" example_world)))
    = Ok (storage_key (bytes_of_string "abc") "docs/a.txt") ∧
  fs (fst (storeFile no_faults "docs/a.txt"
             (fst (storeFile no_faults "docs/a.txt" example_world))))
    = fs (fst (storeFile no_faults "docs/a.txt" example_world)) ∧
  actions (fst (storeFile no_faults "docs/a.txt"
                  (fst (storeFile no_faults "docs/a.txt" example_world))))
    = actions (fst (storeFile no_faults "docs/a.txt" example_world))
      ++ [mkAction "store_duplicate" (filepath_Base "docs/a.txt")
            (storage_key (bytes_of_string "abc") "docs/a.txt")] ∧
  versions (fst (storeFile no_faults "docs/a.txt"
                   (fst (storeFile no_faults "docs/a.txt" example_world))))
    = versions (fst (storeFile no_faults "docs/a.txt" example_world)).
Proof.
  apply (store_same_content_again no_faults no_faults "docs/a.txt" "docs/a.txt" example_world);
    reflexivity.
Defined.

(** C1, as the claim states it, fails: two stores of the same file leave one
    version row, not two, next to the two actions. *)
Lemma duplicate_store_appends_no_version :
  map action_type
    (actions (fst (storeFile no_faults "docs/a.txt"
                     (fst (storeFile no_faults "docs/a.txt" example_world)))))
    = ["store"; "store_duplicate"]%string ∧
  versions (fst (storeFile no_faults "docs/a.txt"
                   (fst (storeFile no_faults "docs/a.txt" example_world))))
    = [mkVersion "a.txt"
         1 "ba7816bf8f01cfea414140de5dae2223b00361a396177a9cb410ff61f20015ad"] ∧
  version_seq "a.txt"
    (versions (fst (storeFile no_faults "docs/a.txt"
                      (fst (storeFile no_faults "docs/a.txt" example_world)))))
    ≠ [1; 2]%Z.
Proof. vm_compute. repeat split. discriminate. Qed.

(** ** The digest of a file *)

(** C3. Hashing a regular file answers the hex form of the SHA-256 of its
    bytes, 64 hex digits, and changes nothing; the answer is a function of
    the bytes alone, so any path, in any world, under any oracle, that holds
    the same bytes and can be hashed gets the same answer. *)
Theorem hashFile_depends_on_bytes_only fl path w data :
  fs w !! path = Some (File data) →
  fails fl (OpHashOpen path) = false →
  fails fl (OpHashRead path) = false →
  hashFile fl path w = (w, Ok (digest data)) ∧
  String.length (digest data) = 64 ∧
  Forall (λ c, is_hex c = true) (list_ascii_of_string (digest data)) ∧
  (∀ fl' path' w' w'' h,
     fs w' !! path' = Some (File data) →
     hashFile fl' path' w' = (w'', Ok h) →
     h = digest data).
Proof.
  intros Hf Ho Hr. split; [| split; [| split]].
  - by rewrite hashFile_eq, Ho, Hf, Hr.
  - apply digest_length.
  - apply digest_is_hex.
  - intros fl' path' w' w'' h Hf' Hh.
    apply hashFile_ok_inv in Hh as (_ & _ & _ & data' & Hd & ->). congruence.
Qed.

Lemma hashFile_depends_on_bytes_only_witness :
  hashFile no_faults "docs/a.txt" example_world
    = (example_world, Ok (digest (bytes_of_string "abc"))) ∧
  String.length (digest (bytes_of_string "abc")) = 64 ∧
  Forall (λ c, is_hex c = true) (list_ascii_of_string (digest (bytes_of_string "abc"))) ∧
  (∀ fl' path' w' w'' h,
     fs w' !! path' = Some (File (bytes_of_string "abc")) →
     hashFile fl' path' w' = (w'', Ok h) →
     h = digest (bytes_of_string "abc")).
Proof.
  apply (hashFile_depends_on_bytes_only no_faults "docs/a.txt" example_world); reflexivity.
Defined.

(** ** The version ledger *)

Lemma rows_of_app f vs us : rows_of f (vs ++ us) = rows_of f vs ++ rows_of f us.
Proof. unfold rows_of. apply filter_app. Qed.

Lemma rows_of_length f vs : length (rows_of f vs) ≤ length vs.
Proof. unfold rows_of. apply length_filter. Qed.

Lemma fold_max_counting a n :
  fold_left Z.max (map Z.of_nat (seq (S a) n)) (Z.of_nat a) = Z.of_nat (a + n).
Proof.
  revert a. induction n as [|n IH]; intros a; cbn [seq map fold_left].
  - f_equal. lia.
  - replace (Z.max (Z.of_nat a) (Z.of_nat (S a))) with (Z.of_nat (S a)) by lia.
    rewrite IH. f_equal. lia.
Qed.

Lemma greatest_counting n :
  greatest (counting n) = match n with O => None | S _ => Some (Z.of_nat n) end.
Proof.
  destruct n as [|n]; [done |]. unfold counting. simpl.
  change 1%Z with (Z.of_nat 1). by rewrite fold_max_counting.
Qed.

Lemma counting_snoc n : counting (S n) = counting n ++ [Z.of_nat (S n)].
Proof. unfold counting. by rewrite seq_S, map_app. Qed.

Lemma wrap64_small z : (- 2 ^ 63 ≤ z < 2 ^ 63)%Z → wrap64 z = z.
Proof. intros H. unfold wrap64. rewrite Z.mod_small; lia. Qed.

Lemma next_version_counts f vs :
  ledger_ok vs → (Z.of_nat (length vs) < 2 ^ 63 - 1)%Z →
  next_version f vs = Z.of_nat (S (length (rows_of f vs))).
Proof.
  intros Hok Hlen. unfold next_version, select_last_version.
  fold (version_seq f vs). rewrite (Hok f), greatest_counting.
  pose proof (rows_of_length f vs) as Hle.
  unfold int_add. destruct (length (rows_of f vs)) as [|n] eqn:E; simpl default.
  - by rewrite wrap64_small.
  - rewrite wrap64_small; lia.
Qed.

Lemma ledger_ok_append f h vs :
  ledger_ok vs → (Z.of_nat (length vs) < 2 ^ 63 - 1)%Z →
  ledger_ok (vs ++ [mkVersion f (next_version f vs) h]).
Proof.
  intros Hok Hlen g. unfold version_seq. rewrite rows_of_app, map_app, length_app.
  fold (version_seq g vs). rewrite (Hok g). unfold rows_of at 2 4.
  rewrite filter_cons, filter_nil. simpl v_filename.
  destruct (decide (f = g)) as [<- | Hne].
  - simpl. rewrite Nat.add_1_r, counting_snoc. by rewrite next_version_counts.
  - simpl. by rewrite Nat.add_0_r, app_nil_r.
Qed.

(** The two statements of [logVersion_step], run back to back, are
    [logVersion]. *)
Lemma logVersion_is_two_steps fl f h w :
  logVersion fl f h w =
  let '(pc1, w1) := logVersion_step fl f h LVSelect w in
  let '(pc2, w2) := logVersion_step fl f h pc1 w1 in
  (w2, match pc2 with
       | LVDone (Some e) => Err e
       | _ => Ok tt
       end).
Proof.
  rewrite logVersion_eq. unfold next_version. simpl.
  destruct (fails fl (OpSelectVersion f)); [done |].
  destruct (select_last_version f (versions w)); simpl;
    by destruct (fails fl (OpInsertVersion f)).
Qed.

(** C2, as the claim states it, fails: two callers of [logVersion] for one
    filename whose SELECTs both run before either INSERT write version 1
    twice. *)
Lemma concurrent_stores_repeat_a_version :
  version_seq "f"
    (versions (snd (logVersion_concurrent [false; true; false; true] no_faults
                      (mkLVcall "f" "h1") (mkLVcall "f" "h2") (mkWorld ∅ [] []))))
    = [1; 1]%Z ∧
  ¬ ledger_ok
      (versions (snd (logVersion_concurrent [false; true; false; true] no_faults
                        (mkLVcall "f" "h1") (mkLVcall "f" "h2") (mkWorld ∅ [] [])))).
Proof.
  split; [reflexivity |].
  intros H. specialize (H "f"%string). vm_compute in H. discriminate.
Qed.

(** ** The sweep *)

Lemma walk_entries_cons {S} fl p rest (fn : S → string → FileInfo → option error → IO S) s w :
  walk_entries fl (p :: rest) fn s w =
  match walk_visit fl fn s p w with
  | (w', Ok s') => walk_entries fl rest fn s' w'
  | (w', Err e) => (w', Err e)
  end.
Proof. reflexivity. Qed.

Lemma walk_entries_app {S} fl l1 l2 (fn : S → string → FileInfo → option error → IO S) s w :
  walk_entries fl (l1 ++ l2) fn s w =
  match walk_entries fl l1 fn s w with
  | (w', Ok s') => walk_entries fl l2 fn s' w'
  | (w', Err e) => (w', Err e)
  end.
Proof.
  revert s w. induction l1 as [|p l1 IH]; intros s w; [done |].
  rewrite <- app_comm_cons, !walk_entries_cons.
  destruct (walk_visit fl fn s p w) as [w' [s'|e]]; [apply IH | done].
Qed.

(** One visit of the sweep, case by case. *)
Lemma dedup_visit_eq fl hashes path w :
  walk_visit fl (dedupVisit fl) hashes path w =
  match fs w !! path with
  | None => (w, Err (SysError (OpWalk path)))
  | Some n =>
      if fails fl (OpWalk path) then (w, Err (SysError (OpWalk path)))
      else match n with
           | Directory => (w, Ok hashes)
           | File data =>
               if fails fl (OpHashOpen path)
               then (w, Err (Errorf "failed to open file" (SysError (OpHashOpen path))))
               else if fails fl (OpHashRead path)
               then (w, Err (Errorf "failed to hash file" (SysError (OpHashRead path))))
               else match hashes !! digest data with
                    | None => (w, Ok (<[digest data := path]> hashes))
                    | Some _ =>
                        if fails fl (OpRemove path)
                        then (w, Err (SysError (OpRemove path)))
                        else if fails fl (OpInsertAction path)
                        then (set_fs (delete path) w, Err (SysError (OpInsertAction path)))
                        else (insert_action (mkAction "deduplicate" path EmptyString)
                                (set_fs (delete path) w), Ok hashes)
                    end
           end
  end.
Proof.
  unfold walk_visit. rewrite bind_eq. unfold get at 1. cbv iota.
  destruct (fs w !! path) as [n|] eqn:Hp; [| done].
  destruct (fails fl (OpWalk path)); [done |].
  destruct n as [data|]; [| done].
  unfold dedupVisit, info_of, IsDir. cbn [negb]. cbv iota.
  rewrite bind_eq, hashFile_eq, Hp.
  destruct (fails fl (OpHashOpen path)); [done |].
  destruct (fails fl (OpHashRead path)); [done |].
  destruct (hashes !! digest data) as [orig|]; [| done].
  rewrite bind_eq, os_Remove_eq, Hp.
  destruct (fails fl (OpRemove path)); [done |].
  rewrite bind_eq, logAction_eq.
  by destruct (fails fl (OpInsertAction path)).
Qed.

Lemma dedup_visit_ok fl hashes path w w' hashes' :
  walk_visit fl (dedupVisit fl) hashes path w = (w', Ok hashes') →
  (fs w !! path = Some Directory ∧ w' = w ∧ hashes' = hashes) ∨
  (∃ data, fs w !! path = Some (File data) ∧ hashes !! digest data = None ∧
           w' = w ∧ hashes' = <[digest data := path]> hashes) ∨
  (∃ data orig, fs w !! path = Some (File data) ∧ hashes !! digest data = Some orig ∧
           w' = insert_action (mkAction "deduplicate" path EmptyString) (set_fs (delete path) w) ∧
           hashes' = hashes).
Proof.
  rewrite dedup_visit_eq.
  destruct (fs w !! path) as [[data|]|]; [| | done];
    (destruct (fails fl (OpWalk path)); [done |]).
  - destruct (fails fl (OpHashOpen path)); [done |].
    destruct (fails fl (OpHashRead path)); [done |].
    destruct (hashes !! digest data) as [orig|] eqn:Hh.
    + destruct (fails fl (OpRemove path)); [done |].
      destruct (fails fl (OpInsertAction path)); [done |].
      intros [= <- <-]. right; right. eauto 10.
    + intros [= <- <-]. right; left. eauto 10.
  - intros [= <- <-]. by left.
Qed.

(** A visit that meets no digest it has seen leaves files and tables as they
    are, whatever fails. *)
Lemma dedup_visit_fresh fl hashes path w :
  (∀ data, fs w !! path = Some (File data) → hashes !! digest data = None) →
  fst (walk_visit fl (dedupVisit fl) hashes path w) = w ∧
  ∀ hashes', snd (walk_visit fl (dedupVisit fl) hashes path w) = Ok hashes' →
    hashes' = hashes ∨
    ∃ data, fs w !! path = Some (File data) ∧ hashes' = <[digest data := path]> hashes.
Proof.
  intros Hfresh. rewrite dedup_visit_eq.
  destruct (fs w !! path) as [[data|]|] eqn:Hp; [| | done];
    (destruct (fails fl (OpWalk path)); [done |]).
  - destruct (fails fl (OpHashOpen path)); [done |].
    destruct (fails fl (OpHashRead path)); [done |].
    rewrite (Hfresh data eq_refl). simpl. split; [done |].
    intros ? [= <-]. right. eauto.
  - simpl. split; [done |]. intros ? [= <-]. by left.
Qed.

(** The sweep never touches the version ledger. *)
Lemma dedup_visit_versions fl hashes path w :
  versions (fst (walk_visit fl (dedupVisit fl) hashes path w)) = versions w.
Proof.
  rewrite dedup_visit_eq.
  destruct (fs w !! path) as [[data|]|]; [| | done];
    (destruct (fails fl (OpWalk path)); [done |]); [| done].
  destruct (fails fl (OpHashOpen path)); [done |].
  destruct (fails fl (OpHashRead path)); [done |].
  destruct (hashes !! digest data); [| done].
  destruct (fails fl (OpRemove path)); [done |].
  by destruct (fails fl (OpInsertAction path)).
Qed.

Lemma walk_entries_versions fl entries hashes w :
  versions (fst (walk_entries fl entries (dedupVisit fl) hashes w)) = versions w.
Proof.
  revert hashes w. induction entries as [|p rest IH]; intros hashes w; [done |].
  rewrite walk_entries_cons.
  pose proof (dedup_visit_versions fl hashes p w) as Hv.
  destruct (walk_visit fl (dedupVisit fl) hashes p w) as [w' [s'|e]]; simpl in Hv.
  - by rewrite IH.
  - done.
Qed.

(** *** The order of the walk *)

Lemma walk_order_NoDup d w : NoDup (walk_order d w).
Proof.
  unfold walk_order. destruct (fs w !! d) as [[data|]|].
  - apply NoDup_singleton.
  - rewrite merge_sort_Permutation. apply NoDup_filter, NoDup_elements.
  - apply NoDup_singleton.
Qed.

Lemma elem_of_walk_order d w p :
  p ∈ walk_order d w ↔
  match fs w !! d with
  | Some Directory => under d p = true ∧ is_Some (fs w !! p)
  | _ => p = d
  end.
Proof.
  unfold walk_order. destruct (fs w !! d) as [[data|]|].
  - apply list_elem_of_singleton.
  - rewrite merge_sort_Permutation, list_elem_of_filter, elem_of_elements, elem_of_dom. done.
  - apply list_elem_of_singleton.
Qed.

Lemma elem_of_regular_files d w p :
  p ∈ regular_files d w ↔ is_file w p = true ∧ p ∈ walk_order d w.
Proof. unfold regular_files. by rewrite list_elem_of_filter. Qed.


Lemma is_file_true w p : is_file w p = true ↔ ∃ data, fs w !! p = Some (File data).
Proof.
  unfold is_file. destruct (fs w !! p) as [[data|]|]; split; eauto; try done.
  - by intros [? ?].
  - by intros [? ?].
Qed.

(** Files that are still there after some were removed were met by the walk
    before the removal. *)
Lemma walk_order_mono d w w' p :
  (∀ q n, fs w' !! q = Some n → fs w !! q = Some n) →
  p ∈ walk_order d w' → is_Some (fs w' !! p) → p ∈ walk_order d w.
Proof.
  intros Hsub Hin [n Hp]. rewrite elem_of_walk_order in Hin |- *.
  destruct (fs w' !! d) as [[data|]|] eqn:Hd.
  - subst p. apply Hsub in Hd. by rewrite Hd.
  - apply Hsub in Hd. rewrite Hd. destruct Hin as [Hu _]. split; [done |]. eauto.
  - subst p. congruence.
Qed.

(** *** First sweep: what is kept is indexed under its digest *)

Lemma walk_indexes_survivors fl entries seen hashes w w' hashes' :
  NoDup entries →
  (∀ p, p ∈ entries → p ∉ seen) →
  indexed w hashes seen →
  walk_entries fl entries (dedupVisit fl) hashes w = (w', Ok hashes') →
  indexed w' hashes' (seen ++ entries) ∧
  (∀ q n, fs w' !! q = Some n → fs w !! q = Some n).
Proof.
  revert seen hashes w. induction entries as [|p rest IH]; intros seen hashes w Hnd Hnew Hidx Hrun.
  { simpl in Hrun. injection Hrun as <- <-. by rewrite app_nil_r. }
  rewrite walk_entries_cons in Hrun.
  destruct (walk_visit fl (dedupVisit fl) hashes p w) as [w1 [h1|e]] eqn:Hv; [| done].
  apply NoDup_cons in Hnd as [Hp Hnd].
  assert (∀ q, q ∈ rest → q ∉ seen ++ [p]) as Hnew'.
  { intros q Hq. rewrite elem_of_app, list_elem_of_singleton.
    intros [Hs | ->]; [| done]. eapply Hnew; [| done]. by right. }
  assert (p ∉ seen) as Hps by (apply Hnew; by left).
  assert (indexed w1 h1 (seen ++ [p]) ∧ ∀ q n, fs w1 !! q = Some n → fs w !! q = Some n)
    as [Hidx1 Hsub1].
  { apply dedup_visit_ok in Hv
      as [(Hdir & -> & ->) | [(data & Hf & Hnone & -> & ->) | (data & orig & Hf & Hsome & -> & ->)]].
    - split; [| done]. intros q dq Hq Hfq.
      apply elem_of_app in Hq as [Hq | Hq%list_elem_of_singleton]; [by eapply Hidx |].
      subst q. congruence.
    - split; [| done]. intros q dq Hq Hfq.
      apply elem_of_app in Hq as [Hq | Hq%list_elem_of_singleton].
      + pose proof (Hidx q dq Hq Hfq) as Hl.
        rewrite lookup_insert_ne; [done |]. intros Heq. rewrite Heq in Hnone. congruence.
      + subst q. rewrite Hf in Hfq. injection Hfq as <-. by rewrite lookup_insert_eq.
    - split.
      + intros q dq Hq Hfq. simpl in Hfq.
        destruct (decide (p = q)) as [<- | Hne]; [by rewrite lookup_delete_eq in Hfq |].
        rewrite lookup_delete_ne in Hfq by done.
        apply elem_of_app in Hq as [Hq | Hq%list_elem_of_singleton]; [by eapply Hidx | done].
      + intros q n. simpl. intros Hq. apply lookup_delete_Some in Hq as [_ Hq]. done. }
  destruct (IH (seen ++ [p]) h1 w1 Hnd Hnew' Hidx1 Hrun) as [Hidx' Hsub'].
  split.
  - by rewrite <- app_assoc in Hidx'.
  - eauto.
Qed.

Lemma dedupWalk_eq fl d w :
  dedupWalk fl d w = walk_entries fl (walk_order d w) (dedupVisit fl) ∅ w.
Proof. reflexivity. Qed.

(** After a sweep that met no error, the files a new walk will meet have
    pairwise distinct digests, and nothing but removals happened. *)
Lemma sweep_leaves_distinct_digests fl d w w' hashes :
  dedupWalk fl d w = (w', Ok hashes) →
  distinct_digests w' (walk_order d w') ∧
  (∀ q n, fs w' !! q = Some n → fs w !! q = Some n).
Proof.
  rewrite dedupWalk_eq. intros Hrun.
  apply (walk_indexes_survivors fl _ []) in Hrun as [Hidx Hsub].
  - split; [| done]. intros p q dp dq Hp Hq Hfp Hfq Heq.
    assert (p ∈ walk_order d w) as Hp' by (eapply walk_order_mono; eauto).
    assert (q ∈ walk_order d w) as Hq' by (eapply walk_order_mono; eauto).
    pose proof (Hidx p dp Hp' Hfp) as H1. pose proof (Hidx q dq Hq' Hfq) as H2.
    rewrite Heq in H1. congruence.
  - apply walk_order_NoDup.
  - intros p _. apply not_elem_of_nil.
  - intros p data Hp. by apply elem_of_nil in Hp.
Qed.

(** *** Second sweep: nothing to remove *)

Lemma walk_without_duplicates fl entries hashes w :
  NoDup entries →
  distinct_digests w entries →
  (∀ q data, q ∈ entries → fs w !! q = Some (File data) → hashes !! digest data = None) →
  fst (walk_entries fl entries (dedupVisit fl) hashes w) = w.
Proof.
  revert hashes. induction entries as [|p rest IH]; intros hashes Hnd Hdist Hfresh; [done |].
  rewrite walk_entries_cons.
  apply NoDup_cons in Hnd as [Hp Hnd].
  destruct (dedup_visit_fresh fl hashes p w) as [Hw Hh].
  { intros data Hf. eapply Hfresh; [by left | done]. }
  destruct (walk_visit fl (dedupVisit fl) hashes p w) as [w1 [h1|e]]; simpl in Hw; subst w1;
    [| done].
  apply IH; [done | |].
  - intros a b da db Ha Hb. apply Hdist; by right.
  - intros q dq Hq Hfq.
    destruct (Hh h1 eq_refl) as [-> | (data & Hf & ->)].
    + eapply Hfresh; [by right | done].
    + rewrite lookup_insert_ne; [eapply Hfresh; [by right | done] |].
      intros Heq. assert (p = q) as <-; [| done].
      eapply Hdist; [by left | by right | done | done | done].
Qed.

(** *** The caller and the goroutine *)

Arguments dedupWalk : simpl never.

Lemma sweep_inv_init fl d w : sweep_inv fl d w (mkConfig w MStart WWalk None).
Proof. left. by repeat split. Qed.

Lemma worker_step_inv fl d w c :
  sweep_inv fl d w c → sweep_inv fl d w (worker_step fl d c).
Proof.
  unfold sweep_inv, worker_step. destruct c as [cw cm cwk cch]; simpl.
  intros [(-> & -> & -> & Hm) | (Hpc & -> & He & Hch & Hm)].
  - destruct (dedupWalk fl d w) as [w' [h|e]] eqn:Hrun; right; simpl; naive_solver.
  - destruct cwk as [| e | | |]; destruct cm as [| | r]; simpl;
      first [done | right; naive_solver].
Qed.

Lemma main_step_inv fl d w pick c :
  sweep_inv fl d w c → sweep_inv fl d w (main_step pick c).
Proof.
  unfold sweep_inv, main_step. destruct c as [cw cm cwk cch]; simpl.
  intros [(-> & -> & -> & Hm) | (Hpc & -> & He & Hch & Hm)].
  - destruct cm; simpl; left; naive_solver.
  - destruct cm as [| | r]; [| right; naive_solver | right; naive_solver].
    destruct cch as [e|]; destruct cwk; try destruct pick; simpl;
      first [done | right; naive_solver].
Qed.

Lemma sweep_inv_run fl d w sched c :
  sweep_inv fl d w c → sweep_inv fl d w (fold_left (sched_step fl d) sched c).
Proof.
  revert c. induction sched as [|ch sched IH]; intros c Hinv; [done |].
  simpl. apply IH. destruct ch as [pick|]; simpl.
  - by apply main_step_inv.
  - by apply worker_step_inv.
Qed.

Lemma deduplicateFiles_inv sched fl d w : sweep_inv fl d w (deduplicateFiles sched fl d w).
Proof. apply sweep_inv_run, sweep_inv_init. Qed.

(** When the call has returned the walk is over, and an error it returns is
    the one the walk ended with. *)
Lemma deduplicateFiles_returned sched fl d w r :
  mainpc (deduplicateFiles sched fl d w) = MReturned r →
  world (deduplicateFiles sched fl d w) = fst (dedupWalk fl d w) ∧
  (∀ e, r = Some e → snd (dedupWalk fl d w) = Err e).
Proof.
  intros Hret.
  destruct (deduplicateFiles_inv sched fl d w) as [(_ & _ & _ & Hm) | (_ & Hw & _ & _ & Hm)].
  - by apply Hm in Hret.
  - split; [done |]. intros e ->. by apply Hm.
Qed.

Lemma deduplicateFiles_world sched fl d w :
  world (deduplicateFiles sched fl d w) = w ∨
  world (deduplicateFiles sched fl d w) = fst (dedupWalk fl d w).
Proof.
  destruct (deduplicateFiles_inv sched fl d w) as [(_ & Hw & _) | (_ & Hw & _)]; auto.
Qed.

(** When the caller waits in [select] before the goroutine is through, it
    returns what the walk ended with. *)

Lemma worker_step_walk fl d w m ch :
  worker_step fl d (mkConfig w m WWalk ch) =
  match dedupWalk fl d w with
  | (w', Ok _) => mkConfig w' m WSendDone ch
  | (w', Err e) => mkConfig w' m (WSendErr e) ch
  end.
Proof. reflexivity. Qed.

(** When the caller waits in [select] before the goroutine is through, it
    returns what the walk ended with. *)
Lemma caller_waits_returns_walk_result fl d w :
  mainpc (deduplicateFiles caller_waits fl d w)
    = MReturned (match snd (dedupWalk fl d w) with Ok _ => None | Err e => Some e end) ∧
  world (deduplicateFiles caller_waits fl d w) = fst (dedupWalk fl d w).
Proof.
  unfold deduplicateFiles, caller_waits. cbn [fold_left sched_step].
  change (main_step PickErr (mkConfig w MStart WWalk None))
    with (mkConfig w MParked WWalk None).
  rewrite worker_step_walk.
  destruct (dedupWalk fl d w) as [w' [h|e]]; split; reflexivity.
Qed.

(** The walk stops at the first visit that fails and answers its error; what
    the earlier visits removed stays removed. *)
Lemma walk_stops_at_first_error fl l1 p l2 hashes w w1 h1 w2 e :
  walk_entries fl l1 (dedupVisit fl) hashes w = (w1, Ok h1) →
  walk_visit fl (dedupVisit fl) h1 p w1 = (w2, Err e) →
  walk_entries fl (l1 ++ p :: l2) (dedupVisit fl) hashes w = (w2, Err e).
Proof.
  intros H1 Hp. by rewrite walk_entries_app, H1, walk_entries_cons, Hp.
Qed.

(** If the goroutine is through both sends before the caller reaches
    [select] and the runtime picks [done], a walk that failed is reported as
    a success. *)
Lemma goroutine_first_loses_error fl d w e :
  snd (dedupWalk fl d w) = Err e →
  mainpc (deduplicateFiles (goroutine_first PickDone) fl d w) = MReturned None ∧
  mainpc (deduplicateFiles (goroutine_first PickErr) fl d w) = MReturned (Some e).
Proof.
  intros Herr. unfold deduplicateFiles, goroutine_first. cbn [fold_left sched_step].
  rewrite !worker_step_walk.
  destruct (dedupWalk fl d w) as [w' [h|e']]; [done |]. simpl in Herr.
  injection Herr as ->. split; reflexivity.
Qed.

(** C7: the error of the walk can be lost. The walk removes [d/b.txt], fails
    on [d/c.txt], stops there (the copy [d/d.txt] is not visited) and ends
    with that error; what it removed stays removed. A caller that waits in
    [select] first gets the error. But if the goroutine gets through both
    sends before the caller reaches [select], both cases are ready, and the
    caller may take [done] and report success. *)
Theorem sweep_can_report_success_after_error :
  snd (dedupWalk c_unreadable "d" sweep_world)
    = Err (Errorf "failed to hash file" (SysError (OpHashRead "d/c.txt"))) ∧
  fs (fst (dedupWalk c_unreadable "d" sweep_world))
    = delete "d/b.txt"%string (fs sweep_world) ∧
  actions (fst (dedupWalk c_unreadable "d" sweep_world))
    = [mkAction "deduplicate" "d/b.txt" EmptyString] ∧
  mainpc (deduplicateFiles caller_waits c_unreadable "d" sweep_world)
    = MReturned (Some (Errorf "failed to hash file" (SysError (OpHashRead "d/c.txt")))) ∧
  mainpc (deduplicateFiles (goroutine_first PickErr) c_unreadable "d" sweep_world)
    = MReturned (Some (Errorf "failed to hash file" (SysError (OpHashRead "d/c.txt")))) ∧
  mainpc (deduplicateFiles (goroutine_first PickDone) c_unreadable "d" sweep_world)
    = MReturned None.
Proof. vm_compute. repeat split. Qed.

(** *** Two files with the same bytes *)










(** C5: a sweep that reports success can have left both copies. The first of
    two files with the same bytes cannot be read: the walk ends with that
    error on its first file, removes nothing and logs nothing. A caller that
    waits in [select] first gets the error. But if the goroutine gets through
    both sends before the caller reaches [select] and the runtime takes
    [done], the call answers [nil]: a sweep that the caller sees succeed,
    with both copies still there and no [deduplicate] row. It is the lost
    error of C7 seen from this claim. *)
Theorem sweep_reports_success_with_both_copies_left :
  regular_files "d" twins_world = ["d/a.txt"; "d/b.txt"]%string ∧
  snd (dedupWalk a_unreadable "d" twins_world)
    = Err (Errorf "failed to hash file" (SysError (OpHashRead "d/a.txt"))) ∧
  mainpc (deduplicateFiles caller_waits a_unreadable "d" twins_world)
    = MReturned (Some (Errorf "failed to hash file" (SysError (OpHashRead "d/a.txt")))) ∧
  mainpc (deduplicateFiles (goroutine_first PickDone) a_unreadable "d" twins_world)
    = MReturned None ∧
  fs (world (deduplicateFiles (goroutine_first PickDone) a_unreadable "d" twins_world))
    = fs twins_world ∧
  regular_files "d"
    (world (deduplicateFiles (goroutine_first PickDone) a_unreadable "d" twins_world))
    = ["d/a.txt"; "d/b.txt"]%string ∧
  actions (world (deduplicateFiles (goroutine_first PickDone) a_unreadable "d" twins_world))
    = [].
Proof. vm_compute. repeat split. Qed.

(** *** Sweeping twice *)

(** X30. After a sweep of a plain directory whose walk met no error and that
    has returned, the regular files of the directory have pairwise distinct
    digests, and a second sweep of the directory, under any schedule and
    whatever fails in it, leaves the world as the first sweep left it: no
    file is removed, no action is appended. *)
Theorem second_sweep_changes_nothing sched1 sched2 fl1 fl2 directory w hashes r :
  plain directory = true →
  snd (dedupWalk fl1 directory w) = Ok hashes →
  mainpc (deduplicateFiles sched1 fl1 directory w) = MReturned r →
  r = None ∧
  distinct_digests (world (deduplicateFiles sched1 fl1 directory w))
    (regular_files directory (world (deduplicateFiles sched1 fl1 directory w))) ∧
  world (deduplicateFiles sched2 fl2 directory (world (deduplicateFiles sched1 fl1 directory w)))
    = world (deduplicateFiles sched1 fl1 directory w) ∧
  fst (dedupWalk fl2 directory (world (deduplicateFiles sched1 fl1 directory w)))
    = world (deduplicateFiles sched1 fl1 directory w).
Proof.
  intros _ Hok Hret.
  apply deduplicateFiles_returned in Hret as [Hw Herr]. rewrite Hw.
  destruct (dedupWalk fl1 directory w) as [w1 r1] eqn:Hrun. simpl in Hok, Herr |- *. subst r1.
  destruct (sweep_leaves_distinct_digests _ _ _ _ _ Hrun) as [Hdist Hsub].
  assert (fst (dedupWalk fl2 directory w1) = w1) as Hsecond.
  { rewrite dedupWalk_eq. apply walk_without_duplicates.
    - apply walk_order_NoDup.
    - done.
    - intros q data _ _. apply lookup_empty. }
  split. { destruct r as [e|]; [| done]. by specialize (Herr e eq_refl). }
  split.
  { intros p q dp dq Hp Hq. apply Hdist.
    - by apply elem_of_regular_files in Hp as [_ Hp].
    - by apply elem_of_regular_files in Hq as [_ Hq]. }
  split; [| done].
  destruct (deduplicateFiles_world sched2 fl2 directory w1) as [-> | ->]; done.
Qed.

Lemma second_sweep_changes_nothing_witness :
  (None : option error) = None ∧
  distinct_digests (world (deduplicateFiles caller_waits no_faults "d" twins_world))
    (regular_files "d" (world (deduplicateFiles caller_waits no_faults "d" twins_world))) ∧
  world (deduplicateFiles caller_waits no_faults "d"
           (world (deduplicateFiles caller_waits no_faults "d" twins_world)))
    = world (deduplicateFiles caller_waits no_faults "d" twins_world) ∧
  fst (dedupWalk no_faults "d" (world (deduplicateFiles caller_waits no_faults "d" twins_world)))
    = world (deduplicateFiles caller_waits no_faults "d" twins_world).
Proof.
  apply (second_sweep_changes_nothing caller_waits caller_waits no_faults no_faults "d"
           twins_world {[digest (bytes_of_string "abc") := "d/a.txt"%string]}).
  - vm_compute. reflexivity.
  - vm_compute. reflexivity.
  - vm_compute. reflexivity.
Defined.

(** C6: a second sweep after a first that reports success can still remove a
    file. In the first sweep the walk removes [d/b.txt], fails on [d/c.txt]
    and never visits the copy [d/d.txt]; when the goroutine is through both
    sends before the caller reaches [select] and the runtime takes [done],
    the call answers [nil]. After this sweep that the caller sees succeed,
    [d/a.txt] and [d/d.txt] hold the same bytes; a second sweep, in which the
    file can be read, removes [d/d.txt] and appends a row. It is the lost
    error of C7 seen from this claim. *)
Theorem second_sweep_after_lost_error_removes_a_file :
  mainpc (deduplicateFiles (goroutine_first PickDone) c_unreadable "d" sweep_world)
    = MReturned None ∧
  regular_files "d"
    (world (deduplicateFiles (goroutine_first PickDone) c_unreadable "d" sweep_world))
    = ["d/a.txt"; "d/c.txt"; "d/d.txt"]%string ∧
  fs (world (deduplicateFiles (goroutine_first PickDone) c_unreadable "d" sweep_world))
     !! "d/a.txt"%string = Some (File (bytes_of_string "abc")) ∧
  fs (world (deduplicateFiles (goroutine_first PickDone) c_unreadable "d" sweep_world))
     !! "d/d.txt"%string = Some (File (bytes_of_string "abc")) ∧
  mainpc (deduplicateFiles caller_waits no_faults "d"
            (world (deduplicateFiles (goroutine_first PickDone) c_unreadable "d" sweep_world)))
    = MReturned None ∧
  fs (world (deduplicateFiles caller_waits no_faults "d"
               (world (deduplicateFiles (goroutine_first PickDone) c_unreadable "d"
                         sweep_world))))
     !! "d/d.txt"%string = None ∧
  actions (world (deduplicateFiles caller_waits no_faults "d"
                    (world (deduplicateFiles (goroutine_first PickDone) c_unreadable "d"
                              sweep_world))))
    = actions (world (deduplicateFiles (goroutine_first PickDone) c_unreadable "d"
                        sweep_world))
      ++ [mkAction "deduplicate" "d/d.txt" EmptyString].
Proof. vm_compute. repeat split. Qed.

(** ** Calls one after the other *)

Lemma store_outcome_versions fl p w w' r :
  store_outcome fl p w w' r →
  versions w' = versions w ∨
  ∃ h, versions w' =
       versions w ++ [mkVersion (filepath_Base p) (next_version (filepath_Base p) (versions w)) h].
Proof.
  intros H.
  inversion H as [| w1 Hp | w1 e Hp | w1 data [Hp _] | w1 data [Hp _] | w1 data [Hp _]
                  | w1 data [Hp _] | w1 data w2 r2 [Hp _] Hb Hc Hd Hcp Hl]; subst;
    try (destruct (prepared_records _ _ _ Hp) as [Ha Hv]); auto.
  inversion Hl; subst; simpl; rewrite ?Hv; eauto.
Qed.

Lemma deduplicateFiles_versions sched fl d w :
  versions (world (deduplicateFiles sched fl d w)) = versions w.
Proof.
  destruct (deduplicateFiles_world sched fl d w) as [-> | ->]; [done |].
  rewrite dedupWalk_eq. apply walk_entries_versions.
Qed.

Lemma run_call_ledger w c :
  ledger_ok (versions w) →
  (Z.of_nat (length (versions w)) < 2 ^ 63 - 1)%Z →
  ledger_ok (versions (run_call w c)) ∧
  length (versions (run_call w c)) ≤ S (length (versions w)).
Proof.
  intros Hok Hlen. destruct c as [fl p | sched fl d]; simpl.
  - destruct (store_outcome_versions _ _ _ _ _ (storeFile_outcome fl p w)) as [-> | [h ->]].
    + split; [done | lia].
    + split; [by apply ledger_ok_append |]. rewrite length_app. simpl. lia.
  - rewrite deduplicateFiles_versions. split; [done | lia].
Qed.

(** C2, as the code has it. Through any sequence of stores and sweeps that
    run one after the other, the versions of every filename, in insertion
    order, stay 1, 2, 3, … without gap or repeat (as long as the ledger is
    short of 2^63 rows, where the 64-bit version would wrap). *)
Theorem sequential_calls_count_versions cs w :
  ledger_ok (versions w) →
  (Z.of_nat (length (versions w) + length cs) < 2 ^ 63)%Z →
  ledger_ok (versions (run_calls cs w)).
Proof.
  unfold run_calls. revert w. induction cs as [|c cs IH]; intros w Hok Hlen; [done |].
  simpl. simpl in Hlen.
  destruct (run_call_ledger w c Hok) as [Hok' Hlen']; [lia |].
  apply IH; [done | lia].
Qed.

Lemma sequential_calls_count_versions_witness :
  ledger_ok
    (versions (run_calls [CallStore no_faults "x/f.txt";
                          CallSweep caller_waits no_faults "x";
                          CallStore no_faults "y/f.txt"] namesakes_world)).
Proof.
  apply sequential_calls_count_versions.
  - intros f. reflexivity.
  - vm_compute. reflexivity.
Defined.

(** Two sources that share a base name share a version sequence. *)
Example namesakes_share_versions :
  version_seq "f.txt"
    (versions (run_calls [CallStore no_faults "x/f.txt"; CallStore no_faults "y/f.txt"]
                 namesakes_world))
    = [1; 2]%Z.
Proof. vm_compute. reflexivity. Qed.

(** * Further properties of the store *)

Lemma store_outcome_keeps fl p w w' r q n :
  store_outcome fl p w w' r → fs w !! q = Some n → fs w' !! q = Some n.
Proof.
  intros H Hq.
  inversion H as [| w1 Hp | w1 e Hp | w1 data [Hp _] | w1 data [Hp _] | w1 data [Hp _]
                  | w1 data [Hp _] Hb | w1 data w2 r2 [Hp _] Hb Hc Hd Hcp Hl]; subst;
    simpl; try (by eauto using prepared_lookup).
  - rewrite lookup_insert_ne; [eauto using prepared_lookup |].
    intros <-. apply (prepared_lookup _ _ _ _ _ Hp) in Hq. congruence.
  - apply store_logged_records in Hl as [Hfs _]. rewrite Hfs. simpl.
    rewrite lookup_insert_ne; [eauto using prepared_lookup |].
    intros <-. apply (prepared_lookup _ _ _ _ _ Hp) in Hq. congruence.
Qed.



(** X2. A store that succeeds where no blob was leaves, under the storage
    key, a blob with the bytes of the source, whose digest is the one in its
    name; it appends one [store] action and one version row, in that order of
    the code, under the base name. *)
Theorem storeFile_fresh_blob_holds_source fl filePath w w' key :
  storeFile fl filePath w = (w', Ok key) →
  fs w !! filepath_Join storageDir key = None →
  ∃ data,
    fs w !! filePath = Some (File data) ∧
    fs w' !! filepath_Join storageDir key = Some (File data) ∧
    hashFile no_faults (filepath_Join storageDir key) w' = (w', Ok (digest data)) ∧
    key = (digest data ++ filepath_Ext filePath)%string ∧
    actions w' = actions w ++ [mkAction "store" (filepath_Base filePath) key] ∧
    versions w' = versions w ++
      [mkVersion (filepath_Base filePath)
         (next_version (filepath_Base filePath) (versions w)) (digest data)].
Proof.
  intros H Hnone. apply storeFile_run in H.
  inversion H as [| | | | w1 data Hs Hb Ha | | | w1 data w2 r Hs Hb Hc Hd Hcp Hl]; subst.
  - exfalso. destruct Hs as [Hp _]. unfold blob_path in Hb.
    rewrite (prepared_blob _ _ _ _ Hp) in Hb. rewrite Hnone in Hb. by destruct Hb.
  - exists data. pose proof Hs as [Hp _]. inversion Hl; subst.
    destruct (prepared_records _ _ _ Hp) as [Ha Hv].
    assert (fs (insert_version
                  (mkVersion (filepath_Base filePath)
                     (next_version (filepath_Base filePath)
                        (versions (set_fs <[blob_path data filePath := File data]> w1)))
                     (digest data))
                  (insert_action
                     (mkAction "store" (filepath_Base filePath) (storage_key data filePath))
                     (set_fs <[blob_path data filePath := File data]> w1)))
              !! filepath_Join storageDir (storage_key data filePath) = Some (File data))
      as Hblob.
    { simpl. fold (blob_path data filePath). by rewrite lookup_insert_eq. }
    split; [eauto using sourced_file |]. split; [done |].
    split. { rewrite hashFile_eq, Hblob. reflexivity. }
    split; [done |]. simpl. by rewrite Ha, Hv.
Qed.

Lemma storeFile_fresh_blob_holds_source_witness :
  ∃ data,
    fs example_world !! "docs/a.txt"%string = Some (File data) ∧
    fs (fst (storeFile no_faults "docs/a.txt" example_world))
       !! filepath_Join storageDir (snd_key (storeFile no_faults "docs/a.txt" example_world))
      = Some (File data) ∧
    hashFile no_faults
      (filepath_Join storageDir (snd_key (storeFile no_faults "docs/a.txt" example_world)))
      (fst (storeFile no_faults "docs/a.txt" example_world))
      = (fst (storeFile no_faults "docs/a.txt" example_world), Ok (digest data)) ∧
    snd_key (storeFile no_faults "docs/a.txt" example_world)
      = (digest data ++ filepath_Ext "docs/a.txt")%string ∧
    actions (fst (storeFile no_faults "docs/a.txt" example_world))
      = actions example_world ++
        [mkAction "store" (filepath_Base "docs/a.txt")
           (snd_key (storeFile no_faults "docs/a.txt" example_world))] ∧
    versions (fst (storeFile no_faults "docs/a.txt" example_world))
      = versions example_world ++
        [mkVersion (filepath_Base "docs/a.txt")
           (next_version (filepath_Base "docs/a.txt") (versions example_world)) (digest data)].
Proof.
  apply (storeFile_fresh_blob_holds_source no_faults "docs/a.txt" example_world).
  - vm_compute. reflexivity.
  - vm_compute. reflexivity.
Defined.

(** Closing a goal over concrete worlds by evaluation. *)
Ltac evaluate :=
  try unfold source_readable;
  repeat match goal with |- _ ∧ _ => split end;
  vm_compute; first [reflexivity | discriminate | intros; first [reflexivity | discriminate]].

(** A store whose source can be read, by the state of the blob. *)
Lemma storeFile_readable fl p w data :
  source_readable fl p w data →
  ∃ w1, prepared fl w w1 ∧ sourced fl p w w1 data ∧
    match fs w !! blob_path data p with
    | Some _ =>
        if fails fl (OpInsertAction (filepath_Base p))
        then fst (storeFile fl p w) = w1 ∧
             snd (storeFile fl p w) = Err (SysError (OpInsertAction (filepath_Base p)))
        else fst (storeFile fl p w)
               = insert_action
                   (mkAction "store_duplicate" (filepath_Base p) (storage_key data p)) w1 ∧
             snd (storeFile fl p w) = Ok (storage_key data p)
    | None =>
        if fails fl (OpCreate (blob_path data p)) || negb (is_dir w1 storageDir)
        then fst (storeFile fl p w) = w1 ∧
             snd (storeFile fl p w)
               = Err (Errorf "failed to create destination file"
                        (SysError (OpCreate (blob_path data p))))
        else if fails fl (OpCopy (blob_path data p))
        then fst (storeFile fl p w)
               = set_fs <[blob_path data p :=
                            File (firstn (written fl (blob_path data p)) data)]> w1 ∧
             snd (storeFile fl p w)
               = Err (Errorf "failed to copy file" (SysError (OpCopy (blob_path data p))))
        else store_logged fl p data (set_fs <[blob_path data p := File data]> w1)
               (fst (storeFile fl p w)) (snd (storeFile fl p w))
    end.
Proof.
  intros Hr. exact (readable_outcome _ _ _ _ _ _ Hr (storeFile_outcome fl p w)).
Qed.

Lemma prepared_present fl w w1 : is_Some (fs w !! storageDir) → prepared fl w w1 → w1 = w.
Proof.
  intros [n Hn] [[_ ->] | (Hnone & _)]; [done | congruence].
Qed.

(** Where the blob path is taken and the source can be read, the store is a
    duplicate. *)
Lemma storeFile_over_taken_path fl p w data :
  fs w !! p = Some (File data) →
  is_Some (fs w !! storageDir) →
  is_Some (fs w !! blob_path data p) →
  fails fl (OpOpen p) = false →
  fails fl (OpHashOpen p) = false →
  fails fl (OpHashRead p) = false →
  fails fl (OpInsertAction (filepath_Base p)) = false →
  storeFile fl p w =
  (insert_action (mkAction "store_duplicate" (filepath_Base p) (storage_key data p)) w,
   Ok (storage_key data p)).
Proof.
  intros Hp Hroot [nb Hblob] Ho Hho Hhr Ha.
  destruct (storeFile_readable fl p w data) as (w1 & Hprep & _ & Hcase).
  { repeat split; try done. intros Hn. rewrite Hn in Hroot. by destruct Hroot. }
  rewrite Hblob, Ha in Hcase. apply (prepared_present _ _ _ Hroot) in Hprep as ->.
  destruct (storeFile fl p w) as [w' r]. simpl in Hcase. by destruct Hcase as [-> ->].
Qed.

(** X3. The blob is looked for by name only. After a copy that broke off,
    the bytes copied so far sit under the storage key; a new store of the
    same source then finds the name taken, answers the key as for a
    duplicate, and leaves the cut-off blob and the version ledger as they
    are. *)
Theorem store_again_after_broken_copy fl1 fl2 filePath w data :
  source_readable fl1 filePath w data →
  fs w !! blob_path data filePath = None →
  fails fl1 (OpCreate (blob_path data filePath)) = false →
  (∀ d, fs w !! storageDir ≠ Some (File d)) →
  fails fl1 (OpCopy (blob_path data filePath)) = true →
  fails fl2 (OpOpen filePath) = false →
  fails fl2 (OpHashOpen filePath) = false →
  fails fl2 (OpHashRead filePath) = false →
  fails fl2 (OpInsertAction (filepath_Base filePath)) = false →
  snd (storeFile fl2 filePath (fst (storeFile fl1 filePath w)))
    = Ok (storage_key data filePath) ∧
  fs (fst (storeFile fl2 filePath (fst (storeFile fl1 filePath w)))) !! blob_path data filePath
    = Some (File (firstn (written fl1 (blob_path data filePath)) data)) ∧
  versions (fst (storeFile fl2 filePath (fst (storeFile fl1 filePath w)))) = versions w ∧
  actions (fst (storeFile fl2 filePath (fst (storeFile fl1 filePath w))))
    = actions w ++
      [mkAction "store_duplicate" (filepath_Base filePath) (storage_key data filePath)].
Proof.
  intros Hr Hnone Hc Hroot Hcp Ho Hho Hhr Ha.
  destruct (storeFile_readable fl1 filePath w data Hr) as (w1 & Hprep & Hs & Hcase).
  rewrite Hnone in Hcase.
  assert (is_dir w1 storageDir = true) as Hd.
  { apply not_false_iff_true. intros E.
    apply (prepared_is_dir _ _ _ Hprep) in E as [d E]. by apply Hroot in E. }
  rewrite Hc, Hd, Hcp in Hcase. simpl in Hcase. destruct Hcase as [Hw1 _].
  rewrite Hw1. destruct (prepared_records _ _ _ Hprep) as [Hact Hver].
  destruct Hs as (_ & _ & Hsrc & _).
  assert (fs w1 !! blob_path data filePath = None) as Hnone1.
  { unfold blob_path. by rewrite (prepared_blob _ _ _ _ Hprep). }
  rewrite storeFile_over_taken_path with (data := data); try done.
  - simpl. rewrite lookup_insert_eq, Hact, Hver. done.
  - simpl. rewrite lookup_insert_ne; [done |]. intros E. congruence.
  - simpl. rewrite lookup_insert_ne by apply blob_not_root. eauto using prepared_root.
  - simpl. rewrite lookup_insert_eq. eauto.
Qed.

Lemma store_again_after_broken_copy_witness :
  snd (storeFile no_faults "docs/a.txt" (fst (storeFile copy_breaks "docs/a.txt" example_world)))
    = Ok (storage_key (bytes_of_string "abc") "docs/a.txt") ∧
  fs (fst (storeFile no_faults "docs/a.txt"
             (fst (storeFile copy_breaks "docs/a.txt" example_world))))
     !! blob_path (bytes_of_string "abc") "docs/a.txt"
    = Some (File (firstn (written copy_breaks (blob_path (bytes_of_string "abc") "docs/a.txt"))
                    (bytes_of_string "abc"))) ∧
  versions (fst (storeFile no_faults "docs/a.txt"
                   (fst (storeFile copy_breaks "docs/a.txt" example_world))))
    = versions example_world ∧
  actions (fst (storeFile no_faults "docs/a.txt"
                  (fst (storeFile copy_breaks "docs/a.txt" example_world))))
    = actions example_world ++
      [mkAction "store_duplicate" (filepath_Base "docs/a.txt")
         (storage_key (bytes_of_string "abc") "docs/a.txt")].
Proof.
  apply (store_again_after_broken_copy copy_breaks no_faults "docs/a.txt" example_world
           (bytes_of_string "abc")); try evaluate.
Defined.

(** X4. The blob is written before the two appends. When an append fails
    the store answers the error and the blob stays; a new store of the same
    source is then a duplicate, so the version row of the first attempt is
    never written. *)
Theorem store_again_after_failed_append fl1 fl2 filePath w data :
  source_readable fl1 filePath w data →
  fs w !! blob_path data filePath = None →
  fails fl1 (OpCreate (blob_path data filePath)) = false →
  (∀ d, fs w !! storageDir ≠ Some (File d)) →
  fails fl1 (OpCopy (blob_path data filePath)) = false →
  fails fl1 (OpInsertAction (filepath_Base filePath)) = true ∨
  fails fl1 (OpSelectVersion (filepath_Base filePath)) = true ∨
  fails fl1 (OpInsertVersion (filepath_Base filePath)) = true →
  fails fl2 (OpOpen filePath) = false →
  fails fl2 (OpHashOpen filePath) = false →
  fails fl2 (OpHashRead filePath) = false →
  fails fl2 (OpInsertAction (filepath_Base filePath)) = false →
  (∃ e, snd (storeFile fl1 filePath w) = Err e) ∧
  fs (fst (storeFile fl1 filePath w)) !! blob_path data filePath = Some (File data) ∧
  snd (storeFile fl2 filePath (fst (storeFile fl1 filePath w)))
    = Ok (storage_key data filePath) ∧
  versions (fst (storeFile fl2 filePath (fst (storeFile fl1 filePath w)))) = versions w.
Proof.
  intros Hr Hnone Hc Hroot Hcp Hfail Ho Hho Hhr Ha.
  destruct (storeFile_readable fl1 filePath w data Hr) as (w1 & Hprep & Hs & Hcase).
  rewrite Hnone in Hcase.
  assert (is_dir w1 storageDir = true) as Hd.
  { apply not_false_iff_true. intros E.
    apply (prepared_is_dir _ _ _ Hprep) in E as [d E]. by apply Hroot in E. }
  rewrite Hc, Hd, Hcp in Hcase. simpl in Hcase.
  destruct (prepared_records _ _ _ Hprep) as [Hact Hver].
  destruct Hs as (_ & _ & Hsrc & _).
  assert (fs w1 !! blob_path data filePath = None) as Hnone1.
  { unfold blob_path. by rewrite (prepared_blob _ _ _ _ Hprep). }
  destruct (storeFile fl1 filePath w) as [w' r]. simpl in *.
  assert (fs w' = <[blob_path data filePath := File data]> (fs w1) ∧
          versions w' = versions w ∧ ∃ e, r = Err e) as (Hfs & Hv & He).
  { inversion Hcase; subst; simpl; rewrite ?Hver; eauto.
    destruct Hfail as [? | [? | ?]]; congruence. }
  split; [done |].
  split. { rewrite Hfs. by rewrite lookup_insert_eq. }
  rewrite storeFile_over_taken_path with (data := data); try done.
  - rewrite Hfs. rewrite lookup_insert_ne; [done |]. intros E. congruence.
  - rewrite Hfs. rewrite lookup_insert_ne by apply blob_not_root. eauto using prepared_root.
  - rewrite Hfs. rewrite lookup_insert_eq. eauto.
Qed.

Lemma store_again_after_failed_append_witness :
  (∃ e, snd (storeFile versions_locked "docs/a.txt" example_world) = Err e) ∧
  fs (fst (storeFile versions_locked "docs/a.txt" example_world))
     !! blob_path (bytes_of_string "abc") "docs/a.txt"
    = Some (File (bytes_of_string "abc")) ∧
  snd (storeFile no_faults "docs/a.txt"
         (fst (storeFile versions_locked "docs/a.txt" example_world)))
    = Ok (storage_key (bytes_of_string "abc") "docs/a.txt") ∧
  versions (fst (storeFile no_faults "docs/a.txt"
                   (fst (storeFile versions_locked "docs/a.txt" example_world))))
    = versions example_world.
Proof.
  apply (store_again_after_failed_append versions_locked no_faults "docs/a.txt" example_world
           (bytes_of_string "abc")); try evaluate.
  right; right. reflexivity.
Defined.

(** X5. The store tells contents apart by digest and extension together:
    the same bytes stored from two paths whose extensions differ get two
    storage keys, and both blobs are in the storage root afterwards. *)
Theorem same_bytes_other_extension fl1 fl2 p1 p2 w w1 w2 k1 k2 data :
  fs w !! p1 = Some (File data) →
  fs w !! p2 = Some (File data) →
  filepath_Ext p1 ≠ filepath_Ext p2 →
  storeFile fl1 p1 w = (w1, Ok k1) →
  storeFile fl2 p2 w1 = (w2, Ok k2) →
  k1 = (digest data ++ filepath_Ext p1)%string ∧
  k2 = (digest data ++ filepath_Ext p2)%string ∧
  k1 ≠ k2 ∧
  is_Some (fs w2 !! filepath_Join storageDir k1) ∧
  is_Some (fs w2 !! filepath_Join storageDir k2).
Proof.
  intros Hp1 Hp2 Hext H1 H2.
  pose proof (store_outcome_keeps _ _ _ _ _ _ _ (storeFile_run _ _ _ _ _ H1) Hp2) as Hp2'.
  apply storeFile_ok_post in H1 as (d1 & Hd1 & -> & _ & [n1 Hb1] & _).
  pose proof (store_outcome_keeps _ _ _ _ _ _ _ (storeFile_run _ _ _ _ _ H2) Hb1) as Hb1'.
  apply storeFile_ok_post in H2 as (d2 & Hd2 & -> & _ & Hb2 & _).
  assert (d1 = data) as -> by congruence. assert (d2 = data) as -> by congruence.
  unfold storage_key, blob_path in *.
  split; [done |]. split; [done |].
  split. { intros E. by apply String.app_inj in E. }
  split; [by exists n1 | exact Hb2].
Qed.

Lemma same_bytes_other_extension_witness :
  storage_key (bytes_of_string "abc") "x/f.txt"
    = (digest (bytes_of_string "abc") ++ filepath_Ext "x/f.txt")%string ∧
  storage_key (bytes_of_string "abc") "x/f.md"
    = (digest (bytes_of_string "abc") ++ filepath_Ext "x/f.md")%string ∧
  storage_key (bytes_of_string "abc") "x/f.txt" ≠ storage_key (bytes_of_string "abc") "x/f.md" ∧
  is_Some (fs (fst (storeFile no_faults "x/f.md"
                      (fst (storeFile no_faults "x/f.txt" renamed_world))))
             !! filepath_Join storageDir (storage_key (bytes_of_string "abc") "x/f.txt")) ∧
  is_Some (fs (fst (storeFile no_faults "x/f.md"
                      (fst (storeFile no_faults "x/f.txt" renamed_world))))
             !! filepath_Join storageDir (storage_key (bytes_of_string "abc") "x/f.md")).
Proof.
  apply (same_bytes_other_extension no_faults no_faults "x/f.txt" "x/f.md" renamed_world
           (fst (storeFile no_faults "x/f.txt" renamed_world))
           (fst (storeFile no_faults "x/f.md" (fst (storeFile no_faults "x/f.txt" renamed_world))))
           _ _ (bytes_of_string "abc")).
  - reflexivity.
  - reflexivity.
  - vm_compute. discriminate.
  - vm_compute. reflexivity.
  - vm_compute. reflexivity.
Defined.

(** * Further properties of the version ledger *)

Lemma greatest_spec zs m :
  greatest zs = Some m → m ∈ zs ∧ ∀ z, z ∈ zs → (z ≤ m)%Z.
Proof.
  destruct zs as [|z0 zs]; [done |]. simpl. intros [= <-].
  revert z0. induction zs as [|z zs IH]; intros z0; simpl.
  - split; [by left |]. intros z Hz. apply list_elem_of_singleton in Hz as ->. lia.
  - destruct (IH (Z.max z0 z)) as [Hin Hmax]. split.
    + apply elem_of_cons in Hin as [Heq | Hin].
      * rewrite Heq. destruct (Z.max_spec z0 z) as [[_ ->] | [_ ->]]; [right | ]; by left.
      * right. by right.
    + intros y Hy. apply elem_of_cons in Hy as [-> | Hy].
      * specialize (Hmax (Z.max z0 z)). etrans; [| apply Hmax; by left]. lia.
      * apply elem_of_cons in Hy as [-> | Hy].
        -- specialize (Hmax (Z.max z0 z)). etrans; [| apply Hmax; by left]. lia.
        -- apply Hmax. by right.
Qed.

(** X6. [logVersion] on any ledger: when both statements succeed it appends
    exactly one row for the filename, whose version is 1 when the filename
    has no row yet and otherwise one more than the greatest version recorded
    for it, so greater than every one of them; the rows of other filenames
    are not touched. (The greatest 64-bit value is left out: adding one to
    it wraps.) *)
Theorem logVersion_goes_past_greatest fl filename hash w :
  fails fl (OpSelectVersion filename) = false →
  fails fl (OpInsertVersion filename) = false →
  (∀ r, r ∈ rows_of filename (versions w) → (- 2 ^ 63 ≤ v_version r < 2 ^ 63 - 1)%Z) →
  ∃ v,
    logVersion fl filename hash w = (insert_version (mkVersion filename v hash) w, Ok tt) ∧
    (rows_of filename (versions w) = [] → v = 1%Z) ∧
    (∀ r, r ∈ rows_of filename (versions w) → (v_version r < v)%Z) ∧
    (rows_of filename (versions w) ≠ [] →
       ∃ r, r ∈ rows_of filename (versions w) ∧ v = (v_version r + 1)%Z) ∧
    (∀ other, other ≠ filename →
       rows_of other (versions (insert_version (mkVersion filename v hash) w))
         = rows_of other (versions w)).
Proof.
  intros Hs Hi Hrange. exists (next_version filename (versions w)).
  split. { by rewrite logVersion_eq, Hs, Hi. }
  unfold next_version, select_last_version.
  destruct (greatest (map v_version (rows_of filename (versions w)))) as [m|] eqn:Hg.
  - apply greatest_spec in Hg as [Hin Hmax].
    apply list_elem_of_fmap in Hin as (rm & -> & Hrm).
    pose proof (Hrange rm Hrm) as Hb. simpl default. unfold int_add.
    rewrite wrap64_small by lia.
    split. { intros E. rewrite E in Hrm. by apply elem_of_nil in Hrm. }
    split. { intros r Hr. specialize (Hmax (v_version r)).
             assert (v_version r ≤ v_version rm)%Z; [| lia].
             apply Hmax. apply list_elem_of_fmap. eauto. }
    split. { intros _. eauto. }
    intros other Hne. simpl. rewrite rows_of_app. unfold rows_of at 2.
    rewrite filter_cons, filter_nil. simpl. rewrite decide_False by done. apply app_nil_r.
  - assert (rows_of filename (versions w) = []) as Hnil.
    { destruct (rows_of filename (versions w)); [done | simpl in Hg; done]. }
    simpl default. unfold int_add. rewrite wrap64_small by lia.
    split; [done |]. rewrite Hnil.
    split. { intros r Hr. by apply elem_of_nil in Hr. }
    split; [done |].
    intros other Hne. simpl. rewrite rows_of_app. unfold rows_of at 2.
    rewrite filter_cons, filter_nil. simpl. rewrite decide_False by done. apply app_nil_r.
Qed.

Lemma logVersion_goes_past_greatest_witness :
  ∃ v,
    logVersion no_faults "f.txt" "h3" gapped_ledger
      = (insert_version (mkVersion "f.txt" v "h3") gapped_ledger, Ok tt) ∧
    (rows_of "f.txt" (versions gapped_ledger) = [] → v = 1%Z) ∧
    (∀ r, r ∈ rows_of "f.txt" (versions gapped_ledger) → (v_version r < v)%Z) ∧
    (rows_of "f.txt" (versions gapped_ledger) ≠ [] →
       ∃ r, r ∈ rows_of "f.txt" (versions gapped_ledger) ∧ v = (v_version r + 1)%Z) ∧
    (∀ other, other ≠ "f.txt"%string →
       rows_of other (versions (insert_version (mkVersion "f.txt" v "h3") gapped_ledger))
         = rows_of other (versions gapped_ledger)).
Proof.
  apply (logVersion_goes_past_greatest no_faults "f.txt" "h3" gapped_ledger).
  - reflexivity.
  - reflexivity.
  - intros r Hr. vm_compute in Hr.
    apply elem_of_cons in Hr as [-> | Hr]; [vm_compute; split; [discriminate | reflexivity] |].
    apply list_elem_of_singleton in Hr as ->. vm_compute; split; [discriminate | reflexivity].
Defined.

(** * Further properties of the sweep *)

(** The world after one visit: as before, or with the visited file removed,
    and then with or without the row of the removal. *)
Lemma dedup_visit_world fl hashes p w :
  fst (walk_visit fl (dedupVisit fl) hashes p w) = w ∨
  (is_file w p = true ∧
   (∃ data orig, fs w !! p = Some (File data) ∧ hashes !! digest data = Some orig) ∧
   ((fst (walk_visit fl (dedupVisit fl) hashes p w) = set_fs (delete p) w ∧
     snd (walk_visit fl (dedupVisit fl) hashes p w) = Err (SysError (OpInsertAction p))) ∨
    (fst (walk_visit fl (dedupVisit fl) hashes p w)
       = insert_action (removal p) (set_fs (delete p) w) ∧
     snd (walk_visit fl (dedupVisit fl) hashes p w) = Ok hashes))).
Proof.
  rewrite dedup_visit_eq.
  destruct (fs w !! p) as [[data|]|] eqn:Hp; [| | by left];
    (destruct (fails fl (OpWalk p)); [by left |]); [| by left].
  destruct (fails fl (OpHashOpen p)); [by left |].
  destruct (fails fl (OpHashRead p)); [by left |].
  destruct (hashes !! digest data) as [orig|] eqn:Hh; [| by left].
  destruct (fails fl (OpRemove p)); [by left |].
  right. split; [apply is_file_true; eauto |]. split; [eauto |].
  destruct (fails fl (OpInsertAction p)); [left | right]; done.
Qed.

(** Only a visit that removes its file and cannot log it ends with the error
    of that INSERT. *)
Lemma dedup_visit_log_error fl hashes p w q :
  snd (walk_visit fl (dedupVisit fl) hashes p w) = Err (SysError (OpInsertAction q)) →
  q = p ∧ is_file w p = true ∧
  fst (walk_visit fl (dedupVisit fl) hashes p w) = set_fs (delete p) w.
Proof.
  rewrite dedup_visit_eq.
  destruct (fs w !! p) as [[data|]|] eqn:Hp; [| | done];
    (destruct (fails fl (OpWalk p)); [done |]); [| done].
  destruct (fails fl (OpHashOpen p)); [done |].
  destruct (fails fl (OpHashRead p)); [done |].
  destruct (hashes !! digest data) as [orig|] eqn:Hh; [| done].
  destruct (fails fl (OpRemove p)); [done |].
  destruct (fails fl (OpInsertAction p)); [| done].
  simpl. intros [= <-]. split; [done |]. split; [apply is_file_true; eauto | done].
Qed.

(** What a walk does to a path: nothing, or it removes the regular file
    there. *)
Lemma walk_entries_paths fl entries hashes w q :
  fs (fst (walk_entries fl entries (dedupVisit fl) hashes w)) !! q = fs w !! q ∨
  (q ∈ entries ∧ is_file w q = true ∧
   fs (fst (walk_entries fl entries (dedupVisit fl) hashes w)) !! q = None).
Proof.
  revert hashes w. induction entries as [|p rest IH]; intros hashes w; [by left |].
  rewrite walk_entries_cons.
  destruct (dedup_visit_world fl hashes p w) as [Hw | (Hfile & _ & Hw)].
  - destruct (walk_visit fl (dedupVisit fl) hashes p w) as [w1 [h1|e]]; simpl in Hw; subst w1.
    + destruct (IH h1 w) as [H | (Hin & Hf & Hnone)]; [by left |].
      right. split; [by right | done].
    + by left.
  - assert (∀ w1, fs w1 = delete p (fs w) →
      (fs w1 !! q = fs w !! q ∨ (q ∈ p :: rest ∧ is_file w q = true ∧ fs w1 !! q = None)) ∧
      (is_file w1 q = true → is_file w q = true)) as Hdel.
    { intros w1 Hfs. split.
      - rewrite Hfs. destruct (decide (p = q)) as [<- | Hne].
        + right. rewrite lookup_delete_eq. split; [by left | done].
        + left. by rewrite lookup_delete_ne.
      - unfold is_file. rewrite Hfs. destruct (decide (p = q)) as [<- | Hne].
        + by rewrite lookup_delete_eq.
        + by rewrite lookup_delete_ne. }
    destruct (walk_visit fl (dedupVisit fl) hashes p w) as [w1 [h1|e]]; simpl in Hw.
    + destruct Hw as [[_ [=]] | [-> _]].
      destruct (Hdel (insert_action (removal p) (set_fs (delete p) w)) eq_refl) as [H1 H2].
      destruct (IH h1 (insert_action (removal p) (set_fs (delete p) w)))
        as [H | (Hin & Hf & Hnone)].
      * rewrite H. done.
      * right. split; [by right |]. split; [by apply H2 | done].
    + destruct Hw as [[-> _] | [_ [=]]]. by apply (Hdel (set_fs (delete p) w) eq_refl).
Qed.

Lemma walk_entries_shrinks fl entries hashes w q n :
  fs (fst (walk_entries fl entries (dedupVisit fl) hashes w)) !! q = Some n →
  fs w !! q = Some n.
Proof.
  destruct (walk_entries_paths fl entries hashes w q) as [-> | (_ & _ & ->)]; done.
Qed.

Lemma index_covers_kept w0 w hashes seen :
  index_covers w0 w hashes seen → content_kept w0 w.
Proof.
  intros [Ha Hb] p data Hp. destruct (Hb p data Hp) as [Hw | [q Hq]]; [eauto |].
  destruct (Ha _ _ Hq) as (_ & d & Hd & Hdig). eauto.
Qed.

Lemma index_covers_removed w0 w w1 hashes seen p data orig :
  index_covers w0 w hashes seen →
  p ∉ seen →
  fs w !! p = Some (File data) →
  hashes !! digest data = Some orig →
  fs w1 = delete p (fs w) →
  index_covers w0 w1 hashes (seen ++ [p]).
Proof.
  intros [Ha Hb] Hp Hf Hh Hfs. split.
  - intros h q Hq. destruct (Ha _ _ Hq) as (Hin & d & Hd & Hdig).
    split; [apply elem_of_app; by left |]. exists d. split; [| done].
    rewrite Hfs, lookup_delete_ne; [done |]. by intros <-.
  - intros p0 d0 Hp0. destruct (Hb p0 d0 Hp0) as [Hw | Hq]; [| by right].
    destruct (decide (p = p0)) as [<- | Hne].
    + right. rewrite Hf in Hw. injection Hw as <-. eauto.
    + left. by rewrite Hfs, lookup_delete_ne.
Qed.

Lemma index_covers_indexed w0 w hashes seen p data :
  index_covers w0 w hashes seen →
  fs w !! p = Some (File data) →
  hashes !! digest data = None →
  index_covers w0 w (<[digest data := p]> hashes) (seen ++ [p]).
Proof.
  intros [Ha Hb] Hf Hh. split.
  - intros h q Hq. destruct (decide (digest data = h)) as [<- | Hne].
    + rewrite lookup_insert_eq in Hq. injection Hq as <-.
      split; [apply elem_of_app; right; by left | eauto].
    + rewrite lookup_insert_ne in Hq by done.
      destruct (Ha _ _ Hq) as (Hin & Hd). split; [apply elem_of_app; by left | done].
  - intros p0 d0 Hp0. destruct (Hb p0 d0 Hp0) as [Hw | [q Hq]]; [by left |].
    right. destruct (decide (digest data = digest d0)) as [E | Hne].
    + rewrite <- E, lookup_insert_eq. eauto.
    + rewrite lookup_insert_ne by done. eauto.
Qed.

Lemma index_covers_seen w0 w hashes seen p :
  index_covers w0 w hashes seen → index_covers w0 w hashes (seen ++ [p]).
Proof.
  intros [Ha Hb]. split; [| done].
  intros h q Hq. destruct (Ha _ _ Hq) as [Hin Hd]. split; [apply elem_of_app; by left | done].
Qed.

Lemma index_covers_actions w0 w hashes seen a :
  index_covers w0 w hashes seen → index_covers w0 (insert_action a w) hashes seen.
Proof. done. Qed.

Lemma walk_keeps_content fl entries seen hashes w0 w :
  NoDup entries →
  (∀ p, p ∈ entries → p ∉ seen) →
  index_covers w0 w hashes seen →
  content_kept w0 (fst (walk_entries fl entries (dedupVisit fl) hashes w)).
Proof.
  revert seen hashes w. induction entries as [|p rest IH]; intros seen hashes w Hnd Hnew Hcov.
  { by eapply index_covers_kept. }
  rewrite walk_entries_cons.
  apply NoDup_cons in Hnd as [Hp Hnd].
  assert (∀ q, q ∈ rest → q ∉ seen ++ [p]) as Hnew'.
  { intros q Hq. rewrite elem_of_app, list_elem_of_singleton.
    intros [Hs | ->]; [| done]. eapply Hnew; [| done]. by right. }
  assert (p ∉ seen) as Hps by (apply Hnew; by left).
  destruct (dedup_visit_world fl hashes p w)
    as [Hw | (_ & (data & orig & Hf & Hh) & [[Hw He] | [Hw Hok]])].
  - destruct (walk_visit fl (dedupVisit fl) hashes p w) as [w1 [h1|e]] eqn:Hv;
      simpl in Hw; subst w1; [| by eapply index_covers_kept].
    apply (IH (seen ++ [p])); [done | done |].
    apply dedup_visit_ok in Hv
      as [(_ & _ & ->) | [(d & Hd & Hnone & _ & ->) | (d & o & _ & _ & Hbad & _)]].
    + by apply index_covers_seen.
    + by apply index_covers_indexed.
    + exfalso. apply (f_equal actions) in Hbad. simpl in Hbad.
      apply (f_equal length) in Hbad. rewrite length_app in Hbad. simpl in Hbad. lia.
  - destruct (walk_visit fl (dedupVisit fl) hashes p w) as [w1 [h1|e]]; simpl in Hw, He;
      [done |]. subst w1.
    eapply index_covers_kept, index_covers_removed; eauto.
  - destruct (walk_visit fl (dedupVisit fl) hashes p w) as [w1 [h1|e]]; simpl in Hw, Hok;
      [| done]. injection Hok as ->. subst w1.
    apply (IH (seen ++ [p])); [done | done |].
    apply index_covers_actions. eapply index_covers_removed; eauto.
Qed.

(** X8. In a tree of regular files and directories (the model has no
    symbolic links), a sweep of a plain directory loses no content: for every
    regular file there was, a file with the same digest is there afterwards
    (the file itself, or the one the index kept for that digest), under any
    schedule and whatever fails, also when the sweep breaks off. *)
Theorem sweep_keeps_one_file_per_digest sched fl directory w :
  plain directory = true →
  content_kept w (world (deduplicateFiles sched fl directory w)).
Proof.
  intros _. destruct (deduplicateFiles_world sched fl directory w) as [-> | ->].
  - intros p data Hp. eauto.
  - rewrite dedupWalk_eq. apply (walk_keeps_content fl _ []).
    + apply walk_order_NoDup.
    + intros p _. apply not_elem_of_nil.
    + split; [intros h q Hq; by rewrite lookup_empty in Hq | by left].
Qed.

Lemma sweep_keeps_one_file_per_digest_witness :
  content_kept sweep_world
    (world (deduplicateFiles (goroutine_first PickDone) c_unreadable "d" sweep_world)).
Proof.
  apply (sweep_keeps_one_file_per_digest (goroutine_first PickDone) c_unreadable "d"
           sweep_world).
  vm_compute. reflexivity.
Defined.

Lemma filter_ext_elem {A} (P Q : A → Prop) `{∀ x, Decision (P x)} `{∀ x, Decision (Q x)}
    (l : list A) :
  (∀ x, x ∈ l → (P x ↔ Q x)) → filter P l = filter Q l.
Proof.
  induction l as [|x l IH]; intros Hl; [done |].
  rewrite !filter_cons.
  assert (filter P l = filter Q l) as -> by (apply IH; intros y Hy; apply Hl; by right).
  destruct (decide (P x)) as [HP | HP], (decide (Q x)) as [HQ | HQ]; try done.
  - exfalso. apply HQ, Hl; [by left | done].
  - exfalso. apply HP, Hl; [by left | done].
Qed.

Lemma filter_none {A} (P : A → Prop) `{∀ x, Decision (P x)} (l : list A) :
  (∀ x, x ∈ l → ¬ P x) → filter P l = [].
Proof.
  induction l as [|x l IH]; intros Hl; [done |].
  rewrite filter_cons, decide_False by (apply Hl; by left).
  apply IH. intros y Hy. apply Hl. by right.
Qed.

Lemma walk_log_error_in fl entries hashes w q :
  snd (walk_entries fl entries (dedupVisit fl) hashes w) = Err (SysError (OpInsertAction q)) →
  q ∈ entries.
Proof.
  revert hashes w. induction entries as [|p rest IH]; intros hashes w; [done |].
  rewrite walk_entries_cons.
  destruct (walk_visit fl (dedupVisit fl) hashes p w) as [w1 [h1|e]] eqn:Hv.
  - intros H. right. by eapply IH.
  - simpl. intros [= ->].
    destruct (dedup_visit_log_error fl hashes p w q) as [-> _]; [by rewrite Hv | by left].
Qed.

Lemma removed_same w q : removed w w q = false.
Proof.
  unfold removed, is_file. destruct (fs w !! q) as [[d|]|] eqn:E; done.
Qed.

(** The rows a walk appends: one per file it removed, in the order of the
    walk, but for the file whose row could not be written. *)
Lemma walk_log fl entries hashes w :
  NoDup entries →
  actions (fst (walk_entries fl entries (dedupVisit fl) hashes w)) =
  actions w ++
  map removal
    (filter (λ q, removed w (fst (walk_entries fl entries (dedupVisit fl) hashes w)) q
                  && negb (log_failed (snd (walk_entries fl entries (dedupVisit fl) hashes w)) q)
                  = true)
       entries).
Proof.
  revert hashes w. induction entries as [|p rest IH]; intros hashes w Hnd.
  { simpl. by rewrite app_nil_r. }
  apply NoDup_cons in Hnd as [Hp Hnd].
  rewrite walk_entries_cons.
  destruct (walk_visit fl (dedupVisit fl) hashes p w) as [w1 [h1|e]] eqn:Hv.
  - specialize (IH h1 w1 Hnd).
    set (w' := fst (walk_entries fl rest (dedupVisit fl) h1 w1)) in *.
    set (r := snd (walk_entries fl rest (dedupVisit fl) h1 w1)) in *.
    assert (log_failed r p = false) as Hnf.
    { unfold log_failed. destruct r as [|[[]|]] eqn:Hr; try done.
      apply walk_log_error_in in Hr. apply String.eqb_neq. by intros ->. }
    assert (fs w' !! p = fs w1 !! p) as Hsame.
    { destruct (walk_entries_paths fl rest h1 w1 p) as [H | (Hin & _)]; done. }
    rewrite filter_cons.
    apply dedup_visit_ok in Hv
      as [(Hdir & -> & ->) | [(d & Hf & Hnone & -> & ->) | (d & o & Hf & Hsome & -> & ->)]].
    + rewrite decide_False; [done |].
      unfold removed, is_file. rewrite Hdir. done.
    + rewrite decide_False; [done |].
      unfold removed. rewrite Hsame, Hf, bool_decide_eq_false_2 by done.
      by rewrite andb_false_r.
    + change (mkAction "deduplicate" p EmptyString) with (removal p) in *.
      assert (fs w' !! p = None) as Hgone by (rewrite Hsame; simpl; apply lookup_delete_eq).
      assert (∀ q, q ∈ rest →
                is_file (insert_action (removal p) (set_fs (delete p) w)) q = is_file w q)
        as Hfq.
      { intros q Hq. unfold is_file. simpl. rewrite lookup_delete_ne; [done |]. by intros ->. }
      assert (actions (insert_action (removal p) (set_fs (delete p) w))
              = actions w ++ [removal p]) as HaW by done.
      clearbody w' r. revert IH Hfq HaW.
      generalize (insert_action (removal p) (set_fs (delete p) w)). intros W IH Hfq HaW.
      rewrite decide_True.
      2:{ unfold removed, is_file. rewrite Hf, Hgone, Hnf. by rewrite bool_decide_eq_true_2. }
      rewrite IH, HaW, <- app_assoc. cbn [map app]. do 3 f_equal.
      apply filter_ext_elem. intros q Hq. unfold removed. by rewrite Hfq.
  - simpl fst. simpl snd.
    destruct (dedup_visit_world fl hashes p w) as [Hw | (Hfile & _ & [[Hw He] | [_ Hok]])];
      rewrite Hv in *; simpl in *.
    + subst w1. rewrite filter_none; [by rewrite app_nil_r |].
      intros q _. by rewrite removed_same.
    + subst w1. injection He as ->. simpl. rewrite filter_none; [by rewrite app_nil_r |].
      intros q Hq. apply elem_of_cons in Hq as [-> | Hq].
      * rewrite String.eqb_refl, andb_false_r. done.
      * unfold removed, is_file. simpl. rewrite lookup_delete_ne by (by intros ->).
        destruct (fs w !! q) as [[dq|]|] eqn:E; done.
    + done.
Qed.

(** X9. The action log of a sweep of a plain directory whose walk met no
    error is exact: it gained one [deduplicate] row, with an empty storage
    id, for each regular file that is gone, in the order of the walk, and no
    other row. *)
Theorem sweep_logs_each_removal sched fl directory w hashes r :
  plain directory = true →
  snd (dedupWalk fl directory w) = Ok hashes →
  mainpc (deduplicateFiles sched fl directory w) = MReturned r →
  actions (world (deduplicateFiles sched fl directory w)) =
  actions w ++
  map removal
    (filter (λ q, removed w (world (deduplicateFiles sched fl directory w)) q = true)
       (walk_order directory w)).
Proof.
  intros _ Hok Hret. apply deduplicateFiles_returned in Hret as [-> _].
  rewrite dedupWalk_eq in *. rewrite walk_log by apply walk_order_NoDup.
  rewrite Hok. do 2 f_equal. apply filter_ext_elem. intros q _. simpl.
  by rewrite andb_true_r.
Qed.

Lemma sweep_logs_each_removal_witness :
  actions (world (deduplicateFiles caller_waits no_faults "d" twins_world)) =
  actions twins_world ++
  map removal
    (filter (λ q, removed twins_world
                    (world (deduplicateFiles caller_waits no_faults "d" twins_world)) q = true)
       (walk_order "d" twins_world)).
Proof.
  apply (sweep_logs_each_removal caller_waits no_faults "d" twins_world
           {[digest (bytes_of_string "abc") := "d/a.txt"%string]} None).
  - vm_compute. reflexivity.
  - vm_compute. reflexivity.
  - vm_compute. reflexivity.
Defined.

(** X10. In a sweep of a plain directory a duplicate is removed before its
    removal is logged. When that INSERT fails the walk ends with its error;
    the file stays removed and has no row, while every file removed before it
    has its row. *)
Theorem sweep_removal_without_row sched fl directory w p r :
  plain directory = true →
  snd (dedupWalk fl directory w) = Err (SysError (OpInsertAction p)) →
  mainpc (deduplicateFiles sched fl directory w) = MReturned r →
  p ∈ regular_files directory w ∧
  fs (world (deduplicateFiles sched fl directory w)) !! p = None ∧
  actions (world (deduplicateFiles sched fl directory w)) =
  actions w ++
  map removal
    (filter (λ q, removed w (world (deduplicateFiles sched fl directory w)) q
                  && negb (String.eqb p q) = true)
       (walk_order directory w)).
Proof.
  intros _ Herr Hret. apply deduplicateFiles_returned in Hret as [-> _].
  rewrite dedupWalk_eq in *.
  pose proof (walk_log_error_in _ _ _ _ _ Herr) as Hin.
  assert (fs (fst (walk_entries fl (walk_order directory w) (dedupVisit fl) ∅ w)) !! p = None
          ∧ is_file w p = true) as [Hnone Hfile].
  { clear Hin. revert Herr. generalize (∅ : gmap string string).
    generalize (walk_order_NoDup directory w).
    generalize (walk_order directory w) as entries. intros entries. revert w.
    induction entries as [|p0 rest IH]; intros w Hnd hashes; [done |].
    apply NoDup_cons in Hnd as [Hp0 Hnd].
    rewrite walk_entries_cons.
    destruct (walk_visit fl (dedupVisit fl) hashes p0 w) as [w1 [h1|e]] eqn:Hv.
    - intros Herr. pose proof (walk_log_error_in _ _ _ _ _ Herr) as Hin.
      destruct (IH w1 Hnd h1 Herr) as [Hnone Hfile]. split; [done |].
      apply is_file_true in Hfile as [d Hd]. apply is_file_true. exists d.
      destruct (dedup_visit_world fl hashes p0 w) as [Hw | (_ & _ & [[Hw _] | [Hw _]])];
        rewrite Hv in Hw; simpl in Hw; subst w1; [done | |];
        simpl in Hd; by apply lookup_delete_Some in Hd as [_ Hd].
    - simpl. intros [= ->].
      destruct (dedup_visit_log_error fl hashes p0 w p) as (-> & Hfile & Hw);
        [by rewrite Hv |].
      rewrite Hv in Hw. simpl in Hw. subst w1. simpl. by rewrite lookup_delete_eq. }
  split; [by apply elem_of_regular_files |]. split; [done |].
  rewrite walk_log by apply walk_order_NoDup. rewrite Herr. simpl. done.
Qed.

Lemma sweep_removal_without_row_witness :
  "d/b.txt"%string ∈ regular_files "d" twins_world ∧
  fs (world (deduplicateFiles caller_waits (log_down_for "d/b.txt") "d" twins_world))
     !! "d/b.txt"%string = None ∧
  actions (world (deduplicateFiles caller_waits (log_down_for "d/b.txt") "d" twins_world)) =
  actions twins_world ++
  map removal
    (filter (λ q, removed twins_world
                    (world (deduplicateFiles caller_waits (log_down_for "d/b.txt") "d"
                              twins_world)) q
                  && negb (String.eqb "d/b.txt" q) = true)
       (walk_order "d" twins_world)).
Proof.
  apply (sweep_removal_without_row caller_waits (log_down_for "d/b.txt") "d" twins_world
           "d/b.txt" (Some (SysError (OpInsertAction "d/b.txt")))).
  - vm_compute. reflexivity.
  - vm_compute. reflexivity.
  - vm_compute. reflexivity.
Defined.

(** ** The caller and the goroutine, once more *)

Lemma handshake_init w : handshake (mkConfig w MStart WWalk None).
Proof. unfold handshake. simpl. naive_solver. Qed.

Lemma worker_step_handshake fl d c : handshake c → handshake (worker_step fl d c).
Proof.
  unfold handshake, worker_step. destruct c as [cw cm cwk cch]; simpl.
  intros (Hret & Hbuf & Hpark & Hexit).
  destruct cwk as [| e | | |].
  - destruct (dedupWalk fl d cw) as [w' [h|e]]; simpl; naive_solver.
  - destruct cm as [| | r]; simpl; naive_solver.
  - destruct cm as [| | r]; simpl; naive_solver.
  - simpl. naive_solver.
  - simpl. naive_solver.
Qed.

Lemma main_step_handshake pick c : handshake c → handshake (main_step pick c).
Proof.
  unfold handshake, main_step. destruct c as [cw cm cwk cch]; simpl.
  intros (Hret & Hbuf & Hpark & Hexit).
  destruct cm as [| | r]; [| simpl; naive_solver | simpl; naive_solver].
  destruct cch as [e|]; destruct cwk; try destruct pick; simpl; naive_solver.
Qed.

Lemma handshake_run fl d sched c :
  handshake c → handshake (fold_left (sched_step fl d) sched c).
Proof.
  revert c. induction sched as [|ch sched IH]; intros c Hc; [done |].
  simpl. apply IH. destruct ch as [pick|]; simpl.
  - by apply main_step_handshake.
  - by apply worker_step_handshake.
Qed.

Lemma deduplicateFiles_handshake sched fl d w : handshake (deduplicateFiles sched fl d w).
Proof. apply handshake_run, handshake_init. Qed.

Lemma returned_stays fl d sched c r :
  mainpc c = MReturned r → mainpc (fold_left (sched_step fl d) sched c) = MReturned r.
Proof.
  revert c. induction sched as [|ch sched IH]; intros c Hc; [done |].
  simpl. apply IH. destruct ch as [pick|]; simpl.
  - unfold main_step. by rewrite Hc.
  - unfold worker_step. rewrite Hc.
    destruct (workerpc c); try done. by destruct (dedupWalk fl d (world c)) as [? [?|?]].
Qed.

Lemma deduplicateFiles_app sched more fl d w :
  deduplicateFiles (sched ++ more) fl d w
  = fold_left (sched_step fl d) more (deduplicateFiles sched fl d w).
Proof. unfold deduplicateFiles. apply fold_left_app. Qed.

(** X11. When the call returns an error its goroutine is left behind: it
    has sent the error and stands before or in [done <- true], which no one
    will receive, so however the schedule goes on it never runs to its
    end. *)
Theorem goroutine_is_left_behind_on_error sched more fl directory w e :
  mainpc (deduplicateFiles sched fl directory w) = MReturned (Some e) →
  mainpc (deduplicateFiles (sched ++ more) fl directory w) = MReturned (Some e) ∧
  (workerpc (deduplicateFiles (sched ++ more) fl directory w) = WSendDone ∨
   workerpc (deduplicateFiles (sched ++ more) fl directory w) = WBlocked) ∧
  workerpc (deduplicateFiles (sched ++ more) fl directory w) ≠ WExit.
Proof.
  intros Hret.
  assert (mainpc (deduplicateFiles (sched ++ more) fl directory w) = MReturned (Some e))
    as Hret'.
  { rewrite deduplicateFiles_app. by apply returned_stays. }
  split; [done |].
  destruct (deduplicateFiles_handshake (sched ++ more) fl directory w) as (Hsent & _).
  destruct (Hsent e Hret') as [Hw | Hw]; rewrite Hw; split; auto; done.
Qed.

Lemma goroutine_is_left_behind_on_error_witness :
  mainpc (deduplicateFiles (caller_waits ++ [RunWorker; RunMain PickDone; RunWorker])
            c_unreadable "d" sweep_world)
    = MReturned (Some (Errorf "failed to hash file" (SysError (OpHashRead "d/c.txt")))) ∧
  (workerpc (deduplicateFiles (caller_waits ++ [RunWorker; RunMain PickDone; RunWorker])
               c_unreadable "d" sweep_world) = WSendDone ∨
   workerpc (deduplicateFiles (caller_waits ++ [RunWorker; RunMain PickDone; RunWorker])
               c_unreadable "d" sweep_world) = WBlocked) ∧
  workerpc (deduplicateFiles (caller_waits ++ [RunWorker; RunMain PickDone; RunWorker])
              c_unreadable "d" sweep_world) ≠ WExit.
Proof.
  apply (goroutine_is_left_behind_on_error caller_waits
           [RunWorker; RunMain PickDone; RunWorker] c_unreadable "d" sweep_world).
  vm_compute. reflexivity.
Defined.

(** X12. The call cannot hang: from whatever the two goroutines have done
    so far, once the caller has run its [select] and the goroutine has taken
    two more steps, the call has returned. *)
Theorem deduplicateFiles_returns sched pick fl directory w :
  ∃ r, mainpc (deduplicateFiles (sched ++ [RunMain pick; RunWorker; RunWorker]) fl directory w)
       = MReturned r.
Proof.
  rewrite deduplicateFiles_app.
  pose proof (deduplicateFiles_handshake sched fl directory w) as Hh.
  destruct (deduplicateFiles sched fl directory w) as [cw cm cwk cch].
  unfold handshake in Hh. simpl in Hh. destruct Hh as (Hret & Hbuf & Hpark & Hexit).
  cbn [fold_left sched_step].
  destruct cm as [| | r].
  - unfold main_step at 1. cbn [mainpc errCh workerpc world].
    destruct cch as [e|].
    + destruct (Hbuf e eq_refl eq_refl) as [-> | ->]; [| destruct pick]; simpl; eauto.
    + destruct cwk as [| e | | |]; simpl; eauto.
      * rewrite worker_step_walk. destruct (dedupWalk fl directory cw) as [w' [h|e]]; simpl; eauto.
      * specialize (Hexit eq_refl). done.
  - destruct (Hpark eq_refl) as [-> [-> | [[e ->] | ->]]]; simpl; eauto.
    unfold main_step at 1. cbn [mainpc].
    rewrite worker_step_walk. destruct (dedupWalk fl directory cw) as [w' [h|e]]; simpl; eauto.
  - simpl. exists r.
    apply (returned_stays fl directory [RunWorker; RunWorker]
             (main_step pick (mkConfig cw (MReturned r) cwk cch))). done.
Qed.

(** * Paths: [Clean], [Join], [Dir] and [Rel] on plain paths *)

Arguments filepath_Clean : simpl never.
Arguments filepath_Join2 : simpl never.
Arguments filepath_Dir : simpl never.
Arguments filepath_Rel : simpl never.
Arguments mkdirall_parent : simpl never.
Arguments elems : simpl never.

Lemma sep_is_slash c : isPathSeparator c = true → c = "/"%char.
Proof. unfold isPathSeparator. by intros ?%Ascii.eqb_eq. Qed.

Lemma split_elems_app l1 l2 cur :
  split_elems (l1 ++ "/"%char :: l2) cur = split_elems l1 cur ++ split_elems l2 [].
Proof.
  revert cur. induction l1 as [|c l1 IH]; intros cur; simpl; [done |].
  destruct (isPathSeparator c); by rewrite IH.
Qed.

Lemma split_elems_no_sep l cur :
  Forall (λ c, isPathSeparator c = false) l →
  split_elems l cur = [string_of_list_ascii (rev cur ++ l)].
Proof.
  revert cur. induction l as [|c l IH]; intros cur Hl; simpl.
  - by rewrite app_nil_r.
  - inversion Hl as [|? ? Hc Hl']; subst. rewrite Hc, IH by done.
    simpl. by rewrite <- app_assoc.
Qed.

Lemma split_elems_cons l cur : ∃ e es, split_elems l cur = e :: es.
Proof.
  revert cur. induction l as [|c l IH]; intros cur; simpl; [by eauto |].
  destruct (isPathSeparator c); eauto.
Qed.

Lemma join_elems_cons e e' es :
  join_elems (e :: e' :: es) = (e ++ "/" ++ join_elems (e' :: es))%string.
Proof. reflexivity. Qed.

Lemma join_split l cur :
  join_elems (split_elems l cur) = string_of_list_ascii (rev cur ++ l).
Proof.
  revert cur. induction l as [|c l IH]; intros cur.
  - simpl. by rewrite app_nil_r.
  - simpl split_elems. destruct (isPathSeparator c) eqn:Hc.
    + apply sep_is_slash in Hc as ->.
      specialize (IH []). destruct (split_elems_cons l []) as (e & es & E).
      rewrite E in *. rewrite join_elems_cons, IH.
      rewrite (string_of_list_app (rev cur)). reflexivity.
    + rewrite IH. simpl. by rewrite <- app_assoc.
Qed.

(** Splitting a path at its separators and joining the elements gives the
    path back. *)
Lemma join_elems_of p : join_elems (elems p) = p.
Proof.
  unfold elems. rewrite join_split. simpl. apply string_of_list_ascii_of_string.
Qed.

Lemma elems_app a b : elems (a ++ "/" ++ b) = elems a ++ elems b.
Proof.
  unfold elems. rewrite !list_ascii_app. apply split_elems_app.
Qed.

Lemma elems_slash a : elems (a ++ "/") = elems a ++ [EmptyString].
Proof.
  unfold elems. rewrite !list_ascii_app. apply split_elems_app.
Qed.

Lemma elems_no_sep e : no_separator e → elems e = [e].
Proof.
  intros H. unfold elems. rewrite split_elems_no_sep by done.
  simpl. by rewrite string_of_list_ascii_of_string.
Qed.

Lemma elems_cons p : ∃ e es, elems p = e :: es.
Proof. apply split_elems_cons. Qed.

Lemma simple_no_sep e : simple e = true → no_separator e.
Proof.
  unfold simple. rewrite !andb_true_iff. intros (_ & H).
  unfold no_separator. apply Forall_forall. intros c Hc.
  rewrite forallb_forall in H. apply negb_true_iff, H. by apply list_elem_of_In.
Qed.

Lemma simple_plain e : simple e = true → plain e = true.
Proof.
  intros H. unfold plain. rewrite elems_no_sep by by apply simple_no_sep.
  simpl. by rewrite H.
Qed.

Lemma plain_app a b : plain (a ++ "/" ++ b) = plain a && plain b.
Proof. unfold plain. by rewrite elems_app, forallb_app. Qed.

Lemma plain_nonempty p : plain p = true → p ≠ EmptyString.
Proof. by intros H ->. Qed.

Lemma plain_not_dot p : plain p = true → p ≠ "."%string.
Proof. by intros H ->. Qed.

Lemma plain_not_root p : plain p = true → p ≠ "/"%string.
Proof. by intros H ->. Qed.

Lemma plain_not_rooted p : plain p = true → is_rooted p = false.
Proof.
  destruct p as [|c p]; [done |]. simpl. intros H.
  destruct (isPathSeparator c) eqn:Hc; [| done].
  unfold plain, elems in H. simpl in H. by rewrite Hc in H.
Qed.

(** A plain path does not end in a separator. *)
Lemma plain_last p :
  plain p = true →
  ∃ c rs, rev (list_ascii_of_string p) = c :: rs ∧ isPathSeparator c = false.
Proof.
  intros H. destruct (rev (list_ascii_of_string p)) as [|c rs] eqn:E.
  - apply (f_equal (@rev _)) in E. rewrite rev_involutive in E. simpl in E.
    apply (f_equal string_of_list_ascii) in E.
    rewrite string_of_list_ascii_of_string in E. by subst.
  - exists c, rs. split; [done |]. destruct (isPathSeparator c) eqn:Hc; [| done].
    apply sep_is_slash in Hc as ->.
    apply (f_equal (@rev _)) in E. rewrite rev_involutive in E. simpl in E.
    unfold plain, elems in H. rewrite E, split_elems_app in H.
    rewrite forallb_app in H. simpl in H. by rewrite andb_false_r in H.
Qed.

Lemma clean_step_simple rooted stack e :
  simple e = true → clean_step rooted stack e = e :: stack.
Proof.
  unfold simple, clean_step. rewrite !andb_true_iff, !negb_true_iff.
  by intros (((-> & ->) & ->) & _).
Qed.

Lemma fold_clean_simple rooted es stack :
  forallb simple es = true →
  fold_left (clean_step rooted) es stack = rev es ++ stack.
Proof.
  revert stack. induction es as [|e es IH]; intros stack; simpl; [done |].
  rewrite andb_true_iff. intros [He Hes].
  rewrite clean_step_simple, IH by done. by rewrite <- app_assoc.
Qed.

(** [Clean] leaves a plain path as it is. *)
Lemma clean_plain p : plain p = true → filepath_Clean p = p.
Proof.
  intros H. unfold filepath_Clean.
  rewrite (plain_not_rooted p H), fold_clean_simple by done.
  rewrite app_nil_r, rev_involutive.
  destruct (elems_cons p) as (e & es & E). rewrite E.
  rewrite <- E. apply join_elems_of.
Qed.

Lemma rooted_app a b : a ≠ EmptyString → is_rooted (a ++ b) = is_rooted a.
Proof. by destruct a. Qed.

(** [Join] of two plain paths puts a separator between them. *)
Lemma join_plain a b :
  plain a = true → plain b = true → filepath_Join2 a b = (a ++ "/" ++ b)%string.
Proof.
  intros Ha Hb. unfold filepath_Join2.
  destruct (String.eqb_spec a EmptyString) as [->|_]; [done |].
  simpl negb. cbv iota. apply clean_plain. by rewrite plain_app, Ha, Hb.
Qed.

(** [Join] with an empty second element answers the first. *)
Lemma join_empty a : plain a = true → filepath_Join2 a EmptyString = a.
Proof.
  intros Ha. unfold filepath_Join2.
  destruct (String.eqb_spec a EmptyString) as [->|Hne]; [done |].
  simpl negb. cbv iota. unfold filepath_Clean.
  rewrite rooted_app, (plain_not_rooted a Ha) by done.
  rewrite elems_app, fold_left_app, (fold_clean_simple _ (elems a)) by exact Ha.
  change (elems EmptyString) with [EmptyString]. simpl fold_left.
  change (clean_step false (rev (elems a) ++ []) EmptyString) with (rev (elems a) ++ []).
  rewrite app_nil_r, rev_involutive.
  destruct (elems_cons a) as (e & es & E). rewrite E.
  rewrite <- E. apply join_elems_of.
Qed.

Lemma clean_step_up rooted stack leaf :
  simple leaf = true → clean_step rooted (leaf :: stack) ".." = stack.
Proof.
  intros Hl. unfold simple in Hl. rewrite !andb_true_iff, !negb_true_iff in Hl.
  unfold clean_step. change (String.eqb ".." EmptyString) with false.
  change (String.eqb ".." ".") with false. change (String.eqb ".." "..") with true.
  simpl. destruct Hl as [[[_ _] ->] _]. done.
Qed.

(** A [..] at the head of the second element takes the last name of the
    first away. *)
Lemma join_dotdot a leaf n :
  plain a = true → simple leaf = true → plain n = true →
  filepath_Join2 (a ++ "/" ++ leaf) (".." ++ "/" ++ n) = (a ++ "/" ++ n)%string.
Proof.
  intros Ha Hl Hn. unfold filepath_Join2.
  destruct (String.eqb_spec (a ++ "/" ++ leaf) EmptyString) as [E|Hne].
  { by destruct a. }
  simpl negb. cbv iota. unfold filepath_Clean.
  rewrite rooted_app by done. rewrite rooted_app by by apply plain_nonempty.
  rewrite (plain_not_rooted a Ha).
  rewrite !elems_app. rewrite (elems_no_sep leaf) by by apply simple_no_sep.
  rewrite (elems_no_sep "..") by by repeat constructor.
  rewrite <- !app_assoc. rewrite fold_left_app.
  rewrite (fold_clean_simple _ (elems a)) by exact Ha.
  cbn [app fold_left].
  rewrite (clean_step_simple _ _ leaf) by done.
  rewrite clean_step_up by done.
  rewrite fold_clean_simple by exact Hn.
  rewrite app_nil_r, rev_app_distr, !rev_involutive.
  destruct (elems_cons a) as (e & es & E).
  rewrite <- (join_elems_of (a ++ "/" ++ n)), elems_app.
  rewrite E. simpl. done.
Qed.

Lemma clean_slash a : plain a = true → filepath_Clean (a ++ "/") = a.
Proof.
  intros Ha. unfold filepath_Clean.
  rewrite rooted_app, (plain_not_rooted a Ha) by by apply plain_nonempty.
  rewrite elems_slash, fold_left_app, (fold_clean_simple _ (elems a)) by exact Ha.
  simpl fold_left.
  change (clean_step false (rev (elems a) ++ []) EmptyString) with (rev (elems a) ++ []).
  rewrite app_nil_r, rev_involutive.
  destruct (elems_cons a) as (e & es & E). rewrite E.
  rewrite <- E. apply join_elems_of.
Qed.

Lemma drop_last_elem_is rs : drop_last_elem rs = drop_elem rs.
Proof. induction rs as [|c rs IH]; simpl; [done | by rewrite IH]. Qed.

Lemma drop_elem_none rs :
  Forall (λ c, isPathSeparator c = false) rs → drop_elem rs = [].
Proof.
  induction rs as [|c rs IH]; intros Hrs; simpl; [done |].
  inversion Hrs as [|? ? Hc Hrs']; subst. by rewrite Hc, IH.
Qed.

Lemma rev_join a n :
  rev (list_ascii_of_string (a ++ "/" ++ n))
  = rev (list_ascii_of_string n) ++ "/"%char :: rev (list_ascii_of_string a).
Proof.
  rewrite !list_ascii_app, !rev_app_distr. simpl list_ascii_of_string.
  simpl rev at 2. by rewrite <- app_assoc.
Qed.

(** The directory of a name in a plain directory. *)
Lemma parent_dir_plain a n :
  plain a = true → no_separator n → parent_dir (a ++ "/" ++ n) = a.
Proof.
  intros Ha Hn. unfold parent_dir. rewrite rev_join.
  rewrite drop_elem_all by (by apply Forall_rev).
  destruct (plain_last a Ha) as (c & rs & E & Hc). rewrite E.
  simpl strip_seps. rewrite Hc. rewrite <- E, rev_involutive.
  apply string_of_list_ascii_of_string.
Qed.

Lemma parent_dir_name n : no_separator n → parent_dir n = "."%string.
Proof.
  intros Hn. unfold parent_dir. by rewrite drop_elem_none by (by apply Forall_rev).
Qed.

Lemma dir_plain a n :
  plain a = true → no_separator n → filepath_Dir (a ++ "/" ++ n) = a.
Proof.
  intros Ha Hn. unfold filepath_Dir. rewrite rev_join, drop_last_elem_is.
  rewrite drop_elem_all by (by apply Forall_rev).
  simpl rev. rewrite rev_involutive, string_of_list_app.
  rewrite string_of_list_ascii_of_string. by apply clean_slash.
Qed.

Lemma nonempty_last n :
  n ≠ EmptyString → no_separator n →
  ∃ c rs, rev (list_ascii_of_string n) = c :: rs ∧ isPathSeparator c = false.
Proof.
  intros Hne Hn.
  assert (Forall (λ c, isPathSeparator c = false) (rev (list_ascii_of_string n))) as Hrev.
  { by apply Forall_rev. }
  destruct (rev (list_ascii_of_string n)) as [|c rs] eqn:E.
  - apply (f_equal (@rev _)) in E. rewrite rev_involutive in E. simpl in E.
    apply (f_equal string_of_list_ascii) in E.
    by rewrite string_of_list_ascii_of_string in E.
  - inversion Hrev; subst. eauto.
Qed.

(** What [MkdirAll] makes first for a name in a plain directory. *)
Lemma mkdirall_parent_plain a n :
  plain a = true → n ≠ EmptyString → no_separator n →
  mkdirall_parent (a ++ "/" ++ n) = Some a.
Proof.
  intros Ha Hne Hn. unfold mkdirall_parent. rewrite rev_join.
  destruct (nonempty_last n Hne Hn) as (c & rs & E & Hc).
  assert (Forall (λ c, isPathSeparator c = false) (rev (list_ascii_of_string n))) as Hrev.
  { by apply Forall_rev. }
  rewrite E in *. simpl strip_seps. rewrite Hc.
  change (c :: rs ++ "/"%char :: rev (list_ascii_of_string a))
    with ((c :: rs) ++ "/"%char :: rev (list_ascii_of_string a)).
  rewrite drop_last_elem_is, drop_elem_all by done.
  destruct (plain_last a Ha) as (c' & rs' & E' & _). rewrite E'.
  rewrite <- E', rev_involutive. by rewrite string_of_list_ascii_of_string.
Qed.

Lemma last_elem_no_sep rs acc :
  Forall (λ c, isPathSeparator c = false) acc →
  Forall (λ c, isPathSeparator c = false) (last_elem rs acc).
Proof.
  revert acc. induction rs as [|c rs IH]; intros acc Hacc; simpl; [done |].
  destruct (isPathSeparator c) eqn:Hc; [done |]. apply IH. by constructor.
Qed.

(** The base name of a path is the root or holds no separator, and is never
    empty. *)
Lemma base_no_separator p :
  filepath_Base p ≠ "/"%string → no_separator (filepath_Base p).
Proof.
  unfold filepath_Base, no_separator. destruct p as [|c0 p0]; [by repeat constructor |].
  pose proof (last_elem_no_sep
    (strip_seps (rev (list_ascii_of_string (String c0 p0)))) [] (Forall_nil_2 _)) as H.
  destruct (last_elem _ _) as [|c l]; [done |].
  intros _. by rewrite list_ascii_of_string_of_list_ascii.
Qed.

Lemma base_nonempty p : filepath_Base p ≠ EmptyString.
Proof.
  unfold filepath_Base. destruct p as [|c0 p0]; [done |].
  by destruct (last_elem _ _).
Qed.

(** A name with an extension put after it is a name. *)
Lemma simple_with_ext n :
  n ≠ EmptyString → no_separator n → simple (n ++ ".gz") = true.
Proof.
  intros Hne Hn. unfold simple. rewrite !andb_true_iff, !negb_true_iff.
  assert (3 < String.length (n ++ ".gz")) as Hlen.
  { rewrite string_app_length. destruct n; [done | simpl; lia]. }
  repeat split.
  - apply String.eqb_neq. intros E. rewrite E in Hlen. simpl in Hlen. lia.
  - apply String.eqb_neq. intros E. rewrite E in Hlen. simpl in Hlen. lia.
  - apply String.eqb_neq. intros E. rewrite E in Hlen. simpl in Hlen. lia.
  - rewrite forallb_forall. intros c Hc. rewrite list_ascii_app in Hc.
    apply in_app_or in Hc as [Hc|Hc].
    + unfold no_separator in Hn. rewrite Forall_forall in Hn.
      apply negb_true_iff, Hn. by apply list_elem_of_In.
    + simpl in Hc. by destruct Hc as [<-|[<-|[<-|[]]]].
Qed.

Lemma strip_common_app es ts : strip_common es (es ++ ts) = ([], ts).
Proof.
  induction es as [|e es IH]; simpl; [by destruct ts |].
  by rewrite String.eqb_refl.
Qed.

Lemma join_longer a b : (a ++ "/" ++ b)%string ≠ a.
Proof.
  intros H. apply (f_equal String.length) in H.
  rewrite !string_app_length in H. simpl in H. lia.
Qed.

(** [Rel] gives back what was put after a plain directory. *)
Lemma rel_plain d r :
  plain d = true → plain r = true → filepath_Rel d (d ++ "/" ++ r) = Some r.
Proof.
  intros Hd Hr. unfold filepath_Rel.
  rewrite (clean_plain d), (clean_plain (d ++ "/" ++ r)) by by rewrite ?plain_app, ?Hd, ?Hr.
  destruct (String.eqb_spec (d ++ "/" ++ r) d) as [E|_]; [by apply join_longer in E |].
  destruct (String.eqb_spec d ".") as [E|_]; [by apply plain_not_dot in E |].
  rewrite rooted_app, (plain_not_rooted d Hd) by by apply plain_nonempty.
  simpl negb. cbv iota. unfold rel_elems.
  destruct (String.eqb_spec d EmptyString) as [E|_]; [by apply plain_nonempty in E |].
  destruct (String.eqb_spec d "/") as [E|_]; [by apply plain_not_root in E |].
  destruct (String.eqb_spec (d ++ "/" ++ r) EmptyString) as [E|_]; [by destruct d |].
  destruct (String.eqb_spec (d ++ "/" ++ r) "/") as [E|_].
  { apply (f_equal plain) in E. rewrite plain_app, Hd, Hr in E. done. }
  rewrite elems_app, strip_common_app. by rewrite join_elems_of.
Qed.

Lemma below_join d r : below d (d ++ "/" ++ r) = r.
Proof.
  unfold below. rewrite list_ascii_app, string_length_list.
  change (S (length (list_ascii_of_string d))) with (1 + length (list_ascii_of_string d)).
  rewrite Nat.add_comm, <- drop_drop, drop_app_length.
  simpl. apply string_of_list_ascii_of_string.
Qed.

Lemma prefix_inv a p :
  String.prefix a p = true →
  p = (a ++ string_of_list_ascii (drop (String.length a) (list_ascii_of_string p)))%string.
Proof.
  revert p. induction a as [|c a IH]; intros p H.
  - exact (eq_sym (string_of_list_ascii_of_string p)).
  - destruct p as [|c' p]; [done |].
    change (String.prefix (String c a) (String c' p))
      with (if ascii_dec c c' then String.prefix a p else false) in H.
    destruct (ascii_dec c c') as [<-|]; [| done].
    change (String c p = String c (a ++ string_of_list_ascii
                                     (drop (String.length a) (list_ascii_of_string p)))).
    f_equal. by apply IH.
Qed.

Lemma prefix_app a r : String.prefix a (a ++ r) = true.
Proof.
  induction a as [|c a IH]; [by destruct r |].
  change ((if ascii_dec c c then String.prefix a (a ++ r) else false) = true).
  rewrite IH. by destruct (ascii_dec c c).
Qed.

Lemma string_app_assoc (a b c : string) : ((a ++ b) ++ c = a ++ b ++ c)%string.
Proof.
  induction a as [|x a IH]; [done |].
  change (String x ((a ++ b) ++ c) = String x (a ++ b ++ c)). by rewrite IH.
Qed.

(** What lies under a directory is the directory or a path below it. *)
Lemma under_inv d p : under d p = true → p = d ∨ p = (d ++ "/" ++ below d p)%string.
Proof.
  unfold under. rewrite orb_true_iff. intros [H|H].
  - left. by apply String.eqb_eq.
  - right. apply prefix_inv in H. rewrite string_app_assoc in H.
    rewrite string_app_length in H. simpl String.length in H.
    rewrite Nat.add_1_r in H. exact H.
Qed.

Lemma under_join d r : under d (d ++ "/" ++ r) = true.
Proof.
  unfold under. rewrite <- string_app_assoc, prefix_app. apply orb_true_r.
Qed.

(** * [os.MkdirAll] *)

Lemma grown_refl w : grown w w.
Proof. unfold grown. naive_solver. Qed.

Lemma grown_trans w1 w2 w3 : grown w1 w2 → grown w2 w3 → grown w1 w3.
Proof.
  intros (Ha & Hv & Hf) (Ha' & Hv' & Hf'). unfold grown.
  split; [congruence |]. split; [congruence |]. intros q.
  destruct (Hf q) as [E|[E1 E2]], (Hf' q) as [E'|[E1' E2']];
    first [left; congruence | right; split; congruence].
Qed.

Lemma grown_keeps w w' q n : grown w w' → fs w !! q = Some n → fs w' !! q = Some n.
Proof. intros (_ & _ & Hf) Hq. destruct (Hf q) as [E|[E _]]; congruence. Qed.

Lemma grown_mkdir w p : fs w !! p = None → grown w (set_fs <[p := Directory]> w).
Proof.
  intros Hp. unfold grown. simpl. split; [done |]. split; [done |]. intros q.
  destruct (decide (q = p)) as [->|Hne].
  - right. by rewrite lookup_insert_eq.
  - left. by rewrite lookup_insert_ne.
Qed.

Lemma stat_lookup w p :
  stat w p = None → p ≠ EmptyString → fs w !! p = None.
Proof.
  unfold stat. destruct (String.eqb p "." || String.eqb p "/"); [done |].
  destruct (String.eqb_spec p EmptyString); done.
Qed.

Lemma stat_dir_ok w p : stat w p = Some Directory → dir_ok w p = true.
Proof.
  unfold stat, dir_ok, is_dir.
  destruct (String.eqb p "." || String.eqb p "/"); [done |].
  destruct (String.eqb p EmptyString); [done |]. by intros ->.
Qed.

Lemma stat_empty w : stat w EmptyString = None.
Proof. reflexivity. Qed.

Lemma stat_insert w p : p ≠ EmptyString → stat (set_fs <[p := Directory]> w) p = Some Directory.
Proof.
  intros Hne. unfold stat. destruct (String.eqb p "." || String.eqb p "/"); [done |].
  destruct (String.eqb_spec p EmptyString); [done |]. simpl. by rewrite lookup_insert_eq.
Qed.

Lemma os_Mkdir_any_eq fl p w :
  os_Mkdir_any fl p w =
  if fails fl (OpMkdir p) || String.eqb p EmptyString || bool_decide (is_Some (stat w p))
     || negb (dir_ok w (parent_dir p))
  then (w, Err (SysError (OpMkdir p)))
  else (set_fs <[p := Directory]> w, Ok tt).
Proof.
  unfold os_Mkdir_any. rewrite bind_eq. unfold get at 1. cbv beta iota.
  by destruct (fails fl (OpMkdir p) || String.eqb p EmptyString
               || bool_decide (is_Some (stat w p)) || negb (dir_ok w (parent_dir p))).
Qed.

Lemma os_Mkdir_any_cases fl p w :
  os_Mkdir_any fl p w = (w, Err (SysError (OpMkdir p))) ∨
  (fs w !! p = None ∧ p ≠ EmptyString ∧
   os_Mkdir_any fl p w = (set_fs <[p := Directory]> w, Ok tt)).
Proof.
  rewrite os_Mkdir_any_eq.
  destruct (fails fl (OpMkdir p)); [by left |].
  destruct (String.eqb_spec p EmptyString) as [->|Hne]; [by left |].
  destruct (bool_decide (is_Some (stat w p))) eqn:Hb; [by left |].
  apply bool_decide_eq_false_1 in Hb. apply eq_None_not_Some in Hb.
  simpl. destruct (dir_ok w (parent_dir p)); [| by left].
  right. split; [by apply stat_lookup |]. done.
Qed.

Lemma mkdir_all_eq fuel fl path w :
  mkdir_all fuel fl path w =
  match stat w path with
  | Some Directory => (w, Ok tt)
  | Some (File _) => (w, Err (SysError (OpMkdir path)))
  | None =>
      match fuel with
      | O => (w, Err (SysError (OpMkdir path)))
      | S fuel' =>
          match (match mkdirall_parent path with
                 | Some parent => mkdir_all fuel' fl parent
                 | None => ret tt
                 end) w with
          | (w1, Ok _) => os_Mkdir_any fl path w1
          | (w1, Err e) => (w1, Err e)
          end
      end
  end.
Proof.
  destruct fuel; simpl; rewrite bind_eq; unfold get at 1; cbv iota;
    by destruct (stat w path) as [[|]|].
Qed.

(** [MkdirAll] adds directories and changes nothing else, whatever it
    answers. *)
Lemma mkdir_all_grown fuel fl path w : grown w (fst (mkdir_all fuel fl path w)).
Proof.
  revert path w. induction fuel as [|fuel IH]; intros path w; rewrite mkdir_all_eq.
  - destruct (stat w path) as [[|]|]; apply grown_refl.
  - destruct (stat w path) as [[|]|]; try apply grown_refl.
    assert (grown w (fst ((match mkdirall_parent path with
                           | Some parent => mkdir_all fuel fl parent
                           | None => ret tt
                           end) w))) as Hg.
    { destruct (mkdirall_parent path); [apply IH | apply grown_refl]. }
    destruct ((match mkdirall_parent path with
               | Some parent => mkdir_all fuel fl parent
               | None => ret tt
               end) w) as [w1 [[]|e]]; simpl in Hg; [| done].
    destruct (os_Mkdir_any_cases fl path w1) as [->|(Hn & _ & ->)]; simpl; [done |].
    eapply grown_trans; [done |]. by apply grown_mkdir.
Qed.

(** When it answers without error the path is a directory. *)
Lemma mkdir_all_ok fuel fl path w w' :
  mkdir_all fuel fl path w = (w', Ok tt) → stat w' path = Some Directory.
Proof.
  rewrite mkdir_all_eq. destruct (stat w path) as [[|]|] eqn:Hs; [done | by intros [= <-] |].
  destruct fuel as [|fuel]; [done |].
  destruct ((match mkdirall_parent path with
             | Some parent => mkdir_all fuel fl parent
             | None => ret tt
             end) w) as [w1 [[]|e]]; [| done].
  destruct (os_Mkdir_any_cases fl path w1) as [->|(Hn & Hne & ->)]; [done |].
  intros [= <-]. by apply stat_insert.
Qed.

Lemma os_MkdirAll_grown fl path w : grown w (fst (os_MkdirAll fl path w)).
Proof. apply mkdir_all_grown. Qed.

Lemma os_MkdirAll_ok fl path w w' :
  os_MkdirAll fl path w = (w', Ok tt) → stat w' path = Some Directory ∧ grown w w'.
Proof.
  intros H. split; [by eapply mkdir_all_ok |].
  pose proof (os_MkdirAll_grown fl path w) as Hg. by rewrite H in Hg.
Qed.

Lemma stat_insert_ne w p q n : p ≠ q → stat (set_fs <[p := n]> w) q = stat w q.
Proof. intros Hne. unfold stat. simpl. by rewrite lookup_insert_ne. Qed.

Lemma os_MkdirAll_there fl path w :
  stat w path = Some Directory → os_MkdirAll fl path w = (w, Ok tt).
Proof. intros H. unfold os_MkdirAll. by rewrite mkdir_all_eq, H. Qed.

Lemma os_Create_any_eq fl p w :
  os_Create_any fl p w =
  if fails fl (OpCreate p) || negb (creatable w p)
  then (w, Err (SysError (OpCreate p)))
  else (set_fs <[p := File []]> w, Ok p).
Proof.
  unfold os_Create_any. rewrite bind_eq. unfold get at 1. cbv beta iota.
  by destruct (fails fl (OpCreate p) || negb (creatable w p)).
Qed.

Lemma os_Open_any_eq fl op p w :
  os_Open_any fl op p w =
  if fails fl op || negb (bool_decide (is_Some (stat w p)))
  then (w, Err (SysError op)) else (w, Ok p).
Proof.
  unfold os_Open_any. rewrite bind_eq. unfold get at 1. cbv beta iota.
  by destruct (fails fl op || negb (bool_decide (is_Some (stat w p)))).
Qed.

(** What [Stat] finds to be a regular file is one of the files of the
    world. *)
Lemma stat_file w p data : stat w p = Some (File data) → fs w !! p = Some (File data).
Proof.
  unfold stat. destruct (String.eqb p "." || String.eqb p "/"); [done |].
  by destruct (String.eqb p EmptyString).
Qed.

Lemma stat_grown w w' p n : grown w w' → stat w p = Some n → stat w' p = Some n.
Proof.
  intros Hg. unfold stat. destruct (String.eqb p "." || String.eqb p "/"); [done |].
  destruct (String.eqb p EmptyString); [done |]. by apply grown_keeps.
Qed.

Lemma os_Open_any_there fl op p w n :
  stat w p = Some n → fails fl op = false → os_Open_any fl op p w = (w, Ok p).
Proof.
  intros Hs Hf. rewrite os_Open_any_eq, Hf.
  by rewrite bool_decide_eq_true_2 by (rewrite Hs; eauto).
Qed.

Lemma set_fs_twice p a b w :
  set_fs <[p := a]> (set_fs <[p := b]> w) = set_fs <[p := a]> w.
Proof. unfold set_fs. simpl. by rewrite insert_insert_eq. Qed.

(** * The stand-in codec is sound *)

Lemma unbits_bits p : unbits (bits p) = Some p.
Proof. induction p as [p IH|p IH|]; simpl; [by rewrite IH.. | done]. Qed.

Lemma unframed_framed p : unframed (framed p) = Some p.
Proof. apply unbits_bits. Qed.

Lemma code_bytes_codes bs : code_bytes (byte_codes bs) = Some bs.
Proof.
  unfold code_bytes, byte_codes. apply mapM_Some. induction bs as [|b bs IH]; simpl.
  - constructor.
  - constructor; [apply Byte.of_to_N | done].
Qed.

Lemma code_type_code t : code_type (type_code t) = Some t.
Proof.
  destruct t as [| |flag]; [done.. |]. unfold code_type, type_code.
  assert (2 + Byte.to_N flag - 2 = Byte.to_N flag)%N as -> by lia.
  destruct (N.eqb_spec (2 + Byte.to_N flag) 0); [lia |].
  destruct (N.eqb_spec (2 + Byte.to_N flag) 1); [lia |].
  by rewrite Byte.of_to_N.
Qed.

Lemma code_entry_code e : code_entry (entry_code e) = Some e.
Proof.
  destruct e as [name t data]. unfold code_entry, entry_code. simpl.
  rewrite code_type_code. simpl. by rewrite code_bytes_codes.
Qed.

Lemma stored_gzip_sound : gzip_sound stored_gzip.
Proof.
  intros name data _. unfold gz_decode, gz_encode, stored_gzip.
  rewrite unframed_framed. simpl. rewrite decode_encode. simpl.
  by rewrite code_bytes_codes.
Qed.

Lemma stored_targz_sound : targz_sound stored_targz.
Proof.
  intros entries. unfold tgz_decode, tgz_encode, stored_targz.
  rewrite unframed_framed. simpl. rewrite decode_encode. simpl.
  assert (mapM code_entry (map entry_code entries) = Some entries) as ->; [| done].
  apply mapM_Some. induction entries as [|e es IH]; simpl; constructor; [| done].
  apply code_entry_code.
Qed.

(** * [compressFile] and [decompressFile] *)

Arguments os_MkdirAll : simpl never.
Arguments gz_encode : simpl never.
Arguments gz_decode : simpl never.
Arguments gz_name_ok : simpl never.
Arguments tgz_encode : simpl never.
Arguments tgz_decode : simpl never.

Lemma close_output_eq xl path w bytes :
  fs w !! path = Some (File bytes) →
  close_output xl path w = (set_fs <[path := File (cut xl path bytes)]> w, Ok tt).
Proof.
  intros Hp. unfold close_output, cut. rewrite bind_eq. unfold get at 1. cbv beta iota.
  rewrite Hp. destruct (flush_cut xl path); [done |].
  unfold ret. f_equal. destruct w as [f a v]. unfold set_fs. simpl in *.
  by rewrite insert_id.
Qed.

(** The archive of a file is not the file. *)
Lemma archive_is_not_input inputFile outputDir :
  filepath_Base inputFile ≠ "/"%string →
  (outputDir ++ "/" ++ filepath_Base inputFile ++ ".gz")%string ≠ inputFile.
Proof.
  intros Hb E. apply (f_equal filepath_Base) in E.
  rewrite base_of_join in E.
  - apply (f_equal String.length) in E. rewrite string_app_length in E. simpl in E. lia.
  - by destruct (filepath_Base inputFile).
  - apply simple_no_sep, simple_with_ext; [apply base_nonempty | by apply base_no_separator].
Qed.

Lemma archive_path inputFile outputDir :
  plain outputDir = true → filepath_Base inputFile ≠ "/"%string →
  filepath_Join2 outputDir (filepath_Base inputFile ++ ".gz")
  = (outputDir ++ "/" ++ filepath_Base inputFile ++ ".gz")%string.
Proof.
  intros Hd Hb. apply join_plain; [done |].
  apply simple_plain, simple_with_ext; [apply base_nonempty | by apply base_no_separator].
Qed.

Lemma plain_join_stat w d n :
  plain d = true → stat w (d ++ "/" ++ n) = fs w !! (d ++ "/" ++ n)%string.
Proof.
  intros Hd. unfold stat.
  assert (1 < String.length (d ++ "/" ++ n)) as Hlen.
  { rewrite !string_app_length. apply plain_nonempty in Hd. destruct d; [done |]. simpl. lia. }
  destruct (String.eqb_spec (d ++ "/" ++ n) ".") as [E|_]; [rewrite E in Hlen; simpl in Hlen; lia |].
  destruct (String.eqb_spec (d ++ "/" ++ n) "/") as [E|_]; [rewrite E in Hlen; simpl in Hlen; lia |].
  destruct (String.eqb_spec (d ++ "/" ++ n) EmptyString) as [E|_];
    [rewrite E in Hlen; simpl in Hlen; lia |]. done.
Qed.

Lemma no_trailing_separator d n :
  n ≠ EmptyString → no_separator n → strings_HasSuffix (d ++ "/" ++ n) "/" = false.
Proof.
  intros Hne Hn. unfold strings_HasSuffix. rewrite rev_join.
  destruct (nonempty_last n Hne Hn) as (c & rs & -> & Hc).
  cbn [is_prefix rev list_ascii_of_string app].
  unfold isPathSeparator in Hc. by rewrite Ascii.eqb_sym, Hc.
Qed.

(** Creating a name in a plain directory that is there. *)
Lemma os_Create_in fl d n w :
  plain d = true → n ≠ EmptyString → no_separator n → stat w d = Some Directory →
  os_Create_any fl (d ++ "/" ++ n) w =
  if fails fl (OpCreate (d ++ "/" ++ n)) || is_dir w (d ++ "/" ++ n)
  then (w, Err (SysError (OpCreate (d ++ "/" ++ n))))
  else (set_fs <[(d ++ "/" ++ n)%string := File []]> w, Ok (d ++ "/" ++ n)%string).
Proof.
  intros Hd Hne Hn Hs. rewrite os_Create_any_eq. unfold creatable.
  rewrite parent_dir_plain, no_trailing_separator by done.
  rewrite (stat_dir_ok _ _ Hs). unfold is_directory. rewrite plain_join_stat by done.
  fold (is_dir w (d ++ "/" ++ n)).
  destruct (String.eqb_spec (d ++ "/" ++ n) EmptyString) as [E|_]; [by destruct d |].
  simpl negb. by rewrite andb_true_r, negb_involutive.
Qed.

Lemma compress_run {G : Gzip} fl xl inputFile outputDir w w1 data :
  plain outputDir = true →
  filepath_Base inputFile ≠ "/"%string →
  gz_name_ok (filepath_Base inputFile) = true →
  stat w inputFile = Some (File data) →
  os_MkdirAll fl outputDir w = (w1, Ok tt) →
  is_dir w1 (outputDir ++ "/" ++ filepath_Base inputFile ++ ".gz") = false →
  fails fl (OpOpen inputFile) = false →
  fails fl (OpCreate (outputDir ++ "/" ++ filepath_Base inputFile ++ ".gz")) = false →
  fails fl (OpCopy (outputDir ++ "/" ++ filepath_Base inputFile ++ ".gz")) = false →
  compressFile fl xl inputFile outputDir w =
    (set_fs <[(outputDir ++ "/" ++ filepath_Base inputFile ++ ".gz")%string :=
                File (cut xl (outputDir ++ "/" ++ filepath_Base inputFile ++ ".gz")
                        (gz_encode (filepath_Base inputFile) data))]> w1,
     Ok tt).
Proof.
  intros Hd Hb Hok Hin Hmk Hnd Ho Hc Hcp.
  destruct (os_MkdirAll_ok _ _ _ _ Hmk) as [Hs Hg].
  pose proof (stat_grown _ _ _ _ Hg Hin) as Hst1.
  pose proof (stat_file _ _ _ Hst1) as Hin1.
  pose proof (archive_is_not_input inputFile outputDir Hb) as Hne.
  unfold compressFile. rewrite bind_eq, wrap_eq, Hmk.
  rewrite bind_eq, wrap_eq, (os_Open_any_there _ _ _ _ _ Hst1 Ho).
  rewrite archive_path by done.
  set (out := (outputDir ++ "/" ++ filepath_Base inputFile ++ ".gz")%string) in *.
  rewrite bind_eq, wrap_eq. unfold out at 1.
  rewrite os_Create_in; [| done | | | done].
  2:{ pose proof (base_nonempty inputFile). by destruct (filepath_Base inputFile). }
  2:{ apply simple_no_sep, simple_with_ext; [apply base_nonempty | by apply base_no_separator]. }
  fold out. rewrite Hc, Hnd. simpl orb. cbv iota.
  rewrite bind_eq, wrap_eq. unfold gzip_copy. rewrite bind_eq. unfold get at 1.
  cbv beta iota. rewrite Hok. simpl negb. cbv iota.
  assert (fs (set_fs <[out := File []]> w1) !! inputFile = Some (File data)) as ->.
  { simpl. by rewrite lookup_insert_ne. }
  rewrite Hcp. cbn [negb]. cbv iota. rewrite bind_eq. unfold modify at 1. cbv beta iota.
  rewrite (close_output_eq _ _ _ (gz_encode (filepath_Base inputFile) data)).
  2:{ simpl. by rewrite lookup_insert_eq. }
  unfold ret. by rewrite !set_fs_twice.
Qed.

Lemma gzip_NewReader_eq {G : Gzip} fl src w :
  gzip_NewReader fl src w =
  match fs w !! src with
  | Some (File bytes) =>
      match gz_decode bytes with
      | Some r => (w, Ok r)
      | None => (w, Err (SysError (OpHashRead src)))
      end
  | _ => (w, Err (SysError (OpHashRead src)))
  end.
Proof.
  unfold gzip_NewReader. rewrite bind_eq. unfold get at 1. cbv beta iota.
  destruct (fs w !! src) as [[bytes|]|]; try done. by destruct (gz_decode bytes).
Qed.

Lemma write_out_eq fl dst data intact w :
  write_out fl dst data intact w =
  if fails fl (OpCopy dst)
  then (set_fs <[dst := File (firstn (written fl dst) data)]> w, Err (SysError (OpCopy dst)))
  else (set_fs <[dst := File data]> w,
        if intact then Ok tt else Err (SysError (OpCopy dst))).
Proof.
  unfold write_out. destruct (fails fl (OpCopy dst)); [done |].
  rewrite bind_eq. unfold modify at 1. cbv beta iota. by destruct intact.
Qed.

Lemma decompress_run {G : Gzip} fl inputFile outputDir w w1 bytes name data :
  plain outputDir = true →
  simple name = true →
  stat w inputFile = Some (File bytes) →
  gz_decode bytes = Some (name, data, true) →
  os_MkdirAll fl outputDir w = (w1, Ok tt) →
  (outputDir ++ "/" ++ name)%string ≠ inputFile →
  is_dir w1 (outputDir ++ "/" ++ name) = false →
  fails fl (OpOpen inputFile) = false →
  fails fl (OpCreate (outputDir ++ "/" ++ name)) = false →
  fails fl (OpCopy (outputDir ++ "/" ++ name)) = false →
  decompressFile fl inputFile outputDir w =
    (set_fs <[(outputDir ++ "/" ++ name)%string := File data]> w1, Ok tt).
Proof.
  intros Hd Hn Hin Hdec Hmk Hne Hnd Ho Hc Hcp.
  destruct (os_MkdirAll_ok _ _ _ _ Hmk) as [Hs Hg].
  pose proof (stat_grown _ _ _ _ Hg Hin) as Hst1.
  pose proof (stat_file _ _ _ Hst1) as Hin1.
  unfold decompressFile. rewrite bind_eq, wrap_eq, Hmk.
  rewrite bind_eq, wrap_eq, (os_Open_any_there _ _ _ _ _ Hst1 Ho).
  rewrite bind_eq, wrap_eq, gzip_NewReader_eq, Hin1, Hdec. cbv iota beta.
  rewrite join_plain by (done || by apply simple_plain).
  destruct (String.eqb_spec (outputDir ++ "/" ++ name) EmptyString) as [E|_].
  { by destruct outputDir. }
  rewrite bind_eq, wrap_eq, os_Create_in
    by (done || (by apply simple_no_sep) || (intros ->; done)).
  rewrite Hc, Hnd. simpl orb. cbv iota.
  rewrite wrap_eq, write_out_eq, Hcp. by rewrite set_fs_twice.
Qed.

(** X13. Compressing a regular file into a plain directory that can be made
    leaves, under the base name with [.gz] put after it, the gzip stream that
    carries the base name and the bytes of the file; an archive of that name
    that was there is replaced, and the file itself stays as it is. The call
    answers without error also when the deferred close broke off, and then
    the archive is cut short. *)
Theorem compressFile_writes_archive {G : Gzip} fl xl inputFile outputDir w w1 data :
  plain outputDir = true →
  filepath_Base inputFile ≠ "/"%string →
  gz_name_ok (filepath_Base inputFile) = true →
  stat w inputFile = Some (File data) →
  os_MkdirAll fl outputDir w = (w1, Ok tt) →
  is_dir w1 (gz_path outputDir inputFile) = false →
  fails fl (OpOpen inputFile) = false →
  fails fl (OpCreate (gz_path outputDir inputFile)) = false →
  fails fl (OpCopy (gz_path outputDir inputFile)) = false →
  compressFile fl xl inputFile outputDir w =
    (set_fs <[gz_path outputDir inputFile :=
                File (cut xl (gz_path outputDir inputFile)
                        (gz_encode (filepath_Base inputFile) data))]> w1,
     Ok tt) ∧
  stat (fst (compressFile fl xl inputFile outputDir w)) inputFile = Some (File data).
Proof.
  intros Hd Hb Hok Hin Hmk Hnd Ho Hc Hcp. unfold gz_path in *.
  rewrite (compress_run fl xl inputFile outputDir w w1 data) by done.
  split; [done |]. simpl fst.
  destruct (os_MkdirAll_ok _ _ _ _ Hmk) as [_ Hg].
  rewrite stat_insert_ne by by apply archive_is_not_input.
  by apply (stat_grown w).
Qed.

Lemma clean_step_nonempty rooted stack e :
  Forall (λ x, x ≠ EmptyString) stack →
  Forall (λ x, x ≠ EmptyString) (clean_step rooted stack e).
Proof.
  intros Hs. unfold clean_step.
  destruct (String.eqb_spec e EmptyString) as [->|Hne]; [done |]. simpl orb.
  destruct (String.eqb e "."); [done |].
  destruct (String.eqb e "..").
  - destruct stack as [|top below].
    + destruct rooted; by repeat constructor.
    + inversion Hs; subst. destruct (String.eqb top ".."); by repeat constructor.
  - by constructor.
Qed.

Lemma fold_clean_nonempty rooted es stack :
  Forall (λ x, x ≠ EmptyString) stack →
  Forall (λ x, x ≠ EmptyString) (fold_left (clean_step rooted) es stack).
Proof.
  revert stack. induction es as [|e es IH]; intros stack Hs; simpl; [done |].
  by apply IH, clean_step_nonempty.
Qed.

(** [Clean] never answers the empty string, and so [Join] does not when one
    of its elements is not empty. *)
Lemma clean_nonempty p : filepath_Clean p ≠ EmptyString.
Proof.
  unfold filepath_Clean. destruct (is_rooted p); [done |].
  pose proof (fold_clean_nonempty false (elems p) [] (Forall_nil_2 _)) as H.
  apply Forall_rev in H.
  destruct (rev (fold_left (clean_step false) (elems p) [])) as [|e es]; [done |].
  inversion H as [|? ? He _]; subst.
  destruct es; [done |]. rewrite join_elems_cons. by destruct e.
Qed.

Lemma join_nonempty a b : a ≠ EmptyString → filepath_Join2 a b ≠ EmptyString.
Proof.
  intros Ha. unfold filepath_Join2.
  destruct (String.eqb_spec a EmptyString) as [->|_]; [done |]. apply clean_nonempty.
Qed.

Lemma string_app_inv_head (a x y : string) : (a ++ x = a ++ y)%string → x = y.
Proof.
  induction a as [|c a IH]; [done |].
  change (String c (a ++ x) = String c (a ++ y) → x = y). intros [= H]. by apply IH.
Qed.

Lemma plain_is_dir w p : plain p = true → stat w p = Some Directory → is_dir w p = true.
Proof.
  intros Hp. unfold stat, is_dir.
  destruct (String.eqb_spec p ".") as [->|_]; [done |].
  destruct (String.eqb_spec p "/") as [->|_]; [done |]. simpl.
  destruct (String.eqb_spec p EmptyString) as [->|_]; [done |]. by intros ->.
Qed.

(** A name beside a directory is not under it. *)
Lemma sibling_outside a leaf n :
  simple n = true → n ≠ leaf → under (a ++ "/" ++ leaf) (a ++ "/" ++ n) = false.
Proof.
  intros Hn Hne. unfold under. apply orb_false_iff. split.
  - apply String.eqb_neq. intros E. apply string_app_inv_head in E.
    by apply string_app_inv_head in E.
  - destruct (String.prefix ((a ++ "/" ++ leaf) ++ "/") (a ++ "/" ++ n)) eqn:E; [| done].
    apply prefix_inv in E. rewrite !string_app_assoc in E.
    apply string_app_inv_head in E. change ("/" ++ n)%string with (String "/" n) in E.
    injection E as E. apply simple_no_sep in Hn. unfold no_separator in Hn.
    rewrite E, !list_ascii_app in Hn. apply Forall_app in Hn as [_ Hn].
    simpl in Hn. apply Forall_app in Hn as [_ Hn].
    inversion Hn as [|? ? Hc _]. by vm_compute in Hc.
Qed.

Lemma sibling_not_under w a leaf n :
  plain a = true → simple n = true →
  stat w (a ++ "/" ++ leaf) = Some Directory →
  is_dir w (a ++ "/" ++ n) = false →
  under (a ++ "/" ++ leaf) (a ++ "/" ++ n) = false.
Proof.
  intros Ha Hn Hs Hd. apply sibling_outside; [done |]. intros ->.
  rewrite plain_join_stat in Hs by done. unfold is_dir in Hd. by rewrite Hs in Hd.
Qed.

(** X14. Decompressing an archive whose header names a plain file into a
    plain directory that can be made leaves the bytes of the stream under
    that name in the directory, replacing what was there; the archive stays
    as it is. *)
Theorem decompressFile_writes_named_file {G : Gzip} fl inputFile outputDir w w1
    bytes name data :
  plain outputDir = true →
  simple name = true →
  stat w inputFile = Some (File bytes) →
  gz_decode bytes = Some (name, data, true) →
  os_MkdirAll fl outputDir w = (w1, Ok tt) →
  (outputDir ++ "/" ++ name)%string ≠ inputFile →
  is_dir w1 (outputDir ++ "/" ++ name) = false →
  fails fl (OpOpen inputFile) = false →
  fails fl (OpCreate (outputDir ++ "/" ++ name)) = false →
  fails fl (OpCopy (outputDir ++ "/" ++ name)) = false →
  decompressFile fl inputFile outputDir w =
    (set_fs <[(outputDir ++ "/" ++ name)%string := File data]> w1, Ok tt) ∧
  stat (fst (decompressFile fl inputFile outputDir w)) inputFile = Some (File bytes).
Proof.
  intros Hd Hn Hin Hdec Hmk Hne Hnd Ho Hc Hcp.
  rewrite (decompress_run fl inputFile outputDir w w1 bytes name data) by done.
  split; [done |]. simpl fst.
  destruct (os_MkdirAll_ok _ _ _ _ Hmk) as [_ Hg].
  rewrite stat_insert_ne by done. by apply (stat_grown w).
Qed.

(** X15. Round trip: with a sound codec and no failing call, compressing a
    file and decompressing the archive into a plain directory gives a file
    with the same bytes under the same base name. *)
Theorem decompress_undoes_compress {G : Gzip} inputFile archiveDir outputDir w w1 w3 data :
  gzip_sound G →
  plain archiveDir = true →
  plain outputDir = true →
  simple (filepath_Base inputFile) = true →
  gz_name_ok (filepath_Base inputFile) = true →
  stat w inputFile = Some (File data) →
  os_MkdirAll no_faults archiveDir w = (w1, Ok tt) →
  is_dir w1 (gz_path archiveDir inputFile) = false →
  os_MkdirAll no_faults outputDir
    (set_fs <[gz_path archiveDir inputFile :=
                File (gz_encode (filepath_Base inputFile) data)]> w1) = (w3, Ok tt) →
  is_dir w3 (outputDir ++ "/" ++ filepath_Base inputFile) = false →
  (outputDir ++ "/" ++ filepath_Base inputFile)%string ≠ gz_path archiveDir inputFile →
  compressFile no_faults flushes inputFile archiveDir w =
    (set_fs <[gz_path archiveDir inputFile :=
                File (gz_encode (filepath_Base inputFile) data)]> w1, Ok tt) ∧
  decompressFile no_faults (gz_path archiveDir inputFile) outputDir
    (set_fs <[gz_path archiveDir inputFile :=
                File (gz_encode (filepath_Base inputFile) data)]> w1) =
    (set_fs <[(outputDir ++ "/" ++ filepath_Base inputFile)%string := File data]> w3, Ok tt).
Proof.
  intros Hsound Ha Ho Hb Hok Hin Hmk Hnd Hmk2 Hnd2 Hne. split.
  - unfold gz_path in *.
    rewrite (compress_run no_faults flushes inputFile archiveDir w w1 data); try done.
    intros E. by rewrite E in Hb.
  - eapply decompress_run; try done.
    + unfold gz_path. rewrite plain_join_stat by done. simpl. apply lookup_insert_eq.
    + by apply Hsound.
Qed.

(** X16. When the input is not there, [compressFile] has made the output
    directory before it finds out: it answers the error of the open and
    leaves the directory behind. *)
Theorem compressFile_makes_directory_first {G : Gzip} fl xl inputFile outputDir w w1 :
  os_MkdirAll fl outputDir w = (w1, Ok tt) →
  stat w1 inputFile = None →
  compressFile fl xl inputFile outputDir w =
    (w1, Err (Errorf "failed to open input file" (SysError (OpOpen inputFile)))) ∧
  stat w1 outputDir = Some Directory.
Proof.
  intros Hmk Hin. split; [| by apply os_MkdirAll_ok in Hmk as [? _]].
  unfold compressFile. rewrite bind_eq, wrap_eq, Hmk.
  rewrite bind_eq, wrap_eq, os_Open_any_eq.
  rewrite bool_decide_eq_false_2 by (rewrite Hin; by intros [? ?]).
  by rewrite orb_true_r.
Qed.

(** X27. The archive is named after the base name alone: two files with the
    same base name, compressed one after the other into the same directory,
    share one archive path, and the second archive replaces the first. *)
Theorem compressFile_same_base_name_overwrites {G : Gzip} fl xl p1 p2 outputDir w w1
    d1 d2 :
  plain outputDir = true →
  filepath_Base p1 = filepath_Base p2 →
  filepath_Base p1 ≠ "/"%string →
  gz_name_ok (filepath_Base p1) = true →
  stat w p1 = Some (File d1) →
  stat w p2 = Some (File d2) →
  os_MkdirAll fl outputDir w = (w1, Ok tt) →
  is_dir w1 (gz_path outputDir p1) = false →
  fails fl (OpOpen p1) = false →
  fails fl (OpOpen p2) = false →
  fails fl (OpCreate (gz_path outputDir p1)) = false →
  fails fl (OpCopy (gz_path outputDir p1)) = false →
  gz_path outputDir p1 = gz_path outputDir p2 ∧
  snd (compressFile fl xl p1 outputDir w) = Ok tt ∧
  compressFile fl xl p2 outputDir (fst (compressFile fl xl p1 outputDir w)) =
    (set_fs <[gz_path outputDir p1 :=
                File (cut xl (gz_path outputDir p1) (gz_encode (filepath_Base p2) d2))]> w1,
     Ok tt).
Proof.
  intros Hd Hbase Hb Hok H1 H2 Hmk Hnd Ho1 Ho2 Hc Hcp.
  assert (gz_path outputDir p1 = gz_path outputDir p2) as Hpath.
  { unfold gz_path. by rewrite Hbase. }
  split; [done |]. unfold gz_path in *.
  rewrite (compress_run fl xl p1 outputDir w w1 d1) by done.
  split; [done |]. simpl fst.
  destruct (os_MkdirAll_ok _ _ _ _ Hmk) as [Hs Hg].
  rewrite Hbase in *.
  rewrite (compress_run fl xl p2 outputDir _
             (set_fs <[(outputDir ++ "/" ++ filepath_Base p2 ++ ".gz")%string :=
                         File (cut xl (outputDir ++ "/" ++ filepath_Base p2 ++ ".gz")
                                 (gz_encode (filepath_Base p2) d1))]> w1) d2); try done.
  - by rewrite set_fs_twice.
  - rewrite stat_insert_ne by by apply archive_is_not_input. by apply (stat_grown w).
  - apply os_MkdirAll_there. rewrite stat_insert_ne; [done |].
    intros E. apply (f_equal String.length) in E.
    rewrite !string_app_length in E. simpl in E. lia.
  - unfold is_dir. simpl. by rewrite lookup_insert_eq.
Qed.

(** X17. The name in the header is joined to the output directory as it is:
    an archive that names [../n] is unpacked beside the output directory,
    not in it. *)
Theorem decompressFile_follows_dotdot {G : Gzip} fl inputFile a leaf n w w1 bytes data :
  plain a = true →
  simple leaf = true →
  simple n = true →
  stat w inputFile = Some (File bytes) →
  gz_decode bytes = Some (".." ++ "/" ++ n, data, true)%string →
  os_MkdirAll fl (a ++ "/" ++ leaf) w = (w1, Ok tt) →
  stat w1 a = Some Directory →
  (a ++ "/" ++ n)%string ≠ inputFile →
  is_dir w1 (a ++ "/" ++ n) = false →
  fails fl (OpOpen inputFile) = false →
  fails fl (OpCreate (a ++ "/" ++ n)) = false →
  fails fl (OpCopy (a ++ "/" ++ n)) = false →
  decompressFile fl inputFile (a ++ "/" ++ leaf) w =
    (set_fs <[(a ++ "/" ++ n)%string := File data]> w1, Ok tt) ∧
  under (a ++ "/" ++ leaf) (a ++ "/" ++ n) = false.
Proof.
  intros Ha Hl Hn Hin Hdec Hmk Hsa Hne Hnd Ho Hc Hcp.
  destruct (os_MkdirAll_ok _ _ _ _ Hmk) as [Hs Hg].
  pose proof (stat_grown _ _ _ _ Hg Hin) as Hst1.
  pose proof (stat_file _ _ _ Hst1) as Hin1.
  split; [| by eapply sibling_not_under].
  unfold decompressFile. rewrite bind_eq, wrap_eq, Hmk.
  rewrite bind_eq, wrap_eq, (os_Open_any_there _ _ _ _ _ Hst1 Ho).
  rewrite bind_eq, wrap_eq, gzip_NewReader_eq, Hin1, Hdec. cbv iota beta.
  rewrite join_dotdot by (done || by apply simple_plain).
  destruct (String.eqb_spec (a ++ "/" ++ n) EmptyString) as [E|_].
  { by destruct a. }
  rewrite bind_eq, wrap_eq, os_Create_in
    by (done || (by apply simple_no_sep) || (intros ->; done)).
  rewrite Hc, Hnd. simpl orb. cbv iota.
  rewrite wrap_eq, write_out_eq, Hcp. by rewrite set_fs_twice.
Qed.

(** X18. The check for an empty output path never fires: whatever the
    archive, the faults and the directory, [decompressFile] does not answer
    the error that says the header holds no name. *)
Theorem decompressFile_empty_name_check_is_dead {G : Gzip} fl inputFile outputDir w e :
  snd (decompressFile fl inputFile outputDir w)
  ≠ Err (Errorf "gzip header does not contain the original file name" e).
Proof.
  unfold decompressFile. rewrite bind_eq, wrap_eq.
  destruct (os_MkdirAll fl outputDir w) as [w1 [[]|e1]] eqn:Hmk; [| by intros [=]].
  assert (outputDir ≠ EmptyString) as Hne.
  { intros ->. apply os_MkdirAll_ok in Hmk as [Hs _]. by rewrite stat_empty in Hs. }
  rewrite bind_eq, wrap_eq, os_Open_any_eq.
  destruct (fails fl (OpOpen inputFile) || negb (bool_decide (is_Some (stat w1 inputFile))));
    [by intros [=] |].
  rewrite bind_eq, wrap_eq, gzip_NewReader_eq.
  destruct (fs w1 !! inputFile) as [[bytes|]|]; [| by intros [=] ..].
  destruct (gz_decode bytes) as [[[name data] intact]|]; [| by intros [=]].
  destruct (String.eqb_spec (filepath_Join2 outputDir name) EmptyString) as [E|_].
  { by apply join_nonempty in E. }
  rewrite bind_eq, wrap_eq, os_Create_any_eq.
  destruct (fails fl (OpCreate (filepath_Join2 outputDir name))
            || negb (creatable w1 (filepath_Join2 outputDir name)));
    [by intros [=] |].
  rewrite wrap_eq, write_out_eq.
  destruct (fails fl (OpCopy (filepath_Join2 outputDir name))); [by intros [=] |].
  by destruct intact; intros [=].
Qed.

(** X19. An archive without a name in its header is not told apart: the
    output path is then the output directory itself, and the call fails
    where it tries to create that as a file. *)
Theorem decompressFile_nameless_archive {G : Gzip} fl inputFile outputDir w w1
    bytes data intact :
  plain outputDir = true →
  stat w inputFile = Some (File bytes) →
  gz_decode bytes = Some (EmptyString, data, intact) →
  os_MkdirAll fl outputDir w = (w1, Ok tt) →
  fails fl (OpOpen inputFile) = false →
  decompressFile fl inputFile outputDir w =
    (w1, Err (Errorf "failed to create output file" (SysError (OpCreate outputDir)))).
Proof.
  intros Hd Hin Hdec Hmk Ho.
  destruct (os_MkdirAll_ok _ _ _ _ Hmk) as [Hs Hg].
  pose proof (stat_grown _ _ _ _ Hg Hin) as Hst1.
  pose proof (stat_file _ _ _ Hst1) as Hin1.
  unfold decompressFile. rewrite bind_eq, wrap_eq, Hmk.
  rewrite bind_eq, wrap_eq, (os_Open_any_there _ _ _ _ _ Hst1 Ho).
  rewrite bind_eq, wrap_eq, gzip_NewReader_eq, Hin1, Hdec. cbv iota beta.
  rewrite join_empty by done.
  destruct (String.eqb_spec outputDir EmptyString) as [E|_].
  { by apply plain_nonempty in E. }
  rewrite bind_eq, wrap_eq, os_Create_any_eq. unfold creatable, is_directory.
  rewrite Hs. simpl negb. by rewrite andb_false_r, orb_true_r.
Qed.

Lemma compressFile_writes_archive_witness :
  compressFile no_faults (mkFlush (λ _, Some 5)) "docs/a.txt" "compressed" papers =
    (set_fs <[gz_path "compressed" "docs/a.txt" :=
                File (cut (mkFlush (λ _, Some 5)) (gz_path "compressed" "docs/a.txt")
                        (gz_encode (filepath_Base "docs/a.txt") (bytes_of_string "abc")))]>
       (set_fs <["compressed"%string := Directory]> papers),
     Ok tt) ∧
  stat (fst (compressFile no_faults (mkFlush (λ _, Some 5)) "docs/a.txt" "compressed" papers))
    "docs/a.txt" = Some (File (bytes_of_string "abc")).
Proof.
  apply (compressFile_writes_archive no_faults (mkFlush (λ _, Some 5))
           "docs/a.txt" "compressed" papers
           (set_fs <["compressed"%string := Directory]> papers) (bytes_of_string "abc"));
    vm_compute; first [reflexivity | discriminate].
Defined.

Lemma decompressFile_writes_named_file_witness :
  decompressFile no_faults "compressed/a.txt.gz" "out/deep"
    (set_fs <["compressed/a.txt.gz"%string :=
                File (gz_encode "a.txt" (bytes_of_string "abc"))]> papers) =
    (set_fs <[("out/deep" ++ "/" ++ "a.txt")%string := File (bytes_of_string "abc")]>
       (set_fs <["out/deep"%string := Directory]>
          (set_fs <["out"%string := Directory]>
             (set_fs <["compressed/a.txt.gz"%string :=
                         File (gz_encode "a.txt" (bytes_of_string "abc"))]> papers))),
     Ok tt) ∧
  stat (fst (decompressFile no_faults "compressed/a.txt.gz" "out/deep"
               (set_fs <["compressed/a.txt.gz"%string :=
                           File (gz_encode "a.txt" (bytes_of_string "abc"))]> papers)))
    "compressed/a.txt.gz" = Some (File (gz_encode "a.txt" (bytes_of_string "abc"))).
Proof.
  apply (decompressFile_writes_named_file no_faults "compressed/a.txt.gz" "out/deep"
           (set_fs <["compressed/a.txt.gz"%string :=
                       File (gz_encode "a.txt" (bytes_of_string "abc"))]> papers)
           (set_fs <["out/deep"%string := Directory]>
              (set_fs <["out"%string := Directory]>
                 (set_fs <["compressed/a.txt.gz"%string :=
                             File (gz_encode "a.txt" (bytes_of_string "abc"))]> papers)))
           (gz_encode "a.txt" (bytes_of_string "abc")) "a.txt" (bytes_of_string "abc"));
    vm_compute; first [reflexivity | discriminate].
Defined.

Lemma decompress_undoes_compress_witness :
  compressFile no_faults flushes "docs/a.txt" "compressed" papers =
    (set_fs <[gz_path "compressed" "docs/a.txt" :=
                File (gz_encode (filepath_Base "docs/a.txt") (bytes_of_string "abc"))]>
       (set_fs <["compressed"%string := Directory]> papers), Ok tt) ∧
  decompressFile no_faults (gz_path "compressed" "docs/a.txt") "out"
    (set_fs <[gz_path "compressed" "docs/a.txt" :=
                File (gz_encode (filepath_Base "docs/a.txt") (bytes_of_string "abc"))]>
       (set_fs <["compressed"%string := Directory]> papers)) =
    (set_fs <[("out" ++ "/" ++ filepath_Base "docs/a.txt")%string :=
                File (bytes_of_string "abc")]>
       (set_fs <["out"%string := Directory]>
          (set_fs <[gz_path "compressed" "docs/a.txt" :=
                      File (gz_encode (filepath_Base "docs/a.txt") (bytes_of_string "abc"))]>
             (set_fs <["compressed"%string := Directory]> papers))), Ok tt).
Proof.
  apply (decompress_undoes_compress "docs/a.txt" "compressed" "out" papers);
    first [exact stored_gzip_sound | vm_compute; first [reflexivity | discriminate]].
Defined.

Lemma compressFile_makes_directory_first_witness :
  compressFile no_faults flushes "docs/gone.txt" "a/b" papers =
    (set_fs <["a/b"%string := Directory]> (set_fs <["a"%string := Directory]> papers),
     Err (Errorf "failed to open input file" (SysError (OpOpen "docs/gone.txt")))) ∧
  stat (set_fs <["a/b"%string := Directory]> (set_fs <["a"%string := Directory]> papers)) "a/b"
    = Some Directory.
Proof.
  apply (compressFile_makes_directory_first no_faults flushes "docs/gone.txt" "a/b" papers);
    vm_compute; reflexivity.
Defined.

Lemma decompressFile_follows_dotdot_witness :
  decompressFile no_faults "in.gz" ("out" ++ "/" ++ "deep") climbing =
    (set_fs <[("out" ++ "/" ++ "up.txt")%string := File (bytes_of_string "abc")]>
       (set_fs <["out/deep"%string := Directory]>
          (set_fs <["out"%string := Directory]> climbing)), Ok tt) ∧
  under ("out" ++ "/" ++ "deep") ("out" ++ "/" ++ "up.txt") = false.
Proof.
  apply (decompressFile_follows_dotdot no_faults "in.gz" "out" "deep" "up.txt" climbing
           (set_fs <["out/deep"%string := Directory]>
              (set_fs <["out"%string := Directory]> climbing))
           (gz_encode "../up.txt" (bytes_of_string "abc")) (bytes_of_string "abc"));
    vm_compute; first [reflexivity | discriminate].
Defined.

Lemma decompressFile_nameless_archive_witness :
  decompressFile no_faults "in.gz" "out" nameless =
    (set_fs <["out"%string := Directory]> nameless,
     Err (Errorf "failed to create output file" (SysError (OpCreate "out")))).
Proof.
  apply (decompressFile_nameless_archive no_faults "in.gz" "out" nameless
           (set_fs <["out"%string := Directory]> nameless)
           (gz_encode EmptyString (bytes_of_string "abc")) (bytes_of_string "abc") true);
    vm_compute; reflexivity.
Defined.

Lemma compressFile_same_base_name_overwrites_witness :
  gz_path "compressed" "docs/a.txt" = gz_path "compressed" "old/a.txt" ∧
  snd (compressFile no_faults flushes "docs/a.txt" "compressed" namesakes) = Ok tt ∧
  compressFile no_faults flushes "old/a.txt" "compressed"
    (fst (compressFile no_faults flushes "docs/a.txt" "compressed" namesakes)) =
    (set_fs <[gz_path "compressed" "docs/a.txt" :=
                File (cut flushes (gz_path "compressed" "docs/a.txt")
                        (gz_encode (filepath_Base "old/a.txt") (bytes_of_string "xy")))]>
       (set_fs <["compressed"%string := Directory]> namesakes),
     Ok tt).
Proof.
  apply (compressFile_same_base_name_overwrites no_faults flushes "docs/a.txt" "old/a.txt"
           "compressed" namesakes (set_fs <["compressed"%string := Directory]> namesakes)
           (bytes_of_string "abc") (bytes_of_string "xy"));
    vm_compute; first [reflexivity | discriminate].
Defined.

(** * [backup] *)

Lemma under_not_self_file w d p :
  fs w !! d = Some Directory → is_file w p = true → under d p = true →
  p = (d ++ "/" ++ below d p)%string.
Proof.
  intros Hd Hf Hu. apply under_inv in Hu as [->|E]; [| done].
  unfold is_file in Hf. by rewrite Hd in Hf.
Qed.

Lemma backupVisit_file {T : TarGz} fl xl d r output acc w data :
  plain d = true → plain r = true →
  fs w !! (d ++ "/" ++ r)%string = Some (File data) →
  fails fl (OpOpen (d ++ "/" ++ r)) = false →
  fails fl (OpCopy (d ++ "/" ++ r)) = false →
  backupVisit fl xl d output acc (d ++ "/" ++ r) (mkInfo false) None w =
    (set_fs <[output := File (tgz_encode (acc ++ [mkEntry r TypeReg data]))]> w,
     Ok (acc ++ [mkEntry r TypeReg data])).
Proof.
  intros Hd Hr Hp Ho Hc. unfold backupVisit.
  change (IsDir (mkInfo false)) with false. cbv iota.
  rewrite bind_eq. unfold closing at 1.
  rewrite wrap_eq, (os_Open_any_there _ _ _ _ (File data)); [| | done].
  2:{ by rewrite plain_join_stat. }
  rewrite rel_plain by done. rewrite bind_eq. unfold get at 1. cbv beta iota.
  rewrite Hp, Hc. by rewrite bind_eq.
Qed.

(** The walk of [backup] over paths of the directory, none of them the
    archive: every regular file adds its entry, a directory adds nothing. *)
Lemma backup_walk {T : TarGz} fl xl d output entries acc w :
  plain d = true →
  (∀ op, fails fl op = false) →
  Forall (λ p, p ≠ output ∧ is_Some (fs w !! p) ∧
               (is_file w p = true → p = (d ++ "/" ++ below d p)%string ∧ plain p = true))
    entries →
  walk_entries fl entries (backupVisit fl xl d output) acc
    (set_fs <[output := File (tgz_encode acc)]> w) =
  (set_fs <[output :=
              File (tgz_encode
                      (acc ++ map (backup_entry w d)
                                (filter (λ p, is_file w p = true) entries)))]> w,
   Ok (acc ++ map (backup_entry w d) (filter (λ p, is_file w p = true) entries))).
Proof.
  intros Hd Hfl. revert acc. induction entries as [|p entries IH]; intros acc Hall.
  { simpl. by rewrite app_nil_r. }
  inversion Hall as [|? ? (Hne & [n Hn] & Hfile) Hrest]; subst.
  rewrite walk_entries_cons. unfold walk_visit. rewrite bind_eq. unfold get at 1.
  cbv beta iota.
  assert (fs (set_fs <[output := File (tgz_encode acc)]> w) !! p = Some n) as ->.
  { simpl. by rewrite lookup_insert_ne. }
  rewrite Hfl. rewrite filter_cons. destruct n as [data|]; simpl info_of.
  - assert (is_file w p = true) as Hf by (unfold is_file; by rewrite Hn).
    destruct (Hfile Hf) as [E Hp]. rewrite decide_True by done.
    rewrite E in Hp. rewrite plain_app in Hp. apply andb_true_iff in Hp as [_ Hr].
    rewrite E at 1. rewrite (backupVisit_file _ _ _ _ _ _ _ data); try done.
    2:{ simpl. rewrite <- E. by rewrite lookup_insert_ne. }
    rewrite set_fs_twice.
    assert (mkEntry (below d p) TypeReg data = backup_entry w d p) as ->.
    { unfold backup_entry, file_bytes. by rewrite Hn. }
    rewrite IH by done. simpl map. by rewrite <- !app_assoc.
  - assert (is_file w p ≠ true) as Hf by (unfold is_file; by rewrite Hn).
    rewrite decide_False by done. unfold backupVisit.
    change (IsDir (mkInfo true)) with true. cbv iota.
    unfold ret at 1. by apply IH.
Qed.

Lemma walk_order_outside d output n w :
  under d output = false →
  ∀ p, p ∈ walk_order d (set_fs <[output := n]> w) →
    fs w !! d = Some Directory → p ≠ output ∧ p ∈ walk_order d w.
Proof.
  intros Hu p Hp Hd.
  assert (d ≠ output) as Hne.
  { intros <-. unfold under in Hu. by rewrite String.eqb_refl in Hu. }
  rewrite elem_of_walk_order in Hp |- *. simpl in Hp.
  rewrite lookup_insert_ne in Hp by done. rewrite Hd in *.
  destruct Hp as [Hup Hs].
  assert (p ≠ output) as Hpo by (intros ->; congruence).
  rewrite lookup_insert_ne in Hs by done. done.
Qed.

Lemma backup_run {T : TarGz} fl xl d output w :
  plain d = true →
  (∀ op, fails fl op = false) →
  fs w !! d = Some Directory →
  under d output = false →
  creatable w output = true →
  (∀ p, under d p = true → is_file w p = true → plain p = true) →
  backup fl xl d output w =
    (set_fs <[output :=
                File (cut xl output
                        (tgz_encode
                           (map (backup_entry w d)
                              (regular_files d
                                 (set_fs <[output := File (tgz_encode [])]> w)))))]> w,
     Ok tt).
Proof.
  intros Hd Hfl Hdir Hu Hcr Hplain.
  unfold backup. rewrite bind_eq, wrap_eq, os_Create_any_eq, Hfl, Hcr.
  simpl orb. cbv iota. rewrite bind_eq. unfold modify at 1. cbv beta iota.
  rewrite set_fs_twice. rewrite bind_eq, wrap_eq. unfold filepath_Walk.
  rewrite bind_eq. unfold get at 1. cbv beta iota.
  pose proof (walk_order_outside d output (File (tgz_encode [])) w Hu) as Hout.
  rewrite (backup_walk fl xl d output
             (walk_order d (set_fs <[output := File (tgz_encode [])]> w)) [] w); try done.
  - simpl app.
    rewrite (close_output_eq _ _ _
               (tgz_encode
                  (map (backup_entry w d)
                     (filter (λ p, is_file w p = true)
                        (walk_order d (set_fs <[output := File (tgz_encode [])]> w)))))).
    2:{ simpl. by rewrite lookup_insert_eq. }
    rewrite set_fs_twice. unfold regular_files.
    rewrite (filter_ext_elem
               (λ p, is_file (set_fs <[output := File (tgz_encode [])]> w) p = true)
               (λ p, is_file w p = true)); [done |].
    intros p Hp. destruct (Hout p Hp Hdir) as [Hne _].
    unfold is_file. simpl. by rewrite lookup_insert_ne.
  - apply Forall_forall. intros p Hp. destruct (Hout p Hp Hdir) as [Hne Hw].
    split; [done |]. rewrite elem_of_walk_order, Hdir in Hw. destruct Hw as [Hup Hs].
    split; [done |]. intros Hf. split; [by eapply under_not_self_file | by apply Hplain].
Qed.

(** The regular files the walk of [backup] meets are those that were in the
    directory before the archive was created. *)
Lemma backup_files d output n w p :
  fs w !! d = Some Directory → under d output = false →
  p ∈ regular_files d (set_fs <[output := n]> w) ↔ p ∈ regular_files d w.
Proof.
  intros Hd Hu.
  assert (d ≠ output) as Hne.
  { intros <-. unfold under in Hu. by rewrite String.eqb_refl in Hu. }
  rewrite !elem_of_regular_files, !elem_of_walk_order. simpl.
  rewrite lookup_insert_ne by done. rewrite Hd. unfold is_file. simpl.
  split.
  - intros (Hf & Hup & Hs).
    assert (p ≠ output) as Hpo by (intros ->; congruence).
    by rewrite lookup_insert_ne in Hf, Hs by done.
  - intros (Hf & Hup & Hs).
    assert (p ≠ output) as Hpo by (intros ->; congruence).
    by rewrite !lookup_insert_ne by done.
Qed.

(** X20. A backup of a plain directory, with no failing call and the archive
    outside the directory, holds one entry for every regular file met by the
    walk, in walk order: its path below the directory and its bytes.
    Directories get no entry, so an empty directory is not in the backup.
    The files met are those the directory held before the call. *)
Theorem backup_archives_regular_files {T : TarGz} fl xl directory output w :
  plain directory = true →
  (∀ op, fails fl op = false) →
  fs w !! directory = Some Directory →
  under directory output = false →
  creatable w output = true →
  (∀ p, under directory p = true → is_file w p = true → plain p = true) →
  backup fl xl directory output w =
    (set_fs <[output :=
                File (cut xl output
                        (tgz_encode
                           (map (backup_entry w directory)
                              (regular_files directory
                                 (set_fs <[output := File (tgz_encode [])]> w)))))]> w,
     Ok tt) ∧
  ∀ p, p ∈ regular_files directory (set_fs <[output := File (tgz_encode [])]> w)
       ↔ p ∈ regular_files directory w.
Proof.
  intros Hd Hfl Hdir Hu Hcr Hplain. split; [by apply backup_run |].
  intros p. by apply backup_files.
Qed.


(** * [restore] *)

Lemma os_MkdirAll_keeps fl path w q n :
  fs w !! q = Some n → fs (fst (os_MkdirAll fl path w)) !! q = Some n.
Proof. intros Hq. eapply grown_keeps; [apply os_MkdirAll_grown | done]. Qed.

(** One entry: what was there stays, but for the file the entry is written
    to. *)
Lemma restoreEntry_keeps fl t h w q n :
  fs w !! q = Some n →
  (t_type h = TypeReg → filepath_Join2 t (t_name h) ≠ q) →
  fs (fst (restoreEntry fl t h w)) !! q = Some n.
Proof.
  intros Hq Hne. unfold restoreEntry. destruct (t_type h) as [| |flag]; [| | done].
  - specialize (Hne eq_refl). rewrite bind_eq, wrap_eq.
    pose proof (os_MkdirAll_keeps fl (filepath_Dir (filepath_Join2 t (t_name h))) w q n Hq)
      as Hq1.
    destruct (os_MkdirAll fl (filepath_Dir (filepath_Join2 t (t_name h))) w)
      as [w1 [[]|e]]; [| done]. simpl in Hq1.
    rewrite bind_eq, wrap_eq, os_Create_any_eq.
    destruct (fails fl (OpCreate (filepath_Join2 t (t_name h)))
              || negb (creatable w1 (filepath_Join2 t (t_name h)))); [done |].
    rewrite wrap_eq, write_out_eq.
    destruct (fails fl (OpCopy (filepath_Join2 t (t_name h)))); simpl;
      by rewrite !lookup_insert_ne.
  - rewrite wrap_eq.
    pose proof (os_MkdirAll_keeps fl (filepath_Join2 t (t_name h)) w q n Hq) as Hq1.
    by destruct (os_MkdirAll fl (filepath_Join2 t (t_name h)) w) as [w1 [[]|e]].
Qed.

(** A directory stays a directory under one entry restored without error. *)
Lemma restoreEntry_dir_stays fl t h w w' q :
  restoreEntry fl t h w = (w', Ok tt) →
  stat w q = Some Directory → stat w' q = Some Directory.
Proof.
  unfold restoreEntry. destruct (t_type h) as [| |flag]; [| | done].
  - rewrite bind_eq, wrap_eq.
    pose proof (os_MkdirAll_grown fl (filepath_Dir (filepath_Join2 t (t_name h))) w) as Hg.
    destruct (os_MkdirAll fl (filepath_Dir (filepath_Join2 t (t_name h))) w)
      as [w1 [[]|e]]; [| done]. simpl in Hg.
    rewrite bind_eq, wrap_eq, os_Create_any_eq.
    destruct (fails fl (OpCreate (filepath_Join2 t (t_name h)))); [done |].
    destruct (creatable w1 (filepath_Join2 t (t_name h))) eqn:Hcr; [| done].
    simpl orb. cbv iota. rewrite wrap_eq, write_out_eq.
    destruct (fails fl (OpCopy (filepath_Join2 t (t_name h)))); [done |].
    intros [= <-] Hs. rewrite set_fs_twice.
    apply (stat_grown _ _ _ _ Hg) in Hs.
    rewrite stat_insert_ne; [done |]. intros <-.
    unfold creatable, is_directory in Hcr. rewrite Hs in Hcr.
    simpl in Hcr. by rewrite andb_false_r in Hcr.
  - rewrite wrap_eq.
    pose proof (os_MkdirAll_grown fl (filepath_Join2 t (t_name h)) w) as Hg.
    destruct (os_MkdirAll fl (filepath_Join2 t (t_name h)) w) as [w1 [[]|e]]; [| done].
    intros [= <-]. by apply stat_grown.
Qed.

(** One entry that is restored without error: a file holds its bytes, a
    directory is there, and the entry is one of the two. *)
Lemma restoreEntry_ok fl t h w w' :
  restoreEntry fl t h w = (w', Ok tt) →
  match t_type h with
  | TypeReg => fs w' !! filepath_Join2 t (t_name h) = Some (File (t_data h))
  | TypeDir => stat w' (filepath_Join2 t (t_name h)) = Some Directory
  | TypeOther _ => False
  end.
Proof.
  unfold restoreEntry. destruct (t_type h) as [| |flag]; [| | done].
  - rewrite bind_eq, wrap_eq.
    destruct (os_MkdirAll fl (filepath_Dir (filepath_Join2 t (t_name h))) w)
      as [w1 [[]|e]]; [| done].
    rewrite bind_eq, wrap_eq, os_Create_any_eq.
    destruct (fails fl (OpCreate (filepath_Join2 t (t_name h)))
              || negb (creatable w1 (filepath_Join2 t (t_name h)))); [done |].
    rewrite wrap_eq, write_out_eq.
    destruct (fails fl (OpCopy (filepath_Join2 t (t_name h)))); [done |].
    intros [= <-]. simpl. by rewrite lookup_insert_eq.
  - rewrite wrap_eq.
    destruct (os_MkdirAll fl (filepath_Join2 t (t_name h)) w) as [w1 [[]|e]] eqn:Hmk;
      [| done].
    intros [= <-]. by apply os_MkdirAll_ok in Hmk as [? _].
Qed.

Lemma restoreEntries_cons fl t h rest w :
  restoreEntries fl t (h :: rest) w =
  match restoreEntry fl t h w with
  | (w1, Ok _) => restoreEntries fl t rest w1
  | (w1, Err e) => (w1, Err e)
  end.
Proof. reflexivity. Qed.

Lemma restoreEntries_app fl t pre post w :
  restoreEntries fl t (pre ++ post) w =
  match restoreEntries fl t pre w with
  | (w1, Ok _) => restoreEntries fl t post w1
  | (w1, Err e) => (w1, Err e)
  end.
Proof.
  revert w. induction pre as [|h pre IH]; intros w; [done |].
  rewrite <- app_comm_cons, !restoreEntries_cons.
  destruct (restoreEntry fl t h w) as [w1 [[]|e]]; [apply IH | done].
Qed.

Lemma restoreEntries_dir_stays fl t hs w w' q :
  restoreEntries fl t hs w = (w', Ok tt) →
  stat w q = Some Directory → stat w' q = Some Directory.
Proof.
  revert w. induction hs as [|h hs IH]; intros w; [by intros [= <-] |].
  rewrite restoreEntries_cons.
  destruct (restoreEntry fl t h w) as [w1 [[]|e]] eqn:E; [| done].
  intros Hrest Hs. apply (IH w1 Hrest). by eapply restoreEntry_dir_stays.
Qed.

Lemma restoreEntries_keeps fl t hs w q n :
  fs w !! q = Some n →
  (∀ h, h ∈ hs → t_type h = TypeReg → filepath_Join2 t (t_name h) ≠ q) →
  fs (fst (restoreEntries fl t hs w)) !! q = Some n.
Proof.
  revert w. induction hs as [|h hs IH]; intros w Hq Hne; [done |].
  rewrite restoreEntries_cons.
  pose proof (restoreEntry_keeps fl t h w q n Hq) as Hk.
  destruct (restoreEntry fl t h w) as [w1 [[]|e]]; simpl in Hk.
  - apply IH; [apply Hk, Hne; by left |]. intros h' Hh'. apply Hne. by right.
  - apply Hk, Hne. by left.
Qed.

(** Entries restored without error are in place afterwards: a regular file
    holds its bytes unless a later entry was written to the same path, a
    directory is there, and no entry was of another type. *)
Lemma restoreEntries_ok fl t hs w w' :
  restoreEntries fl t hs w = (w', Ok tt) →
  ∀ i h, hs !! i = Some h →
    match t_type h with
    | TypeReg =>
        (∀ j h', i < j → hs !! j = Some h' → t_type h' = TypeReg →
                 filepath_Join2 t (t_name h') ≠ filepath_Join2 t (t_name h)) →
        fs w' !! filepath_Join2 t (t_name h) = Some (File (t_data h))
    | TypeDir => stat w' (filepath_Join2 t (t_name h)) = Some Directory
    | TypeOther _ => False
    end.
Proof.
  revert w. induction hs as [|h0 hs IH]; intros w Hrun i h Hi; [done |].
  rewrite restoreEntries_cons in Hrun.
  destruct (restoreEntry fl t h0 w) as [w1 [[]|e]] eqn:E; [| done].
  destruct i as [|i]; simpl in Hi.
  - injection Hi as ->. pose proof (restoreEntry_ok _ _ _ _ _ E) as Hok.
    destruct (t_type h) as [| |flag]; [| | done].
    + intros Hlater.
      pose proof (restoreEntries_keeps fl t hs w1 _ _ Hok) as Hk.
      rewrite Hrun in Hk. apply Hk. intros h' Hh' Ht.
      apply list_elem_of_lookup in Hh' as [j Hj].
      apply (Hlater (S j) h'); [lia | done | done].
    + by eapply restoreEntries_dir_stays.
  - specialize (IH w1 Hrun i h Hi). destruct (t_type h) as [| |flag]; [| done..].
    intros Hlater. apply IH. intros j h' Hij Hj. apply (Hlater (S j) h'); [lia | done].
Qed.

Lemma tar_NewReader_eq {T : TarGz} fl src w :
  tar_NewReader fl src w =
  match fs w !! src with
  | Some (File bytes) =>
      match tgz_decode bytes with
      | Some r => (w, Ok r)
      | None => (w, Err (SysError (OpHashRead src)))
      end
  | _ => (w, Err (SysError (OpHashRead src)))
  end.
Proof.
  unfold tar_NewReader. rewrite bind_eq. unfold get at 1. cbv beta iota.
  destruct (fs w !! src) as [[bytes|]|]; try done. by destruct (tgz_decode bytes).
Qed.

(** A [restore] that answers without error has read the whole archive and
    restored its entries. *)
Lemma restore_ok_inv {T : TarGz} fl archive t w w' bytes headers intact :
  fs w !! archive = Some (File bytes) →
  tgz_decode bytes = Some (headers, intact) →
  restore fl archive t w = (w', Ok tt) →
  restoreEntries fl t headers w = (w', Ok tt).
Proof.
  intros Ha Hdec. unfold restore. rewrite bind_eq, wrap_eq, os_Open_any_eq.
  destruct (fails fl (OpOpen archive) || negb (bool_decide (is_Some (stat w archive))));
    [done |].
  rewrite bind_eq, wrap_eq, tar_NewReader_eq, Ha, Hdec. cbv beta iota.
  rewrite bind_eq. destruct (restoreEntries fl t headers w) as [w1 [[]|e]]; [| done].
  by destruct intact.
Qed.

(** X22. After a [restore] that answers without error, every regular entry of
    the archive holds its bytes at the path its name is joined to, unless a
    later entry was written to the same path; every directory entry is a
    directory; and the archive held no entry of another type. The archive is
    one that no entry is written over. *)
Theorem restore_puts_entries_in_place {T : TarGz} fl archive targetDir w w'
    bytes headers intact :
  fs w !! archive = Some (File bytes) →
  tgz_decode bytes = Some (headers, intact) →
  (∀ h, h ∈ headers → filepath_Join2 targetDir (t_name h) ≠ archive) →
  restore fl archive targetDir w = (w', Ok tt) →
  ∀ i h, headers !! i = Some h →
    match t_type h with
    | TypeReg =>
        (∀ j h', i < j → headers !! j = Some h' → t_type h' = TypeReg →
                 filepath_Join2 targetDir (t_name h')
                 ≠ filepath_Join2 targetDir (t_name h)) →
        fs w' !! filepath_Join2 targetDir (t_name h) = Some (File (t_data h))
    | TypeDir => stat w' (filepath_Join2 targetDir (t_name h)) = Some Directory
    | TypeOther _ => False
    end.
Proof.
  intros Ha Hdec _ Hrun. eapply restoreEntries_ok. by eapply restore_ok_inv.
Qed.

(** X23. [restore] stops at the first entry that is neither a regular file
    nor a directory: it answers an error, the entries before it stay
    restored and those after it are not looked at. *)
Theorem restore_stops_at_other_entry {T : TarGz} fl archive targetDir w w1
    bytes pre h post intact flag :
  stat w archive = Some (File bytes) →
  tgz_decode bytes = Some (pre ++ h :: post, intact) →
  t_type h = TypeOther flag →
  fails fl (OpOpen archive) = false →
  restoreEntries fl targetDir pre w = (w1, Ok tt) →
  ∃ e, restore fl archive targetDir w = (w1, Err (Errorf "unsupported header type" e)).
Proof.
  intros Ha Hdec Ht Ho Hpre. unfold restore.
  rewrite bind_eq, wrap_eq, (os_Open_any_there _ _ _ _ _ Ha Ho).
  rewrite bind_eq, wrap_eq, tar_NewReader_eq, (stat_file _ _ _ Ha), Hdec. cbv beta iota.
  rewrite bind_eq, restoreEntries_app, Hpre, restoreEntries_cons.
  unfold restoreEntry. rewrite Ht. unfold fail. eauto.
Qed.

(** X28. The names in the archive are joined to the target directory
    unchecked: an entry that names [../n] is restored beside the target
    directory, not in it. *)
Theorem restore_follows_dotdot {T : TarGz} fl archive a leaf n w w1 bytes data :
  plain a = true →
  simple leaf = true →
  simple n = true →
  n ≠ leaf →
  stat w archive = Some (File bytes) →
  tgz_decode bytes = Some ([mkEntry (".." ++ "/" ++ n) TypeReg data], true) →
  os_MkdirAll fl a w = (w1, Ok tt) →
  (a ++ "/" ++ n)%string ≠ archive →
  is_dir w1 (a ++ "/" ++ n) = false →
  fails fl (OpOpen archive) = false →
  fails fl (OpCreate (a ++ "/" ++ n)) = false →
  fails fl (OpCopy (a ++ "/" ++ n)) = false →
  restore fl archive (a ++ "/" ++ leaf) w =
    (set_fs <[(a ++ "/" ++ n)%string := File data]> w1, Ok tt) ∧
  under (a ++ "/" ++ leaf) (a ++ "/" ++ n) = false.
Proof.
  intros Ha Hl Hn Hnl Hin Hdec Hmk Hne Hnd Ho Hc Hcp.
  destruct (os_MkdirAll_ok _ _ _ _ Hmk) as [Hs Hg].
  split; [| by apply sibling_outside].
  unfold restore. rewrite bind_eq, wrap_eq, (os_Open_any_there _ _ _ _ _ Hin Ho).
  rewrite bind_eq, wrap_eq, tar_NewReader_eq, (stat_file _ _ _ Hin), Hdec.
  cbv beta iota. rewrite bind_eq, restoreEntries_cons. unfold restoreEntry.
  cbn [t_type t_name t_data].
  rewrite join_dotdot by (done || by apply simple_plain).
  rewrite dir_plain by (done || by apply simple_no_sep).
  rewrite bind_eq, wrap_eq, Hmk.
  rewrite bind_eq, wrap_eq, os_Create_in
    by (done || (by apply simple_no_sep) || (intros ->; done)).
  rewrite Hc, Hnd. simpl orb. cbv iota.
  rewrite wrap_eq, write_out_eq, Hcp. by rewrite set_fs_twice.
Qed.



(** * The blob path under the real [Join] *)

Lemma simple_storage_key data p : simple (storage_key data p) = true.
Proof.
  unfold simple. rewrite !andb_true_iff, !negb_true_iff.
  assert (63 < String.length (storage_key data p)) as Hlen.
  { unfold storage_key. rewrite string_app_length, digest_length. lia. }
  split; [split; [split |] |].
  - apply String.eqb_neq. intros E. rewrite E in Hlen. simpl in Hlen. lia.
  - apply String.eqb_neq. intros E. rewrite E in Hlen. simpl in Hlen. lia.
  - apply String.eqb_neq. intros E. rewrite E in Hlen. simpl in Hlen. lia.
  - rewrite forallb_forall. intros c Hc.
    pose proof (storage_key_no_separator data p) as Hn.
    unfold no_separator in Hn. rewrite Forall_forall in Hn.
    apply negb_true_iff, Hn. by apply list_elem_of_In.
Qed.

(** X26. The storage key is a plain name, whatever the path that is stored:
    [filepath.Join] with its [Clean] puts it right below the storage
    directory, so no extension can lead a blob out of it. *)
Theorem blob_lies_in_storage data filePath :
  filepath_Join2 storageDir (storage_key data filePath)
  = filepath_Join storageDir (storage_key data filePath) ∧
  parent_dir (filepath_Join2 storageDir (storage_key data filePath)) = storageDir.
Proof.
  assert (filepath_Join2 storageDir (storage_key data filePath)
          = filepath_Join storageDir (storage_key data filePath)) as E.
  { apply join_plain; [done |]. apply simple_plain, simple_storage_key. }
  split; [done |]. rewrite E. apply parent_of_blob, storage_key_no_separator.
Qed.

Lemma papers_files p :
  is_file papers p = true → p = "docs/a.txt"%string ∨ p = "docs/sub/b.txt"%string.
Proof.
  intros [data Hp]%is_file_true.
  assert (p ∈ elements (dom (fs papers))) as Hin.
  { apply elem_of_elements, elem_of_dom. eauto. }
  let l := eval vm_compute in (elements (dom (fs papers))) in
  change (p ∈ l) in Hin.
  repeat (apply elem_of_cons in Hin as [->|Hin]); try (by apply elem_of_nil in Hin);
    first [by left | by right | by vm_compute in Hp].
Qed.

Lemma papers_plain p : under "docs" p = true → is_file papers p = true → plain p = true.
Proof. intros _ [->| ->]%papers_files; reflexivity. Qed.

Lemma backup_archives_regular_files_witness :
  backup no_faults flushes "docs" "b.tgz" papers =
    (set_fs <["b.tgz"%string :=
                File (cut flushes "b.tgz"
                        (tgz_encode
                           (map (backup_entry papers "docs")
                              (regular_files "docs"
                                 (set_fs <["b.tgz"%string := File (tgz_encode [])]>
                                    papers)))))]> papers,
     Ok tt) ∧
  ∀ p, p ∈ regular_files "docs" (set_fs <["b.tgz"%string := File (tgz_encode [])]> papers)
       ↔ p ∈ regular_files "docs" papers.
Proof.
  apply (backup_archives_regular_files no_faults flushes "docs" "b.tgz" papers);
    first [exact papers_plain | intros; vm_compute; reflexivity].
Defined.


Lemma restore_puts_entries_in_place_witness :
  fs (fst (restore no_faults "b.tgz" "back" packed)) !! filepath_Join2 "back" "sub/b.txt"
  = Some (File (bytes_of_string "xy")).
Proof.
  refine (restore_puts_entries_in_place no_faults "b.tgz" "back" packed
            (fst (restore no_faults "b.tgz" "back" packed))
            (tgz_encode packed_entries) packed_entries true _ _ _ _
            2 (mkEntry "sub/b.txt" TypeReg (bytes_of_string "xy")) _ _).
  - vm_compute. reflexivity.
  - exact (stored_targz_sound packed_entries).
  - intros h Hh.
    repeat (apply elem_of_cons in Hh as [->|Hh]); try (by apply elem_of_nil in Hh);
      vm_compute; discriminate.
  - vm_compute. reflexivity.
  - reflexivity.
  - intros j h' Hij Hj. destruct j as [|[|[|j]]]; [lia | lia | lia | done].
Defined.

Lemma restore_stops_at_other_entry_witness :
  ∃ e, restore no_faults "b.tgz" "back" linked =
         (fst (restoreEntries no_faults "back"
                 [mkEntry "a.txt" TypeReg (bytes_of_string "abc")] linked),
          Err (Errorf "unsupported header type" e)).
Proof.
  refine (restore_stops_at_other_entry no_faults "b.tgz" "back" linked _
            (tgz_encode linked_entries)
            [mkEntry "a.txt" TypeReg (bytes_of_string "abc")]
            (mkEntry "link" (TypeOther "2") [])
            [mkEntry "c.txt" TypeReg (bytes_of_string "xy")] true "2" _ _ _ _ _).
  - vm_compute. reflexivity.
  - exact (stored_targz_sound linked_entries).
  - reflexivity.
  - reflexivity.
  - vm_compute. reflexivity.
Defined.



Lemma restore_follows_dotdot_witness :
  restore no_faults "b.tgz" ("out" ++ "/" ++ "deep") slipping =
    (set_fs <[("out" ++ "/" ++ "up.txt")%string := File (bytes_of_string "abc")]>
       (set_fs <["out"%string := Directory]> slipping), Ok tt) ∧
  under ("out" ++ "/" ++ "deep") ("out" ++ "/" ++ "up.txt") = false.
Proof.
  apply (restore_follows_dotdot no_faults "b.tgz" "out" "deep" "up.txt" slipping
           (set_fs <["out"%string := Directory]> slipping)
           (tgz_encode [mkEntry "../up.txt" TypeReg (bytes_of_string "abc")])
           (bytes_of_string "abc"));
    first [exact (stored_targz_sound _) | vm_compute; first [reflexivity | discriminate]].
Defined.

(** * Stores under one base name *)

(** The rows of a store that answers a key: one action under the base name,
    and one version under it when the blob was not there. *)
Lemma storeFile_ok_rows fl p w w' key :
  storeFile fl p w = (w', Ok key) →
  (is_Some (fs w !! filepath_Join storageDir key) ∧
   actions w' = actions w ++ [mkAction "store_duplicate" (filepath_Base p) key] ∧
   versions w' = versions w) ∨
  (fs w !! filepath_Join storageDir key = None ∧
   actions w' = actions w ++ [mkAction "store" (filepath_Base p) key] ∧
   ∃ h, versions w' = versions w ++
          [mkVersion (filepath_Base p) (next_version (filepath_Base p) (versions w)) h]).
Proof.
  intros H. apply storeFile_run in H.
  inversion H as [| | | | w1 data Hs Hb Ha | | | w1 data w2 r Hs Hb Hc Hd Hcp Hl]; subst.
  - left. destruct Hs as [Hp _]. destruct (prepared_records _ _ _ Hp) as [Ha' Hv].
    unfold blob_path in Hb. rewrite (prepared_blob _ _ _ _ Hp) in Hb.
    simpl. by rewrite Ha'.
  - right. destruct Hs as [Hp _]. inversion Hl; subst.
    destruct (prepared_records _ _ _ Hp) as [Ha' Hv].
    unfold blob_path in Hb. rewrite (prepared_blob _ _ _ _ Hp) in Hb.
    simpl. rewrite Ha', Hv. eauto.
Qed.

(** C9. Whatever a store appends to the two tables, however it ends, is
    filed under the base name of the source path and not under the path. So
    two stores that succeed on sources of the same base name in different
    directories leave two action rows under that one name, and, when each
    wrote a new blob, two version rows under it whose numbers follow the last
    one of that name and each other: one sequence for both. *)
Theorem storeFile_keys_by_base_name fl1 fl2 dir1 dir2 name w w1 w2 k1 k2 :
  name ≠ EmptyString →
  no_separator name →
  storeFile fl1 (dir1 ++ "/" ++ name) w = (w1, Ok k1) →
  storeFile fl2 (dir2 ++ "/" ++ name) w1 = (w2, Ok k2) →
  (∀ fl filePath w0, ∃ acts vers,
     actions (fst (storeFile fl filePath w0)) = actions w0 ++ acts ∧
     versions (fst (storeFile fl filePath w0)) = versions w0 ++ vers ∧
     Forall (λ a, a_filename a = filepath_Base filePath) acts ∧
     Forall (λ v, v_filename v = filepath_Base filePath) vers) ∧
  (∃ t1 t2,
     actions w2 = actions w ++ [mkAction t1 name k1; mkAction t2 name k2]) ∧
  (fs w !! filepath_Join storageDir k1 = None →
   fs w1 !! filepath_Join storageDir k2 = None →
   ledger_ok (versions w) →
   (Z.of_nat (length (versions w)) < 2 ^ 63 - 2)%Z →
   ∃ h1 h2,
     versions w2 = versions w ++
       [mkVersion name (Z.of_nat (length (rows_of name (versions w)) + 1)) h1;
        mkVersion name (Z.of_nat (length (rows_of name (versions w)) + 2)) h2]).
Proof.
  intros Hne Hn H1 H2.
  apply storeFile_ok_rows in H1, H2. rewrite base_of_join in H1, H2 by done.
  split.
  { intros fl filePath w0.
    destruct (store_outcome_records _ _ _ _ _ (storeFile_outcome fl filePath w0))
      as (acts & vers & Ha & Hv & Hfa & Hfv).
    exists acts, vers. repeat split; try done.
    eapply Forall_impl; [exact Hfv |]. by intros v [? _]. }
  split.
  { destruct H1 as [(_ & Ha1 & _) | (_ & Ha1 & _)], H2 as [(_ & Ha2 & _) | (_ & Ha2 & _)];
      rewrite Ha2, Ha1, <- app_assoc; eauto. }
  intros Hf1 Hf2 Hok Hlen.
  destruct H1 as [([? Hb] & _) | (_ & _ & h1 & Hv1)]; [congruence |].
  destruct H2 as [([? Hb] & _) | (_ & _ & h2 & Hv2)]; [congruence |].
  exists h1, h2. rewrite Hv2, Hv1, <- app_assoc. simpl app.
  assert (ledger_ok (versions w ++ [mkVersion name (next_version name (versions w)) h1]))
    as Hok1 by (apply ledger_ok_append; [done | lia]).
  rewrite (next_version_counts name (versions w ++ _)); [| done |].
  2:{ rewrite length_app. simpl. lia. }
  rewrite (next_version_counts name (versions w)) by (done || lia).
  rewrite rows_of_app, length_app.
  assert (∀ v, length (rows_of name [mkVersion name v h1]) = 1) as ->.
  { intros v. unfold rows_of. by rewrite filter_cons, decide_True. }
  repeat f_equal; lia.
Qed.

Lemma storeFile_keys_by_base_name_witness :
  ∃ h1 h2,
    versions (fst (storeFile no_faults "y/f.txt"
                     (fst (storeFile no_faults "x/f.txt" namesakes_world))))
    = versions namesakes_world ++
      [mkVersion "f.txt"
         (Z.of_nat (length (rows_of "f.txt" (versions namesakes_world)) + 1)) h1;
       mkVersion "f.txt"
         (Z.of_nat (length (rows_of "f.txt" (versions namesakes_world)) + 2)) h2].
Proof.
  refine (proj2 (proj2
    (storeFile_keys_by_base_name no_faults no_faults "x" "y" "f.txt" namesakes_world
       (fst (storeFile no_faults "x/f.txt" namesakes_world))
       (fst (storeFile no_faults "y/f.txt"
               (fst (storeFile no_faults "x/f.txt" namesakes_world))))
       (snd_key (storeFile no_faults "x/f.txt" namesakes_world))
       (snd_key (storeFile no_faults "y/f.txt"
                   (fst (storeFile no_faults "x/f.txt" namesakes_world))))
       _ _ _ _)) _ _ _ _).
  - discriminate.
  - repeat constructor.
  - vm_compute. reflexivity.
  - vm_compute. reflexivity.
  - vm_compute. reflexivity.
  - vm_compute. reflexivity.
  - intros f. reflexivity.
  - vm_compute. reflexivity.
Defined.

(** * What a sweep can touch *)

(** A name without separator is under a directory only when it is the
    directory. *)
Lemma under_name d q : no_separator q → under d q = true → q = d.
Proof.
  intros Hq. unfold under. rewrite orb_true_iff. intros [H|H]; [by apply String.eqb_eq |].
  apply prefix_inv in H. rewrite string_app_assoc in H.
  unfold no_separator in Hq. rewrite H, !list_ascii_app in Hq.
  apply Forall_app in Hq as [_ Hq]. simpl in Hq.
  inversion Hq as [|? ? Hc _]. by vm_compute in Hc.
Qed.

(** X7. In a tree of regular files and directories (the model has no
    symbolic links), a sweep of a plain directory changes the file system in
    one way only: it removes regular files that its walk of the directory
    meets. Every other path, in the directory or outside of it, keeps what it
    had, under any schedule and whatever fails; no file is created or
    rewritten. The table of versions gets no row, and the walk does not meet
    the file of the database, which is not below a plain directory, so the
    sweep cannot remove it. *)
Theorem sweep_only_removes_walked_files sched fl directory w q :
  plain directory = true →
  (fs (world (deduplicateFiles sched fl directory w)) !! q = fs w !! q ∨
   q ∈ regular_files directory w ∧
   fs (world (deduplicateFiles sched fl directory w)) !! q = None) ∧
  versions (world (deduplicateFiles sched fl directory w)) = versions w ∧
  (directory ≠ databaseFile → databaseFile ∉ walk_order directory w).
Proof.
  intros _.
  assert (∀ q,
            fs (world (deduplicateFiles sched fl directory w)) !! q = fs w !! q ∨
            q ∈ regular_files directory w ∧
            fs (world (deduplicateFiles sched fl directory w)) !! q = None) as Hq.
  { intros q'.
    destruct (deduplicateFiles_world sched fl directory w) as [-> | ->]; [by left |].
    rewrite dedupWalk_eq.
    destruct (walk_entries_paths fl (walk_order directory w) ∅ w q')
      as [H | (Hin & Hf & Hnone)]; [by left |].
    right. split; [| done]. by apply elem_of_regular_files. }
  split; [apply Hq |]. split; [apply deduplicateFiles_versions |].
  intros Hne Hin. rewrite elem_of_walk_order in Hin.
  assert (databaseFile = directory) as E; [| by rewrite E in Hne].
  destruct (fs w !! directory) as [[data|]|]; [done | | done].
  destruct Hin as [Hu _]. apply under_name; [by repeat constructor | done].
Qed.

Lemma sweep_only_removes_walked_files_witness :
  (fs (world (deduplicateFiles caller_waits no_faults "d" twins_world)) !! "d/b.txt"%string
     = fs twins_world !! "d/b.txt"%string ∨
   "d/b.txt"%string ∈ regular_files "d" twins_world ∧
   fs (world (deduplicateFiles caller_waits no_faults "d" twins_world)) !! "d/b.txt"%string
     = None) ∧
  versions (world (deduplicateFiles caller_waits no_faults "d" twins_world))
    = versions twins_world ∧
  ("d"%string ≠ databaseFile → databaseFile ∉ walk_order "d" twins_world).
Proof.
  apply (sweep_only_removes_walked_files caller_waits no_faults "d" twins_world "d/b.txt").
  vm_compute. reflexivity.
Defined.
